(** * notion_clean_all.py: a shallow embedding and its verified properties

    The script normalises a tree exported from a note-taking tool: image
    folders whose name ends in a 32-digit hexadecimal identifier are renamed
    to [lecture NN], the companion markdown document is cleaned of the
    identifier and of brackets, and the links inside the document are
    rewritten to the new folder.

    Python values are modelled as follows.
    - A [str] is the list of its Unicode code points (each an [N]).
    - The file system is a finite map from absolute paths (lists of
      component names) to entries, a regular file with its text or a
      directory.
    - A function that can raise returns the file system reached when the
      exception left the function together with the exception. *)

From stdpp Require Import gmap list strings.
From Stdlib Require Import NArith ZArith Lia Sorted DecimalString DecimalNat.

Open Scope N_scope.

(** ** Python strings *)

Module PyStr.

Abbreviation char := N (only parsing).
Abbreviation str := (list N) (only parsing).

(** An ASCII literal of the source as a [str]. *)
Definition lit (s : string) : str := map Ascii.N_of_ascii (String.list_ascii_of_string s).

Definition char_eqb (a b : char) : bool := N.eqb a b.

Fixpoint str_eqb (a b : str) : bool :=
  match a, b with
  | [], [] => true
  | x :: a', y :: b' => char_eqb x y && str_eqb a' b'
  | _, _ => false
  end.

(** [c in chars] for a single character. *)
Definition mem_char (c : char) (chars : str) : bool := existsb (char_eqb c) chars.

(** The characters [str.split()] and [str.strip()] treat as whitespace:
    tab to carriage return, the four information separators, space, NEL,
    no-break space and the Unicode space separators. *)
Definition is_space (c : char) : bool :=
  ((9 <=? c) && (c <=? 13)) || ((28 <=? c) && (c <=? 32)) ||
  (c =? 133) || (c =? 160) || (c =? 5760) ||
  ((8192 <=? c) && (c <=? 8202)) || (c =? 8232) || (c =? 8233) ||
  (c =? 8239) || (c =? 8287) || (c =? 12288).

(** [s.split()]: the maximal runs of non-whitespace characters, in order.
    [cur] is the run being read, last character first. *)
Definition flush (cur : str) (k : list str) : list str :=
  match cur with
  | [] => k
  | _ :: _ => rev cur :: k
  end.

Fixpoint split_from (cur : str) (s : str) : list str :=
  match s with
  | [] => flush cur []
  | c :: s' =>
      if is_space c then flush cur (split_from [] s')
      else split_from (c :: cur) s'
  end.

Definition split (s : str) : list str := split_from [] s.

(** [sep.join(l)]. *)
Fixpoint join (sep : str) (l : list str) : str :=
  match l with
  | [] => []
  | x :: l' =>
      match l' with
      | [] => x
      | _ :: _ => x ++ sep ++ join sep l'
      end
  end.

(** [l[-1]] when [l] is not empty, and [l[:-1]]. *)
Fixpoint last_item {A} (l : list A) : option A :=
  match l with
  | [] => None
  | x :: l' => match l' with [] => Some x | _ :: _ => last_item l' end
  end.

Fixpoint but_last {A} (l : list A) : list A :=
  match l with
  | [] => []
  | x :: l' => match l' with [] => [] | _ :: _ => x :: but_last l' end
  end.

(** [s.lstrip()], [s.rstrip()] and [s.strip()] when given a predicate for
    the characters to remove. *)
Fixpoint lstrip_by (p : char -> bool) (s : str) : str :=
  match s with
  | [] => []
  | c :: s' => if p c then lstrip_by p s' else s
  end.

Definition rstrip_by (p : char -> bool) (s : str) : str :=
  rev (lstrip_by p (rev s)).

Definition strip (s : str) : str := rstrip_by is_space (lstrip_by is_space s).

(** [s.rstrip(chars)]. *)
Definition rstrip (chars : str) (s : str) : str :=
  rstrip_by (fun c => mem_char c chars) s.

(** [s.replace(c, "")] for a one-character [c]. *)
Fixpoint remove_char (c : char) (s : str) : str :=
  match s with
  | [] => []
  | x :: s' => if char_eqb x c then remove_char c s' else x :: remove_char c s'
  end.

(** [s.startswith(p)], [s.endswith(p)] and [needle in hay]. *)
Fixpoint startswith (p s : str) : bool :=
  match p, s with
  | [], _ => true
  | x :: p', y :: s' => char_eqb x y && startswith p' s'
  | _ :: _, [] => false
  end.

Definition endswith (p s : str) : bool := startswith (rev p) (rev s).

Fixpoint contains (needle hay : str) : bool :=
  startswith needle hay ||
  match hay with
  | [] => false
  | _ :: hay' => contains needle hay'
  end.

End PyStr.
Export PyStr.

(** ** The regular expression [HEX32]

    [HEX32 = re.compile(r"[0-9a-f]{32}$", re.I)].  With [re.I] the class
    [[0-9a-f]] accepts the digits and the letters a to f in either case.
    [$] holds at the end of the string and just before a newline that ends
    the string. *)

Module HEX32.

Definition is_hex (c : char) : bool :=
  ((48 <=? c) && (c <=? 57)) || ((97 <=? c) && (c <=? 102)) ||
  ((65 <=? c) && (c <=? 70)).

(** [HEX32.fullmatch(s)]: the match has to be the whole string, and the
    class takes exactly 32 characters. *)
Definition fullmatch (s : str) : bool :=
  (length s =? 32)%nat && forallb is_hex s.

(** [HEX32.match(s)] at the start of [s]: 32 hexadecimal characters, then
    the end of the string or a newline that ends it. *)
Definition match_here (s : str) : bool :=
  forallb is_hex (take 32 s) && (length (take 32 s) =? 32)%nat &&
  match drop 32 s with
  | [] => true
  | [c] => c =? 10
  | _ => false
  end.

(** [HEX32.search(s)]: a match starting at some position of [s]. *)
Fixpoint search (s : str) : bool :=
  match_here s ||
  match s with
  | [] => false
  | _ :: s' => search s'
  end.

End HEX32.

(** ** Name Normalizer *)

Definition strip_hash (name : str) : str :=
  let parts := split name in
  match last_item parts with
  | Some tok =>
      if HEX32.fullmatch tok
      then rstrip (lit " |_") (join (lit " ") (but_last parts))
      else name
  | None => name
  end.

Definition remove_brackets (s : str) : str :=
  strip (remove_char 93 (remove_char 91 s)).

(** ** The file system

    An absolute path is the list of its components below the root, and the
    file system maps the paths that exist to a regular file or a directory.
    There are no symbolic links, so [Path.resolve] leaves an absolute path
    as it is and two paths name the same location when they are equal. *)

Module FS.

Inductive entry :=
  | File (text : list N)
  | Dir.

Abbreviation path := (list (list N)) (only parsing).
Abbreviation fs := (gmap (list (list N)) entry) (only parsing).

(** The exceptions of the modelled calls. [NotEmptyError] is the [OSError]
    of removing or replacing a directory that has entries, [ShutilError] is
    [shutil.Error], [InvalidArgument] the [OSError] of moving a directory
    into itself. *)
Inductive exn :=
  | FileNotFoundError
  | NotADirectoryError
  | IsADirectoryError
  | FileExistsError
  | NotEmptyError
  | InvalidArgument
  | ShutilError
  | RecursionError
  | UnicodeEncodeError.

Inductive outcome (A : Type) :=
  | Ok (a : A)
  | Raise (e : exn).
Arguments Ok {A} a.
Arguments Raise {A} e.

(** A call that reads and changes the file system and returns or raises. *)
Definition M (A : Type) : Type := gmap (list (list N)) entry -> outcome A * gmap (list (list N)) entry.

Definition ret {A} (a : A) : M A := fun m => (Ok a, m).
Definition raise {A} (e : exn) : M A := fun m => (Raise e, m).
Definition bind {A B} (c : M A) (k : A -> M B) : M B :=
  fun m =>
    match c m with
    | (Ok a, m') => k a m'
    | (Raise e, m') => (Raise e, m')
    end.

(** [for x in l: body(x)]. *)
Fixpoint for_each {A} (l : list A) (body : A -> M unit) : M unit :=
  match l with
  | [] => ret tt
  | x :: l' => bind (body x) (fun _ => for_each l' body)
  end.

(** The root always exists and is a directory. *)
Definition stat (p : path) (m : fs) : option entry :=
  match p with
  | [] => Some Dir
  | _ :: _ => m !! p
  end.

Definition exists_ (p : path) (m : fs) : bool :=
  match stat p m with Some _ => true | None => false end.

Definition is_dir (p : path) (m : fs) : bool :=
  match stat p m with Some Dir => true | _ => false end.

(** [p.parent] and [p.name]. *)
Definition parent (p : path) : path := but_last p.
Definition name (p : path) : list N :=
  match last_item p with Some n => n | None => [] end.

Fixpoint is_prefix (a b : path) : bool :=
  match a, b with
  | [], _ => true
  | x :: a', y :: b' => bool_decide (x = y) && is_prefix a' b'
  | _ :: _, [] => false
  end.

(** [os.listdir(p)]: the names of the entries directly in [p]. *)
Definition child_name (p k : path) : option (list N) :=
  match last_item k with
  | Some n => if decide (but_last k = p) then Some n else None
  | None => None
  end.

Definition listdir (p : path) (m : fs) : list (list N) :=
  omap (child_name p) (map_to_list m).*1.

(** [p.iterdir()], read in full when the loop starts. *)
Definition iterdir (p : path) : M (list (list (list N))) :=
  fun m =>
    match stat p m with
    | Some Dir => (Ok (map (fun n => p ++ [n]) (listdir p m)), m)
    | Some (File _) => (Raise NotADirectoryError, m)
    | None => (Raise FileNotFoundError, m)
    end.

(** What opening a new entry at [p] raises when its parent is no directory. *)
Definition parent_error (p : path) (m : fs) : option exn :=
  match p with
  | [] => Some IsADirectoryError
  | _ :: _ =>
      match stat (parent p) m with
      | Some Dir => None
      | Some (File _) => Some NotADirectoryError
      | None => Some FileNotFoundError
      end
  end.

(** [p.read_text(encoding="utf-8")]. *)
Definition read_text (p : path) : M (list N) :=
  fun m =>
    match stat p m with
    | Some (File text) => (Ok text, m)
    | Some Dir => (Raise IsADirectoryError, m)
    | None => (Raise FileNotFoundError, m)
    end.

(** [p.write_text(text, encoding="utf-8")]. *)
Definition write_text (p : path) (text : list N) : M unit :=
  fun m =>
    match stat p m with
    | Some Dir => (Raise IsADirectoryError, m)
    | Some (File _) => (Ok tt, <[p := File text]> m)
    | None =>
        match parent_error p m with
        | Some e => (Raise e, m)
        | None => (Ok tt, <[p := File text]> m)
        end
    end.

(** [p.mkdir(exist_ok=True)]. *)
Definition mkdir_exist_ok (p : path) : M unit :=
  fun m =>
    match stat p m with
    | Some Dir => (Ok tt, m)
    | Some (File _) => (Raise FileExistsError, m)
    | None =>
        match parent_error p m with
        | Some e => (Raise e, m)
        | None => (Ok tt, <[p := Dir]> m)
        end
    end.

(** [p.rmdir()]. *)
Definition rmdir (p : path) : M unit :=
  fun m =>
    match p, stat p m with
    | [], _ => (Raise NotEmptyError, m)
    | _, None => (Raise FileNotFoundError, m)
    | _, Some (File _) => (Raise NotADirectoryError, m)
    | _, Some Dir =>
        match listdir p m with
        | [] => (Ok tt, delete p m)
        | _ :: _ => (Raise NotEmptyError, m)
        end
    end.

(** The entries at and below [src] taken to [dst]. *)
Definition retarget (src dst k : path) : path :=
  if is_prefix src k then dst ++ drop (length src) k else k.

Definition rekey (src dst : path) (m : fs) : fs :=
  list_to_map (prod_map (retarget src dst) id <$> map_to_list m).

(** [os.rename(src, dst)]. *)
Definition rename (src dst : path) : M unit :=
  fun m =>
    match stat src m with
    | None => (Raise FileNotFoundError, m)
    | Some (File text) =>
        if decide (src = dst) then (Ok tt, m)
        else match stat dst m with
             | Some Dir => (Raise IsADirectoryError, m)
             | _ =>
                 match parent_error dst m with
                 | Some e => (Raise e, m)
                 | None => (Ok tt, <[dst := File text]> (delete src m))
                 end
             end
    | Some Dir =>
        if decide (src = dst) then (Ok tt, m)
        else if is_prefix src dst then (Raise InvalidArgument, m)
        else match stat dst m with
             | Some (File _) => (Raise NotADirectoryError, m)
             | Some Dir =>
                 match listdir dst m with
                 | [] => (Ok tt, rekey src dst m)
                 | _ :: _ => (Raise NotEmptyError, m)
                 end
             | None =>
                 match parent_error dst m with
                 | Some e => (Raise e, m)
                 | None => (Ok tt, rekey src dst m)
                 end
             end
    end.

(** [os.makedirs(p)] as [shutil.copytree] calls it: the missing directories
    on the way to [p] and [p] itself, which must not exist. *)
Fixpoint make_parents (done todo : path) : M unit :=
  match todo with
  | [] => ret tt
  | n :: todo' =>
      bind (mkdir_exist_ok (done ++ [n])) (fun _ => make_parents (done ++ [n]) todo')
  end.

Definition makedirs (p : path) : M unit :=
  fun m =>
    match stat p m with
    | Some _ => (Raise FileExistsError, m)
    | None => make_parents [] p m
    end.

(** [shutil.move(src, dst)].  A destination that is a directory receives
    the source under the source's name.  When [os.rename] fails, a
    directory is copied with [shutil.copytree], which makes the missing
    parents of the destination, and a file with [shutil.copy2]. *)
Definition move (src dst : path) : M unit :=
  fun m =>
    let into := is_dir dst m && negb (bool_decide (src = dst)) in
    let real_dst := if into then dst ++ [name src] else dst in
    if into && exists_ real_dst m then (Raise ShutilError, m)
    else
      match rename src real_dst m with
      | (Ok _, m') => (Ok tt, m')
      | (Raise e, _) =>
          if is_dir src m then
            if is_prefix src dst then (Raise ShutilError, m)
            else match makedirs real_dst m with
                 | (Ok _, m') => (Ok tt, rekey src real_dst (delete real_dst m'))
                 | (Raise e', m') => (Raise e', m')
                 end
          else (Raise e, m)
      end.

End FS.

#[global] Instance M_bind : MBind FS.M := fun A B k c => FS.bind c k.
#[global] Instance M_ret : MRet FS.M := fun A a => FS.ret a.

(** ** Folder Renamer *)

(** [limit] is the number of nested calls the interpreter allows. *)
Fixpoint rename_folder (limit : nat) (src dst : list (list N)) : FS.M unit :=
  match limit with
  | O => FS.raise FS.RecursionError
  | S limit' =>
      if decide (src = dst) then FS.ret tt
      else fun m =>
        if FS.exists_ dst m then
          (ps ← FS.iterdir src;
           FS.for_each ps (fun p =>
             let t := dst ++ [FS.name p] in
             fun m1 =>
               if FS.is_dir p m1 then
                 (FS.mkdir_exist_ok t;; rename_folder limit' p t) m1
               else if FS.exists_ t m1 then FS.ret tt m1
               else FS.move p t m1);;
           FS.rmdir src) m
        else FS.move src dst m
  end.

(** ** Path names: [PurePath.suffix] and [PurePath.stem] *)

Module PurePath.

(** [s.rfind(c)] counted from position [i] of the whole string. *)
Fixpoint rfind_from (i : nat) (c : char) (s : str) : option nat :=
  match s with
  | [] => None
  | x :: s' =>
      match rfind_from (S i) c s' with
      | Some j => Some j
      | None => if char_eqb x c then Some i else None
      end
  end.

(** The last dot counts when it is neither the first nor the last
    character of the name. *)
Definition suffix_start (name : str) : option nat :=
  match rfind_from 0 46 name with
  | Some i => if (0 <? i)%nat && (i <? length name - 1)%nat then Some i else None
  | None => None
  end.

Definition suffix (name : str) : str :=
  match suffix_start name with
  | Some i => drop i name
  | None => []
  end.

Definition stem (name : str) : str :=
  match suffix_start name with
  | Some i => take i name
  | None => name
  end.

(** The order of [str] values, code point by code point, and the order of
    paths, component by component. *)
Fixpoint str_compare (a b : str) : comparison :=
  match a, b with
  | [], [] => Eq
  | [], _ :: _ => Lt
  | _ :: _, [] => Gt
  | x :: a', y :: b' =>
      match N.compare x y with
      | Eq => str_compare a' b'
      | c => c
      end
  end.

Fixpoint compare (a b : list (list N)) : comparison :=
  match a, b with
  | [], [] => Eq
  | [], _ :: _ => Lt
  | _ :: _, [] => Gt
  | x :: a', y :: b' =>
      match str_compare x y with
      | Eq => compare a' b'
      | c => c
      end
  end.

Definition leb (a b : list (list N)) : bool :=
  match compare a b with Gt => false | _ => true end.

End PurePath.

(** [sorted(paths)].  The paths of one listing are distinct, so the order
    of equal elements plays no part. *)
Fixpoint insert_path (x : list (list N)) (l : list (list (list N))) : list (list (list N)) :=
  match l with
  | [] => [x]
  | y :: l' => if PurePath.leb x y then x :: l else y :: insert_path x l'
  end.

Definition sorted (l : list (list (list N))) : list (list (list N)) :=
  foldr insert_path [] l.

(** [enumerate(l, start=i)]. *)
Fixpoint enumerate {A} (i : nat) (l : list A) : list (nat * A) :=
  match l with
  | [] => []
  | x :: l' => (i, x) :: enumerate (S i) l'
  end.

(** ** Folder Matcher *)

(** [parent.glob("*.md")]: the entries of [parent] whose name ends in
    [.md], in the order of the listing. *)
Definition glob_md (parent : list (list N)) (m : gmap (list (list N)) FS.entry)
  : list (list (list N)) :=
  map (fun n => parent ++ [n]) (List.filter (endswith (lit ".md")) (FS.listdir parent m)).

Definition norm (x : str) : str := remove_brackets (strip_hash x).

Definition stem_of (p : list (list N)) : str := PurePath.stem (FS.name p).

Definition find_md_for_folder (parent : list (list N)) (folder_name : str)
    (m : gmap (list (list N)) FS.entry) : option (list (list N)) :=
  let cands := glob_md parent m in
  match cands with
  | [] => None
  | _ :: _ =>
      let target := norm folder_name in
      match List.find (fun p => str_eqb (norm (stem_of p)) target) cands with
      | Some p => Some p
      | None =>
          match List.find (fun p => contains folder_name (stem_of p)
                                    || HEX32.search (stem_of p)) cands with
          | Some p => Some p
          | None =>
              if (length cands =? 1)%nat then head cands else None
          end
      end
  end.

(** ** Orchestrator: the folders [main] selects *)

(** [[p for p in sorted(root.iterdir()) if p.is_dir() and HEX32.search(p.name or "")]] *)
Definition candidates (root : list (list N)) : FS.M (list (list (list N))) :=
  ps ← FS.iterdir root;
  ((fun m =>
      (FS.Ok (List.filter (fun p => FS.is_dir p m && HEX32.search (FS.name p)) (sorted ps)), m))
   : FS.M _).

(** ** [urllib.parse]: [quote] and [unquote] *)

Module Url.

(** [str.encode("utf-8")]: the bytes of one code point; no encoding for a
    surrogate ([UnicodeEncodeError]) or for a number that is no code point. *)
Definition utf8_encode_char (c : N) : option (list N) :=
  if c <? 128 then Some [c]
  else if c <? 2048 then Some [192 + c / 64; 128 + c mod 64]
  else if c <? 65536 then
    if (55296 <=? c) && (c <=? 57343) then None
    else Some [224 + c / 4096; 128 + (c / 64) mod 64; 128 + c mod 64]
  else if c <? 1114112 then
    Some [240 + c / 262144; 128 + (c / 4096) mod 64; 128 + (c / 64) mod 64; 128 + c mod 64]
  else None.

Fixpoint utf8_encode (s : str) : option (list N) :=
  match s with
  | [] => Some []
  | c :: s' =>
      match utf8_encode_char c, utf8_encode s' with
      | Some bs, Some bs' => Some (bs ++ bs')
      | _, _ => None
      end
  end.

Definition is_cont (b : N) : bool := (128 <=? b) && (b <=? 191).

(** The second byte a three-byte and a four-byte lead accept: a
    continuation byte that makes neither an overlong form, nor a surrogate,
    nor a code point above U+10FFFF. *)
Definition second_of_3 (b0 b1 : N) : bool :=
  is_cont b1 && negb ((b0 =? 224) && (b1 <? 160)) && negb ((b0 =? 237) && (160 <=? b1)).
Definition second_of_4 (b0 b1 : N) : bool :=
  is_cont b1 && negb ((b0 =? 240) && (b1 <? 144)) && negb ((b0 =? 244) && (144 <=? b1)).

Definition replacement : N := 65533.

(** [bytes.decode("utf-8", "replace")]: every maximal ill-formed run of
    bytes becomes one U+FFFD. *)
Fixpoint utf8_decode (bs : list N) : str :=
  match bs with
  | [] => []
  | b0 :: r0 =>
      if b0 <? 128 then b0 :: utf8_decode r0
      else if (b0 <? 194) || (245 <=? b0) then replacement :: utf8_decode r0
      else if b0 <? 224 then
        match r0 with
        | [] => [replacement]
        | b1 :: r1 =>
            if is_cont b1 then ((b0 - 192) * 64 + (b1 - 128)) :: utf8_decode r1
            else replacement :: utf8_decode r0
        end
      else if b0 <? 240 then
        match r0 with
        | [] => [replacement]
        | b1 :: r1 =>
            if second_of_3 b0 b1 then
              match r1 with
              | [] => [replacement]
              | b2 :: r2 =>
                  if is_cont b2
                  then ((b0 - 224) * 4096 + (b1 - 128) * 64 + (b2 - 128)) :: utf8_decode r2
                  else replacement :: utf8_decode r1
              end
            else replacement :: utf8_decode r0
        end
      else
        match r0 with
        | [] => [replacement]
        | b1 :: r1 =>
            if second_of_4 b0 b1 then
              match r1 with
              | [] => [replacement]
              | b2 :: r2 =>
                  if is_cont b2 then
                    match r2 with
                    | [] => [replacement]
                    | b3 :: r3 =>
                        if is_cont b3
                        then ((b0 - 240) * 262144 + (b1 - 128) * 4096
                              + (b2 - 128) * 64 + (b3 - 128)) :: utf8_decode r3
                        else replacement :: utf8_decode r2
                    end
                  else replacement :: utf8_decode r1
              end
            else replacement :: utf8_decode r0
        end
  end.

(** The value of a hexadecimal digit, in either case. *)
Definition hex_val (c : N) : option N :=
  if (48 <=? c) && (c <=? 57) then Some (c - 48)
  else if (97 <=? c) && (c <=? 102) then Some (c - 87)
  else if (65 <=? c) && (c <=? 70) then Some (c - 55)
  else None.

(** [unquote_to_bytes]: a percent sign followed by two hexadecimal digits
    is the byte they spell, every other character is itself. *)
Fixpoint unquote_to_bytes (s : str) : list N :=
  match s with
  | [] => []
  | c :: s' =>
      if c =? 37 then
        match s' with
        | h :: l :: s'' =>
            match hex_val h, hex_val l with
            | Some a, Some b => (16 * a + b) :: unquote_to_bytes s''
            | _, _ => c :: unquote_to_bytes s'
            end
        | _ => c :: unquote_to_bytes s'
        end
      else c :: unquote_to_bytes s'
  end.

(** [unquote(s)]: each maximal run of ASCII characters is unquoted to bytes
    and decoded; the other characters stay.  [run] is the ASCII run being
    read, last character first. *)
Definition decode_run (run : str) : str := utf8_decode (unquote_to_bytes (rev run)).

Fixpoint unquote_from (run : str) (s : str) : str :=
  match s with
  | [] => decode_run run
  | c :: s' =>
      if c <? 128 then unquote_from (c :: run) s'
      else decode_run run ++ c :: unquote_from [] s'
  end.

Definition unquote (s : str) : str := unquote_from [] s.

(** The characters [quote] never escapes: ASCII letters, digits and [_.-~]. *)
Definition always_safe (b : N) : bool :=
  ((65 <=? b) && (b <=? 90)) || ((97 <=? b) && (b <=? 122)) ||
  ((48 <=? b) && (b <=? 57)) || mem_char b (lit "_.-~").

Definition hex_digit (n : N) : N := if n <? 10 then 48 + n else 55 + n.

Definition quote_byte (safe : str) (b : N) : str :=
  if always_safe b || ((b <? 128) && mem_char b safe) then [b]
  else [37; hex_digit (b / 16); hex_digit (b mod 16)].

(** [quote(s, safe=safe)]; [None] stands for [UnicodeEncodeError]. *)
Definition quote (safe : str) (s : str) : option str :=
  bs ← utf8_encode s; Some (concat (map (quote_byte safe) bs)).

End Url.

(** ** Path strings: [PurePosixPath(s).parts] and [os.path.relpath] *)

Module PosixPath.

(** [s.split(sep)] for a one-character separator. [cur] is the piece being
    read, last character first. *)
Fixpoint split_on (sep : char) (cur : str) (s : str) : list str :=
  match s with
  | [] => [rev cur]
  | c :: s' =>
      if char_eqb c sep then rev cur :: split_on sep [] s'
      else split_on sep (c :: cur) s'
  end.

(** The root of a path string: two slashes when it starts with exactly
    two, one slash when it starts with one or with three or more. *)
Definition root_of (s : str) : list str :=
  match s with
  | 47 :: 47 :: 47 :: _ => [[47]]
  | 47 :: 47 :: _ => [[47; 47]]
  | 47 :: _ => [[47]]
  | _ => []
  end.

Definition is_component (x : str) : bool :=
  negb (str_eqb x []) && negb (str_eqb x (lit ".")).

(** The components of a path string: empty pieces and single dots drop out. *)
Definition components (s : str) : list str :=
  List.filter is_component (split_on 47 [] s).

Definition parts (s : str) : list str := root_of s ++ components s.

(** [os.path.relpath(path, start)] for two absolute paths, as a string. *)
Fixpoint relpath_list (path start : list (list N)) : list str :=
  match path, start with
  | x :: path', y :: start' =>
      if decide (x = y) then relpath_list path' start'
      else repeat (lit "..") (length start) ++ path
  | _, _ => repeat (lit "..") (length start) ++ path
  end.

Definition relpath (path start : list (list N)) : str :=
  match relpath_list path start with
  | [] => lit "."
  | l => join (lit "/") l
  end.

(** [(base / s).resolve()]: a string with a root replaces the base, and
    every [..] removes the component before it (none at the root). *)
Fixpoint resolve_onto (acc : list (list N)) (comps : list str) : list (list N) :=
  match comps with
  | [] => acc
  | c :: comps' =>
      if str_eqb c (lit "..") then resolve_onto (but_last acc) comps'
      else resolve_onto (acc ++ [c]) comps'
  end.

Definition resolve_join (base : list (list N)) (s : str) : list (list N) :=
  resolve_onto (match root_of s with [] => base | _ :: _ => [] end) (components s).

(** [p.with_suffix(sfx)] for a path with a name. *)
Definition with_suffix (p : list (list N)) (sfx : str) : list (list N) :=
  let name := FS.name p in
  FS.parent p ++
  [ match PurePath.suffix_start name with
    | Some i => take i name ++ sfx
    | None => name ++ sfx
    end ].

End PosixPath.

(** ** Regular expressions of the Link Rewriter and [str.replace] *)

Module Re.

(** The characters before the first [stop] and the text after it. *)
Fixpoint span_until (stop : char) (s : str) : option (str * str) :=
  match s with
  | [] => None
  | c :: s' =>
      if char_eqb c stop then Some ([], s')
      else match span_until stop s' with
           | Some (a, r) => Some (c :: a, r)
           | None => None
           end
  end.

(** [\[[^\]]*\]\(([^)]+)\)] at the start of [s]: the matched text and the
    captured path.  Neither class can take its own terminator, so the text
    in brackets ends at the first [\]] and the path at the first [)]. *)
Definition match_link (s : str) : option (str * str) :=
  match s with
  | 91 :: s1 =>
      match span_until 93 s1 with
      | Some (alt, 40 :: s2) =>
          match span_until 41 s2 with
          | Some (c :: path, _) =>
              Some (91 :: alt ++ 93 :: 40 :: (c :: path) ++ [41], c :: path)
          | _ => None
          end
      | _ => None
      end
  | _ => None
  end.

(** [!\[[^\]]*\]\(([^)]+)\)], the image links. [prev] is the character
    before the position, when there is one. *)
Definition image (prev : option char) (s : str) : option (str * str) :=
  match s with
  | 33 :: s' =>
      match match_link s' with
      | Some (g0, g1) => Some (33 :: g0, g1)
      | None => None
      end
  | _ => None
  end.

(** [(?<!\!)\[[^\]]*\]\(([^)]+)\)], the links not preceded by [!]. *)
Definition generic (prev : option char) (s : str) : option (str * str) :=
  match prev with
  | Some 33 => None
  | _ => match_link s
  end.

(** What a scan of the text meets: a character outside every match, or a
    match with its text and its captured group. *)
Inductive piece :=
  | Lit (c : N)
  | Hit (g0 g1 : list N).

(** The scan of [pat.sub] and [re.finditer]: the leftmost match, then the
    next one after its end.  [skip] counts the characters of the current
    match still to pass. *)
Fixpoint scan (pat : option char -> str -> option (str * str))
    (prev : option char) (skip : nat) (s : str) : list piece :=
  match s with
  | [] => []
  | c :: s' =>
      match skip with
      | S k => scan pat (Some c) k s'
      | O =>
          match pat prev s with
          | Some (g0, g1) => Hit g0 g1 :: scan pat (Some c) (length g0 - 1) s'
          | None => Lit c :: scan pat (Some c) 0 s'
          end
      end
  end.

(** The text with every match replaced by what [repl] returns for it;
    [None] when [repl] raises. *)
Fixpoint render (repl : str -> str -> option str) (ps : list piece) : option str :=
  match ps with
  | [] => Some []
  | Lit c :: ps' => t ← render repl ps'; Some (c :: t)
  | Hit g0 g1 :: ps' => r ← repl g0 g1; t ← render repl ps'; Some (r ++ t)
  end.

Definition sub (pat : option char -> str -> option (str * str))
    (repl : str -> str -> option str) (s : str) : option str :=
  render repl (scan pat None 0 s).

(** The captured groups of [re.finditer(pat, s)], in order. *)
Definition captures (pat : option char -> str -> option (str * str)) (s : str) : list str :=
  omap (fun p => match p with Hit _ g1 => Some g1 | Lit _ => None end) (scan pat None 0 s).

(** [s.replace(old, new)]. *)
Fixpoint replace_from (old new : str) (skip : nat) (s : str) : str :=
  match s with
  | [] => []
  | c :: s' =>
      match skip with
      | S k => replace_from old new k s'
      | O =>
          if startswith old s then new ++ replace_from old new (length old - 1) s'
          else c :: replace_from old new 0 s'
      end
  end.

Definition replace (old new s : str) : str :=
  match old with
  | [] => new ++ flat_map (fun c => c :: new) s
  | _ :: _ => replace_from old new 0 s
  end.

End Re.

(** ** Link Rewriter *)

(** The lines the script prints. *)
Inductive line :=
  | MissingHeader (name : list N) (count : nat)
  | MissingItem (link : list N)
  | MissingMore
  | SkippedFolder (old_dir : list N)
  | Summary (count : nat).

Definition rewrite_path (old_dirnames : list str) (rel_to_imgs : str) (orig_path : str)
  : option str :=
  let dec := Url.unquote orig_path in
  if negb (existsb (fun od => contains od orig_path || contains od dec) old_dirnames)
  then Some orig_path
  else
    match PosixPath.parts dec with
    | [] => Some orig_path
    | _ :: rest =>
        let new_parts := rel_to_imgs :: rest in
        let new_path := join (lit "/") new_parts in
        Url.quote (lit "/:._-()") new_path
    end.

(** [repl(m)] with [g0 = m.group(0)] and [path = m.group(1)]. *)
Definition repl (old_dirnames : list str) (rel_to_imgs : str) (g0 path : str) : option str :=
  new ← rewrite_path old_dirnames rel_to_imgs path; Some (Re.replace path new g0).

(** The text after both substitutions. *)
Definition rewrite_text (old_dirnames : list str) (rel_to_imgs : str) (text : str)
  : option str :=
  text1 ← Re.sub Re.image (repl old_dirnames rel_to_imgs) text;
  Re.sub Re.generic (repl old_dirnames rel_to_imgs) text1.

(** The image links of [text] that lead to no existing entry. *)
Definition missing_links (md_dir : list (list N)) (text : str)
    (m : gmap (list (list N)) FS.entry) : list str :=
  List.filter (fun link => negb (FS.exists_ (PosixPath.resolve_join md_dir link) m))
    (map Url.unquote (Re.captures Re.image text)).

Definition report_missing (md_name : str) (missing : list str) : list line :=
  match missing with
  | [] => []
  | _ :: _ =>
      MissingHeader md_name (length missing)
      :: map MissingItem (take 10 missing)
      ++ (if (10 <? length missing)%nat then [MissingMore] else [])
  end.

Definition replace_links (md_path : list (list N)) (old_dirnames : list str)
    (new_img_dir_abs : list (list N)) : FS.M (list line) :=
  text ← FS.read_text md_path;
  let md_dir := FS.parent md_path in
  let rel_to_imgs := PosixPath.relpath new_img_dir_abs md_dir in
  match rewrite_text old_dirnames rel_to_imgs text with
  | None => FS.raise FS.UnicodeEncodeError
  | Some text' =>
      let bak := PosixPath.with_suffix md_path
                   (PurePath.suffix (FS.name md_path) ++ lit ".bak") in
      current ← FS.read_text md_path;
      FS.write_text bak current;;
      FS.write_text md_path text';;
      ((fun m => (FS.Ok (report_missing (FS.name md_path) (missing_links md_dir text' m)), m))
       : FS.M _)
  end.

(** ** Orchestrator *)

(** [str(n)] for a natural number. *)
Definition str_of_nat (n : nat) : str :=
  lit (DecimalString.NilEmpty.string_of_uint (Nat.to_uint n)).

(** [s.zfill(2)]. *)
Definition zfill2 (s : str) : str :=
  match s with
  | [] => [48; 48]
  | [c] => if (c =? 43) || (c =? 45) then [c; 48] else [48; c]
  | _ => s
  end.

Section Orchestrator.

(** [is_decimal] is the class [\d] of the [re] module, the decimal digits of
    Unicode, a table of the interpreter.  [limit] is the recursion limit. *)
Variable is_decimal : N -> bool.
Variable limit : nat.

(** [\s*강] at the start of [s]. *)
Fixpoint marker_after_spaces (s : str) : bool :=
  match s with
  | [] => false
  | c :: s' => if c =? 44053 then true else if is_space c then marker_after_spaces s' else false
  end.

(** [(\d+)\s*강] at the start of [s]: the captured digits, the longest run
    first. *)
Fixpoint digits_then_marker (s : str) : option str :=
  match s with
  | [] => None
  | d :: s' =>
      if is_decimal d then
        match digits_then_marker s' with
        | Some ds => Some (d :: ds)
        | None => if marker_after_spaces s' then Some [d] else None
        end
      else None
  end.

(** [LECTURE_NUM.search(title)], with [re.I]: group 1 of the leftmost match
    of [0x(\d+)\s*강]. *)
Fixpoint LECTURE_NUM_search (s : str) : option str :=
  match s with
  | [] => None
  | c :: s' =>
      let here :=
        match s with
        | 48 :: x :: s1 => if (x =? 120) || (x =? 88) then digits_then_marker s1 else None
        | _ => None
        end in
      match here with
      | Some ds => Some ds
      | None => LECTURE_NUM_search s'
      end
  end.

Definition extract_number (title : str) (fallback_idx : nat) : str :=
  match LECTURE_NUM_search title with
  | Some digits => zfill2 digits
  | None => zfill2 (str_of_nat fallback_idx)
  end.

(** The old names handed to [replace_links]; their order and repetitions
    play no part in the test [any(...)] that reads them. *)
Definition old_variants (old_dir base_dir pretty_title : str) : list str :=
  [old_dir; base_dir; pretty_title;
   Url.unquote old_dir; Url.unquote base_dir; Url.unquote pretty_title].

Definition process_one (parent folder : list (list N)) (order_idx : nat)
  : FS.M (bool * list line) :=
  let old_dir := FS.name folder in
  let base_dir := strip_hash old_dir in
  let pretty_title := remove_brackets base_dir in
  let num := extract_number pretty_title order_idx in
  let new_img_dir_name := lit "lecture " ++ num in
  let new_img_dir_abs := parent ++ [new_img_dir_name] in
  fun m =>
    match find_md_for_folder parent old_dir m with
    | None => (FS.Ok (false, [SkippedFolder old_dir]), m)
    | Some md =>
        (rename_folder limit folder new_img_dir_abs;;
         out ← replace_links md (old_variants old_dir base_dir pretty_title) new_img_dir_abs;
         let clean_md_name :=
           remove_brackets (strip_hash (stem_of md)) ++ PurePath.suffix (FS.name md) in
         let desired := parent ++ [clean_md_name] in
         (if decide (md = desired) then FS.ret tt
          else
            ((fun m1 =>
                if FS.exists_ desired m1 then
                  (text ← FS.read_text desired;
                   FS.write_text (PosixPath.with_suffix desired (lit ".md.bak")) text) m1
                else FS.ret tt m1) : FS.M unit);;
            FS.move md desired);;
         FS.ret (true, out)) m
    end.

(** The loop of [main]: the count of the folders done and the lines
    printed. *)
Fixpoint process_all (root : list (list N)) (l : list (nat * list (list N)))
  : FS.M (nat * list line) :=
  match l with
  | [] => FS.ret (0%nat, [])
  | (idx, folder) :: l' =>
      '(ok, out) ← process_one root folder idx;
      '(count, outs) ← process_all root l';
      FS.ret (((if ok : bool then 1 else 0) + count)%nat, out ++ outs)
  end.

(** [main()] with [root] for the working directory; [Summary] stands for
    the count line and the three lines of guidance after it. *)
Definition main (root : list (list N)) : FS.M (list line) :=
  folders ← candidates root;
  '(count, outs) ← process_all root (enumerate 1 folders);
  FS.ret (outs ++ [Summary count]).

End Orchestrator.

(* ================================================================== *)
(** * Specification vocabulary and sample data *)

(** ** Names and tokens *)

(** A hash of 32 hexadecimal digits. *)
Definition h32 : str := lit "0123456789abcdef0123456789ABCDEF".

(** A string is trimmed on the left when it is empty or starts with a
    character that is kept. *)
Definition ltrimmed (p : char -> bool) (s : str) : Prop :=
  match s with [] => True | c :: _ => p c = false end.

(** A token of [split]: not empty and free of whitespace. *)
Definition nonspace (c : char) : Prop := is_space c = false.

Definition token (t : str) : Prop := t ≠ [] /\ Forall nonspace t.

Definition blank (s : str) : Prop := Forall (fun c => is_space c = true) s.

(** [ends_blank s]: [s] is empty or its last character is whitespace. *)
Definition ends_blank (s : str) : Prop :=
  s = [] \/ exists s' sp, s = s' ++ [sp] /\ is_space sp = true.

(** The last token of a name is a hash when [HEX32] matches it in full. *)
Definition ends_in_hash (f : str) : bool :=
  match last_item (split f) with
  | Some tok => HEX32.fullmatch tok
  | None => false
  end.

(** ** Folder Matcher and selection of folders *)

(** A document matches a folder exactly when the normalised names agree,
    and loosely when its stem holds the folder name or ends in a hash. *)
Definition exact_match (folder_name : str) (p : list (list N)) : Prop :=
  norm (stem_of p) = norm folder_name.

Definition loose_match (folder_name : str) (p : list (list N)) : Prop :=
  contains folder_name (stem_of p) = true \/ HEX32.search (stem_of p) = true.

(** The matcher on a directory with the documents [x.md] and [y.md], for a
    folder that matches neither and for a folder without documents. *)
Definition two_docs : gmap (list (list N)) FS.entry :=
  <[ [lit "x.md"] := FS.File (lit "x") ]> (<[ [lit "y.md"] := FS.File (lit "y") ]> ∅).

(** The order of [sorted] on paths and on names. *)
Definition path_le (p q : list (list N)) : Prop := PurePath.leb p q = true.

Definition name_le (a b : list N) : Prop := PurePath.str_compare a b <> Gt.

(** A name is selected when it ends in 32 hexadecimal characters, or in 32
    hexadecimal characters and a final newline. *)
Definition ends_in_hex32 (s : str) : Prop :=
  exists pre h, HEX32.fullmatch h = true /\ (s = pre ++ h \/ s = pre ++ h ++ [10]).

(** ** Link Rewriter *)

(** A link path targets the old folder when one of the old names occurs
    in it, as written or URL-decoded. *)
Definition targets_old (old_dirnames : list str) (orig_path : str) : bool :=
  existsb (fun od => contains od orig_path || contains od (Url.unquote orig_path))
    old_dirnames.

(** The escapes [%XX] of a list of bytes, with upper-case digits. *)
Definition escapes (bs : list N) : str :=
  flat_map (fun b => [37; Url.hex_digit (b / 16); Url.hex_digit (b mod 16)]) bs.

(** How [quote(_, safe="/:._-()")] writes one character [c] as [e]. *)
Definition encodes (c : N) (e : str) : Prop :=
  (c ∈ lit "/:._-()" -> e = [c]) /\
  (c = 32 -> e = lit "%20") /\
  (128 <= c -> exists bs, Url.utf8_encode_char c = Some bs /\ e = escapes bs) /\
  (c < 128 -> e = [c] \/ e = escapes [c]).

(** The text a list of pieces stands for. *)
Definition flatten (ps : list Re.piece) : str :=
  flat_map (fun p => match p with Re.Lit c => [c] | Re.Hit g0 _ => g0 end) ps.

(** A pattern is sound when its match is a non-empty prefix of the text. *)
Definition sound (pat : option char -> str -> option (str * str)) : Prop :=
  forall prev s g0 g1, pat prev s = Some (g0, g1) ->
    g0 <> [] /\ exists rest, s = g0 ++ rest.

(** The backup of a document: its name with [.bak] added. *)
Definition bak_of (md_path : list (list N)) : list (list N) :=
  FS.parent md_path ++ [FS.name md_path ++ lit ".bak"].






(** ** Folder Renamer *)

(** [preserved src dst m m']: outside [src] every entry of [m] is still in
    [m'], and outside [src] and [dst] nothing has changed. *)
Definition preserved (src dst : list (list N)) (m m' : gmap (list (list N)) FS.entry) : Prop :=
  forall q, ~ src `prefix_of` q ->
    (forall e, m !! q = Some e -> m' !! q = Some e) /\
    (~ dst `prefix_of` q -> m' !! q = m !! q).

(** [grafted p t m1 m2]: in [m2] nothing is left at or below [p], below [t]
    there is what [m1] had below [p] and, where [p] had nothing, what [m1]
    had below [t]; everything else is as in [m1]. *)
Definition grafted (p t : list (list N)) (m1 m2 : gmap (list (list N)) FS.entry) : Prop :=
  (forall r, m2 !! (p ++ r) = None) /\
  (forall r, m2 !! (t ++ r) =
             match m1 !! (p ++ r) with Some e => Some e | None => m1 !! (t ++ r) end) /\
  (forall q, ~ p `prefix_of` q -> ~ t `prefix_of` q -> m2 !! q = m1 !! q).

(** Neither directory lies in the other. *)
Definition apart (src dst : list (list N)) : Prop :=
  ~ src `prefix_of` dst /\ ~ dst `prefix_of` src.

(** Below [src] every entry lies in a directory. *)
Definition tree_wf (src : list (list N)) (m : gmap (list (list N)) FS.entry) : Prop :=
  forall r n, is_Some (m !! (src ++ r ++ [n])) -> m !! (src ++ r) = Some FS.Dir.

(** The only relative paths present on both sides are directories. *)
Definition collision_free (src dst : list (list N)) (m : gmap (list (list N)) FS.entry) : Prop :=
  forall r e e', r <> [] -> m !! (src ++ r) = Some e -> m !! (dst ++ r) = Some e' ->
    e = FS.Dir /\ e' = FS.Dir.

(** The entries below [src] are fewer than [limit] levels down. *)
Definition depth_below (limit : nat) (src : list (list N))
    (m : gmap (list (list N)) FS.entry) : Prop :=
  forall r, is_Some (m !! (src ++ r)) -> (length r < limit)%nat.

(** One turn of the loop of [rename_folder], with [rec] for the nested call. *)
Definition merge_entry (rec : list (list N) -> list (list N) -> FS.M unit)
    (dst p : list (list N)) : FS.M unit :=
  let t := dst ++ [FS.name p] in
  fun m1 =>
    if FS.is_dir p m1 then (FS.mkdir_exist_ok t;; rec p t) m1
    else if FS.exists_ t m1 then FS.ret tt m1
    else FS.move p t m1.

(** The state of the merge loop of [rename_folder src dst], started in [m],
    once the names [done] are merged. *)
Definition merged_so_far (src dst : list (list N)) (m : gmap (list (list N)) FS.entry)
    (done : list (list N)) (m1 : gmap (list (list N)) FS.entry) : Prop :=
  (forall n r, n ∈ done -> m1 !! (src ++ n :: r) = None) /\
  (forall n r, n ∈ done ->
     m1 !! (dst ++ n :: r) =
     match m !! (src ++ n :: r) with Some e => Some e | None => m !! (dst ++ n :: r) end) /\
  (forall q, (forall n r, n ∈ done -> q <> src ++ n :: r /\ q <> dst ++ n :: r) ->
     m1 !! q = m !! q).

(** A source with a file and a sub-directory merged into a destination
    that has a file of its own and the same sub-directory. *)
Definition merge_fs : gmap (list (list N)) FS.entry :=
  <[ [lit "A"] := FS.Dir ]> (
  <[ [lit "A"; lit "f.png"] := FS.File (lit "f") ]> (
  <[ [lit "A"; lit "d"] := FS.Dir ]> (
  <[ [lit "A"; lit "d"; lit "g.png"] := FS.File (lit "g") ]> (
  <[ [lit "B"] := FS.Dir ]> (
  <[ [lit "B"; lit "h.png"] := FS.File (lit "h") ]> (
  <[ [lit "B"; lit "d"] := FS.Dir ]> ∅)))))).

(** A source and a destination that both hold a file [x.png]. *)
Definition collide_fs : gmap (list (list N)) FS.entry :=
  <[ [lit "A"] := FS.Dir ]> (
  <[ [lit "A"; lit "x.png"] := FS.File (lit "a") ]> (
  <[ [lit "B"] := FS.Dir ]> (
  <[ [lit "B"; lit "x.png"] := FS.File (lit "b") ]> ∅))).

(** A working directory with the folders ["a <hash>"] and ["<hash> notes"]
    and a file whose name ends in a hash. *)
Definition scan_fs : gmap (list (list N)) FS.entry :=
  <[ [lit "b " ++ h32] := FS.Dir ]> (
  <[ [lit "a " ++ h32] := FS.Dir ]> (
  <[ [h32 ++ lit " notes"] := FS.Dir ]> (
  <[ [lit "f " ++ h32] := FS.File [] ]> ∅))).

(** ** Well-formed text and image links *)

(** A code point that is no surrogate. *)
Definition is_scalar (c : N) : bool :=
  (c <? 55296) || ((57343 <? c) && (c <? 1114112)).

Definition scalar (c : N) : Prop := is_scalar c = true.

(** The characters [quote] leaves as they are in a rewritten path. *)
Definition safe_chars : str := lit "/:._-()".

(** [x] occurs in [s]. *)
Definition substring (x s : str) : Prop := exists a b, s = a ++ x ++ b.

(** The text of an image link. *)
Definition image_text (alt path : str) : str :=
  33 :: 91 :: alt ++ 93 :: 40 :: path ++ [41].

(** The number of positions of [s] at which [old] starts. *)
Fixpoint occurrences (old s : str) : nat :=
  ((if startswith old s then 1 else 0) +
   match s with [] => 0 | _ :: s' => occurrences old s' end)%nat.

(** What the first substitution makes of a piece: a link with the same
    text in brackets and a new path that [link] relates to the old one. *)
Inductive relinked (link : str -> str -> Prop) : Re.piece -> Re.piece -> Prop :=
  | relinked_lit c : relinked link (Re.Lit c) (Re.Lit c)
  | relinked_hit alt g1 g1' :
      93 ∉ alt -> 41 ∉ g1 -> g1 <> [] -> 41 ∉ g1' -> g1' <> [] -> link g1 g1' ->
      relinked link (Re.Hit (image_text alt g1) g1) (Re.Hit (image_text alt g1') g1').

(** The paths of the links among a list of pieces. *)
Definition paths_of (ps : list Re.piece) : list str :=
  omap (fun p => match p with Re.Hit _ g1 => Some g1 | Re.Lit _ => None end) ps.

(** What is asked of an image link [g0] with path [g1]: the path occurs
    once in the link, its first segment is an old name, and the new path
    holds no closing parenthesis. *)
Definition link_ok (olds : list str) (rel : str) (g0 g1 : str) : Prop :=
  occurrences g1 g0 = 1%nat /\
  exists old rest,
    old ∈ olds /\ PosixPath.parts (Url.unquote g1) = old :: rest /\
    mem_char 41 (join (lit "/") (rel :: rest)) = false.

(** The new path [p'] of a link with path [p]: URL-decoded, it is the
    relative folder path and the segments of [p] after the first. *)
Definition relocated (rel : str) (p p' : str) : Prop :=
  exists first rest,
    PosixPath.parts (Url.unquote p) = first :: rest /\
    Url.unquote p' = join (lit "/") (rel :: rest).

(** The hits of a list of pieces. *)
Definition hits_of (ps : list Re.piece) : list (str * str) :=
  omap (fun p => match p with Re.Hit g0 g1 => Some (g0, g1) | Re.Lit _ => None end) ps.






(** ** Vocabulary and sample data of the further properties *)

(** What is known of the class [\d]: it holds no whitespace, no sign and
    not the marker [강]. *)
Definition digit_class (is_decimal : N -> bool) : Prop :=
  forall c, is_decimal c = true ->
    is_space c = false /\ c <> 44053 /\ c <> 43 /\ c <> 45.

(** The ASCII digits, a part of the class [\d]. *)
Definition is_ascii_digit (c : N) : bool := (48 <=? c) && (c <=? 57).

(** A string is trimmed when neither its first nor its last character is
    whitespace. *)
Definition trimmed (s : str) : Prop :=
  ltrimmed is_space s /\ ltrimmed is_space (rev s).

(** A folder with an image, a nested folder and a document beside it. *)
Definition fresh_fs : gmap (list (list N)) FS.entry :=
  <[ [lit "A"] := FS.Dir ]> (
  <[ [lit "A"; lit "f.png"] := FS.File (lit "f") ]> (
  <[ [lit "A"; lit "d"] := FS.Dir ]> (
  <[ [lit "A"; lit "d"; lit "g.png"] := FS.File (lit "g") ]> (
  <[ [lit "A.md"] := FS.File (lit "text") ]> ∅)))).

(** A single segment of a path: not empty, not a dot, without a slash. *)
Definition segment (x : str) : Prop :=
  PosixPath.is_component x = true /\ 47 ∉ x.

(** The lines that report a skipped folder, counted. *)
Definition is_skip (l : line) : bool :=
  match l with SkippedFolder _ => true | _ => false end.

Definition skips (out : list line) : nat := length (List.filter is_skip out).

(** A folder of an export with one image, and its document beside it. *)
Definition export_text : str :=
  lit "![x](Intro%20" ++ h32 ++ lit "/img%201.png)".

Definition export_fs : gmap (list (list N)) FS.entry :=
  <[ [lit "Intro " ++ h32] := FS.Dir ]> (
  <[ [lit "Intro " ++ h32; lit "img 1.png"] := FS.File (lit "png") ]> (
  <[ [lit "Intro " ++ h32 ++ lit ".md"] := FS.File export_text ]> ∅)).


(** An export where the entry that ends in [.md] is a directory. *)
Definition folder_md_fs : gmap (list (list N)) FS.entry :=
  <[ [lit "Intro " ++ h32] := FS.Dir ]> (
  <[ [lit "Intro " ++ h32; lit "img 1.png"] := FS.File (lit "png") ]> (
  <[ [lit "Intro " ++ h32 ++ lit ".md"] := FS.Dir ]> ∅)).





(** A segment that names an entry: a segment other than [..]. *)
Definition plain (x : str) : Prop := segment x /\ x <> lit "..".

(* ================================================================== *)
(** * Verified properties *)

Example strip_hash_ex1 :
  strip_hash (lit "  Intro   [draft] _| " ++ h32 ++ lit " ") = lit "Intro [draft]".
Proof. vm_compute. reflexivity. Qed.

Example strip_hash_ex2 :
  strip_hash (lit "a " ++ h32 ++ lit " " ++ h32) = lit "a " ++ h32.
Proof. vm_compute. reflexivity. Qed.

Example remove_brackets_ex1 :
  remove_brackets (lit " [a] b]c[ ") = lit "a bc".
Proof. vm_compute. reflexivity. Qed.

(** Turns the boolean tests of a hypothesis into arithmetic facts. *)
Ltac bool_facts :=
  repeat match goal with
  | H : (_ && _) = true |- _ => apply andb_true_iff in H as [? ?]
  | H : (_ || _) = true |- _ => apply orb_true_iff in H as [?|?]
  | H : (_ <=? _) = true |- _ => apply N.leb_le in H
  | H : (_ <? _) = true |- _ => apply N.ltb_lt in H
  | H : (_ =? _) = true |- _ => apply N.eqb_eq in H
  | H : (_ <=? _) = false |- _ => apply N.leb_gt in H
  | H : (_ <? _) = false |- _ => apply N.ltb_ge in H
  | H : (_ =? _) = false |- _ => apply N.eqb_neq in H
  end.

(** Linear arithmetic with division and remainder by constants. *)
Ltac nlia := zify; Z.to_euclidean_division_equations; lia.

(** ** Lemmas on strings *)

Section StrLemmas.

Lemma char_eqb_eq a b : char_eqb a b = true <-> a = b.
Proof. unfold char_eqb. apply N.eqb_eq. Qed.

Lemma char_eqb_refl a : char_eqb a a = true.
Proof. by apply char_eqb_eq. Qed.

Lemma char_eqb_neq a b : char_eqb a b = false <-> a ≠ b.
Proof. unfold char_eqb. apply N.eqb_neq. Qed.

Lemma remove_char_absent c s : c ∉ remove_char c s.
Proof.
  induction s as [|x s IH]; simpl.
  - apply not_elem_of_nil.
  - destruct (char_eqb x c) eqn:E; [done|].
    apply char_eqb_neq in E. rewrite elem_of_cons. intros [->|H]; tauto.
Qed.

Lemma remove_char_subset c d s : d ∈ remove_char c s -> d ∈ s.
Proof.
  induction s as [|x s IH]; simpl; [done|].
  destruct (char_eqb x c); rewrite !elem_of_cons; tauto.
Qed.

Lemma remove_char_id c s : c ∉ s -> remove_char c s = s.
Proof.
  induction s as [|x s IH]; simpl; [done|].
  rewrite not_elem_of_cons. intros [Hx Hs].
  destruct (char_eqb x c) eqn:E.
  - apply char_eqb_eq in E. congruence.
  - by rewrite IH.
Qed.

Lemma elem_of_rev {A} (d : A) (s : list A) : d ∈ rev s <-> d ∈ s.
Proof. rewrite !list_elem_of_In. symmetry. apply in_rev. Qed.

Lemma lstrip_by_subset p d s : d ∈ lstrip_by p s -> d ∈ s.
Proof.
  induction s as [|x s IH]; simpl; [done|].
  destruct (p x); [|done]. rewrite elem_of_cons. auto.
Qed.

Lemma rstrip_by_subset p d s : d ∈ rstrip_by p s -> d ∈ s.
Proof.
  unfold rstrip_by. rewrite elem_of_rev. intros H%lstrip_by_subset.
  by rewrite elem_of_rev in H.
Qed.

Lemma strip_subset d s : d ∈ strip s -> d ∈ s.
Proof. unfold strip. intros H%rstrip_by_subset. by apply lstrip_by_subset in H. Qed.

Lemma lstrip_by_ltrimmed p s : ltrimmed p (lstrip_by p s).
Proof.
  induction s as [|x s IH]; simpl; [done|].
  destruct (p x) eqn:E; [done|]. by simpl.
Qed.

Lemma lstrip_by_fixed p s : ltrimmed p s -> lstrip_by p s = s.
Proof. destruct s as [|x s]; simpl; [done|]. by intros ->. Qed.

Lemma lstrip_by_idem p s : lstrip_by p (lstrip_by p s) = lstrip_by p s.
Proof. apply lstrip_by_fixed, lstrip_by_ltrimmed. Qed.

Lemma lstrip_by_snoc p s c :
  p c = false -> lstrip_by p (s ++ [c]) = lstrip_by p s ++ [c].
Proof.
  intros Hc. induction s as [|x s IH]; simpl.
  - by rewrite Hc.
  - by destruct (p x).
Qed.

Lemma rstrip_by_idem p s : rstrip_by p (rstrip_by p s) = rstrip_by p s.
Proof. unfold rstrip_by. by rewrite rev_involutive, lstrip_by_idem. Qed.

Lemma rstrip_by_cons p c s :
  p c = false -> rstrip_by p (c :: s) = c :: rstrip_by p s.
Proof.
  intros Hc. unfold rstrip_by. simpl.
  by rewrite lstrip_by_snoc, rev_app_distr.
Qed.

Lemma rstrip_by_ltrimmed p s : ltrimmed p s -> ltrimmed p (rstrip_by p s).
Proof.
  destruct s as [|c s]; simpl; [done|].
  intros Hc. by rewrite rstrip_by_cons.
Qed.

Lemma strip_idem s : strip (strip s) = strip s.
Proof.
  unfold strip.
  rewrite (lstrip_by_fixed is_space (rstrip_by _ _)).
  - apply rstrip_by_idem.
  - apply rstrip_by_ltrimmed, lstrip_by_ltrimmed.
Qed.

End StrLemmas.

(** ** Name Normalizer: [remove_brackets] *)

(** C8. For every string [s], [remove_brackets s] holds neither a left nor
    a right square bracket, and applying [remove_brackets] a second time
    changes nothing. *)
Theorem remove_brackets_no_bracket_idempotent (s : str) :
  (91 ∉ remove_brackets s) /\ (93 ∉ remove_brackets s) /\
  remove_brackets (remove_brackets s) = remove_brackets s.
Proof.
  assert (H91 : 91 ∉ remove_brackets s).
  { unfold remove_brackets. intros H%strip_subset%remove_char_subset.
    by apply remove_char_absent in H. }
  assert (H93 : 93 ∉ remove_brackets s).
  { unfold remove_brackets. intros H%strip_subset.
    by apply remove_char_absent in H. }
  split; [done|]. split; [done|].
  unfold remove_brackets at 1.
  rewrite (remove_char_id 91) by done.
  rewrite (remove_char_id 93) by done.
  unfold remove_brackets. apply strip_idem.
Qed.

(** ** Lemmas on [split] and [join] *)

Section SplitJoin.

Lemma flush_app cur k : flush cur k = flush cur [] ++ k.
Proof. by destruct cur. Qed.

Lemma split_from_sep cur a sp b :
  is_space sp = true ->
  split_from cur (a ++ sp :: b) = split_from cur a ++ split b.
Proof.
  intros Hsp. revert cur. induction a as [|c a IH]; intros cur; simpl.
  - rewrite Hsp. apply flush_app.
  - destruct (is_space c).
    + rewrite IH, (flush_app cur (_ ++ _)), (flush_app cur (split_from _ _)).
      by rewrite app_assoc.
    + apply IH.
Qed.

Lemma split_from_nonspace cur t :
  Forall nonspace t -> split_from cur t = flush (rev t ++ cur) [].
Proof.
  intros H. revert cur. induction H as [|c t Hc Ht IH]; intros cur; simpl; [done|].
  rewrite Hc, IH. by rewrite <- app_assoc.
Qed.

Lemma split_from_blank cur ws : blank ws -> split_from cur ws = flush cur [].
Proof.
  intros H. revert cur. induction H as [|c ws Hc Hws IH]; intros cur; simpl; [done|].
  rewrite Hc, IH. by destruct cur.
Qed.

Lemma split_token t : token t -> split t = [t].
Proof.
  intros [Hne Ht]. unfold split. rewrite split_from_nonspace by done.
  rewrite app_nil_r. destruct (rev t) eqn:E.
  - apply (f_equal (@rev _)) in E. rewrite rev_involutive in E. done.
  - cbn [flush]. by rewrite <- E, rev_involutive.
Qed.

Lemma join_cons sep x y l : join sep (x :: y :: l) = x ++ sep ++ join sep (y :: l).
Proof. done. Qed.

Lemma split_join toks :
  Forall token toks -> split (join (lit " ") toks) = toks.
Proof.
  induction 1 as [|t toks Ht Htoks IH]; [done|].
  destruct toks as [|u toks].
  - by apply split_token.
  - rewrite join_cons. change (lit " " ++ ?x) with (32 :: x).
    unfold split. rewrite split_from_sep by done.
    fold (split t). rewrite split_token by done. by rewrite IH.
Qed.

Lemma Forall_nonspace_rev t : Forall nonspace t -> Forall nonspace (rev t).
Proof. rewrite !Forall_forall. intros H c Hc. apply H. by apply elem_of_rev. Qed.

Lemma flush_tokens cur k :
  Forall nonspace cur -> Forall token k -> Forall token (flush cur k).
Proof.
  intros Hcur Hk. destruct cur as [|c cur]; simpl; [done|].
  constructor; [|done]. split.
  - intros E. by apply app_eq_nil in E as [_ ?].
  - by apply (Forall_nonspace_rev (c :: cur)).
Qed.

Lemma split_from_tokens cur s :
  Forall nonspace cur -> Forall token (split_from cur s).
Proof.
  revert cur. induction s as [|c s IH]; intros cur Hcur; simpl.
  - by apply flush_tokens.
  - destruct (is_space c) eqn:E.
    + apply flush_tokens; [done|]. by apply IH.
    + apply IH. by constructor.
Qed.

Lemma split_tokens s : Forall token (split s).
Proof. by apply split_from_tokens. Qed.

Lemma last_item_snoc {A} (l : list A) x : last_item (l ++ [x]) = Some x.
Proof.
  induction l as [|y l IH]; [done|].
  simpl. destruct (l ++ [x]) eqn:E; [by destruct l|]. done.
Qed.

Lemma but_last_snoc {A} (l : list A) x : but_last (l ++ [x]) = l.
Proof.
  induction l as [|y l IH]; [done|].
  simpl. destruct (l ++ [x]) eqn:E; [by destruct l|]. by rewrite IH.
Qed.

Lemma split_blank ws : blank ws -> split ws = [].
Proof. intros H. unfold split. by rewrite split_from_blank. Qed.

Lemma split_ends_blank pre rest : ends_blank pre -> split (pre ++ rest) = split pre ++ split rest.
Proof.
  intros [->|(p & sp & -> & Hsp)]; [done|].
  unfold split. rewrite <- app_assoc. simpl.
  rewrite !split_from_sep by done. unfold split. simpl. by rewrite app_nil_r.
Qed.

Lemma split_token_blank tok ws : token tok -> blank ws -> split (tok ++ ws) = [tok].
Proof.
  intros Ht Hws. destruct Hws as [|sp ws Hsp Hws].
  - rewrite app_nil_r. by apply split_token.
  - unfold split. rewrite split_from_sep by done.
    fold (split tok). rewrite split_token by done.
    by rewrite split_blank.
Qed.

(** The tokens of a name that ends in a token followed by whitespace. *)
Lemma split_decomposed pre tok ws :
  ends_blank pre -> token tok -> blank ws ->
  split (pre ++ tok ++ ws) = split pre ++ [tok].
Proof.
  intros Hpre Ht Hws. rewrite split_ends_blank by done.
  by rewrite split_token_blank.
Qed.

(** Every string is blank or ends in a last token followed by whitespace. *)
Lemma decompose (f : str) :
  blank f \/
  exists pre tok ws, f = pre ++ tok ++ ws /\ ends_blank pre /\ token tok /\ blank ws.
Proof.
  induction f as [|c f IH] using rev_ind; [left; constructor|].
  destruct (is_space c) eqn:Ec.
  - destruct IH as [Hb|(pre & tok & ws & -> & Hpre & Ht & Hws)].
    + left. apply Forall_app. split; [done|]. by constructor.
    + right. exists pre, tok, (ws ++ [c]). split; [by rewrite <- !app_assoc|].
      split; [done|]. split; [done|]. apply Forall_app. split; [done|]. by constructor.
  - right. destruct IH as [Hb|(pre & tok & ws & -> & Hpre & Ht & Hws)].
    + exists f, [c], []. split; [done|]. split.
      * destruct f as [|x f _] using rev_ind; [by left|]. right.
        exists f, x. split; [done|]. apply Forall_app in Hb as [_ Hx].
        by inversion Hx.
      * split; [|constructor]. split; [done|]. by constructor.
    + destruct ws as [|w ws _] using rev_ind.
      * exists pre, (tok ++ [c]), []. rewrite !app_nil_r. split; [by rewrite <- app_assoc|].
        split; [done|]. split; [|constructor]. destruct Ht as [Hne Ht]. split.
        -- intros E. by apply app_eq_nil in E as [_ ?].
        -- apply Forall_app. split; [done|]. by constructor.
      * exists (pre ++ tok ++ ws ++ [w]), [c], []. split; [by rewrite <- !app_assoc|].
        split.
        -- right. exists (pre ++ tok ++ ws), w. split; [by rewrite <- !app_assoc|].
           apply Forall_app in Hws as [_ Hw]. by inversion Hw.
        -- split; [|constructor]. split; [done|]. by constructor.
Qed.

Lemma last_token_decompose f tok :
  last_item (split f) = Some tok ->
  exists pre ws, f = pre ++ tok ++ ws /\ ends_blank pre /\ token tok /\ blank ws.
Proof.
  intros H. destruct (decompose f) as [Hb|(pre & tok' & ws & -> & Hpre & Ht & Hws)].
  - by rewrite split_blank in H.
  - rewrite split_decomposed, last_item_snoc in H by done.
    injection H as ->. by exists pre, ws.
Qed.

End SplitJoin.

(** ** Lemmas on [HEX32] and on trimming a joined name *)

Section Trimming.

Lemma is_hex_nonspace c : HEX32.is_hex c = true -> nonspace c.
Proof.
  intros H. unfold nonspace. destruct (is_space c) eqn:E; [exfalso|done].
  unfold HEX32.is_hex in H. unfold is_space in E. bool_facts; lia.
Qed.

Lemma fullmatch_token tok : HEX32.fullmatch tok = true -> token tok.
Proof.
  unfold HEX32.fullmatch. intros [Hlen Hhex]%andb_true_iff.
  apply Nat.eqb_eq in Hlen. split.
  - intros ->. simpl in Hlen. lia.
  - rewrite forallb_forall in Hhex. apply Forall_forall. intros c Hc.
    apply is_hex_nonspace, Hhex. by apply list_elem_of_In.
Qed.

Lemma fullmatch_length tok : HEX32.fullmatch tok = true -> length tok = 32%nat.
Proof.
  unfold HEX32.fullmatch. intros [Hlen _]%andb_true_iff. by apply Nat.eqb_eq.
Qed.

Lemma lstrip_by_app p t r :
  lstrip_by p (t ++ r) =
  match lstrip_by p t with
  | [] => lstrip_by p r
  | _ :: _ => lstrip_by p t ++ r
  end.
Proof.
  induction t as [|c t IH]; simpl.
  - by destruct (lstrip_by p r).
  - by destruct (p c).
Qed.

Lemma lstrip_by_Forall (P : char -> Prop) p s : Forall P s -> Forall P (lstrip_by p s).
Proof.
  rewrite !Forall_forall. intros H c Hc. by apply H, (lstrip_by_subset p).
Qed.

Lemma lstrip_by_length p s : (length (lstrip_by p s) <= length s)%nat.
Proof.
  induction s as [|c s IH]; simpl; [done|]. destruct (p c); simpl; lia.
Qed.

Lemma rstrip_by_length p s : (length (rstrip_by p s) <= length s)%nat.
Proof.
  unfold rstrip_by. rewrite length_rev.
  etrans; [apply lstrip_by_length|]. by rewrite length_rev.
Qed.

(** Trimming a name made of tokens joined by single spaces, when the space
    is among the trimmed characters, leaves such a name. *)
Lemma lstrip_by_join p toks :
  p 32 = true -> Forall token toks ->
  exists toks', Forall token toks' /\
    lstrip_by p (join (lit " ") toks) = join (lit " ") toks'.
Proof.
  intros Hp. induction 1 as [|t toks Ht Htoks IH]; [by exists []|].
  destruct IH as (toks' & Htoks' & E).
  assert (Hsfx : lstrip_by p t = [] \/ token (lstrip_by p t)).
  { destruct (lstrip_by p t) eqn:Et; [by left|right]. rewrite <- Et. split.
    - by rewrite Et.
    - apply lstrip_by_Forall, Ht. }
  destruct toks as [|u toks].
  - simpl. destruct Hsfx as [->|Hsfx]; [by exists []|].
    exists [lstrip_by p t]. split; [|done]. by constructor.
  - rewrite join_cons. change (lit " " ++ ?x) with (32 :: x).
    rewrite lstrip_by_app. destruct Hsfx as [->|Hsfx].
    + simpl. rewrite Hp. by exists toks'.
    + destruct (lstrip_by p t) eqn:Et; [by destruct Hsfx|]. rewrite <- Et in *.
      exists (lstrip_by p t :: u :: toks). split; [by constructor|done].
Qed.

Lemma join_snoc sep l x y : join sep ((x :: l) ++ [y]) = join sep (x :: l) ++ sep ++ y.
Proof.
  revert x. induction l as [|z l IH]; intros x; [done|].
  change ((x :: z :: l) ++ [y]) with (x :: (z :: l) ++ [y]).
  simpl ((z :: l) ++ [y]). rewrite !join_cons.
  change (z :: l ++ [y]) with ((z :: l) ++ [y]). rewrite IH.
  by rewrite <- !app_assoc.
Qed.

Lemma rev_join sep l : rev (join sep l) = join (rev sep) (rev (map (@rev _) l)).
Proof.
  induction l as [|x l IH]; [done|].
  destruct l as [|y l]; [done|].
  rewrite join_cons, !rev_app_distr, IH, <- app_assoc.
  change (rev (map (@rev _) (x :: y :: l)))
    with (rev (map (@rev _) (y :: l)) ++ [rev x]).
  destruct (rev (map (@rev _) (y :: l))) as [|a m] eqn:E.
  - apply (f_equal (@length _)) in E. rewrite length_rev in E. done.
  - by rewrite join_snoc.
Qed.

Lemma token_rev t : token t -> token (rev t).
Proof.
  intros [Hne Ht]. split; [|by apply Forall_nonspace_rev].
  intros E. apply (f_equal (@rev _)) in E. by rewrite rev_involutive in E.
Qed.

Lemma tokens_rev toks : Forall token toks -> Forall token (rev (map (@rev _) toks)).
Proof.
  rewrite !Forall_forall. intros H t Ht.
  apply list_elem_of_In, in_rev, list_elem_of_In in Ht.
  apply list_elem_of_fmap in Ht as (u & -> & Hu). by apply token_rev, H.
Qed.

Lemma rstrip_join toks :
  Forall token toks ->
  exists toks', Forall token toks' /\
    rstrip (lit " |_") (join (lit " ") toks) = join (lit " ") toks'.
Proof.
  intros Htoks. unfold rstrip, rstrip_by.
  rewrite rev_join. change (rev (lit " ")) with (lit " ").
  destruct (lstrip_by_join (fun c => mem_char c (lit " |_")) _ eq_refl
              (tokens_rev _ Htoks)) as (toks' & Htoks' & ->).
  exists (rev (map (@rev _) toks')). split; [by apply tokens_rev|].
  by rewrite rev_join.
Qed.

Lemma join_split_length cur s :
  (length (join (lit " ") (split_from cur s)) <= length cur + length s)%nat.
Proof.
  revert cur. induction s as [|c s IH]; intros cur; simpl.
  - destruct cur; simpl; [lia|]. rewrite length_app, length_rev. simpl. lia.
  - destruct (is_space c).
    + specialize (IH []). simpl in IH. destruct cur as [|d cur]; simpl; [lia|].
      destruct (split_from [] s) eqn:E; simpl in *.
      * rewrite length_app, length_rev. simpl. lia.
      * rewrite !length_app, length_rev. simpl in *.
        destruct l; rewrite ?length_app in *; simpl in *; lia.
    + specialize (IH (c :: cur)). simpl in IH. lia.
Qed.

Lemma last_item_split_app {A} (l : list A) x :
  last_item l = Some x -> l = but_last l ++ [x].
Proof.
  induction l as [|y l IH]; [done|].
  destruct l as [|z l]; simpl.
  - by intros [= ->].
  - intros H. f_equal. by apply IH.
Qed.

Lemma join_but_last_length (toks : list (list N)) tok :
  last_item toks = Some tok ->
  (length (join (lit " ") (but_last toks)) + length tok
     <= length (join (lit " ") toks))%nat.
Proof.
  intros H. rewrite (last_item_split_app _ _ H) at 2.
  destruct (but_last toks) as [|x l]; [simpl; lia|].
  rewrite join_snoc, !length_app. lia.
Qed.

End Trimming.

(** ** Name Normalizer: [strip_hash] *)

(** What [strip_hash] returns for a name that ends in a token. *)
Lemma strip_hash_decomposed pre tok ws :
  ends_blank pre -> token tok -> blank ws ->
  strip_hash (pre ++ tok ++ ws) =
  if HEX32.fullmatch tok
  then rstrip (lit " |_") (join (lit " ") (split pre))
  else pre ++ tok ++ ws.
Proof.
  intros Hpre Ht Hws. unfold strip_hash.
  rewrite split_decomposed by done.
  by rewrite last_item_snoc, but_last_snoc.
Qed.

Lemma strip_hash_shorter g tok :
  last_item (split g) = Some tok -> HEX32.fullmatch tok = true ->
  (length (strip_hash g) < length g)%nat.
Proof.
  intros Hlast Hhex. unfold strip_hash. rewrite Hlast, Hhex.
  pose proof (rstrip_by_length (fun c => mem_char c (lit " |_"))
                (join (lit " ") (but_last (split g)))) as H1.
  pose proof (join_but_last_length _ _ Hlast) as H2.
  pose proof (join_split_length [] g) as H3.
  pose proof (fullmatch_length _ Hhex) as H4.
  unfold rstrip. fold (split g) in H3. simpl in H3. lia.
Qed.

(** C5 (as amended).  A name whose last whitespace-separated token is a
    32-digit hexadecimal token has the form [pre ++ tok ++ ws] with [ws]
    whitespace, and [strip_hash] returns the tokens of [pre] joined by single
    spaces with the trailing spaces, pipes and underscores removed; a name
    without such a last token is returned unchanged; and a second
    application of [strip_hash] changes nothing exactly when the first
    result does not end in such a token again. *)
Theorem strip_hash_drops_last_token (f : str) :
  (ends_in_hash f = true ->
   exists pre tok ws,
     f = pre ++ tok ++ ws /\ ends_blank pre /\ blank ws /\
     HEX32.fullmatch tok = true /\
     strip_hash f = rstrip (lit " |_") (join (lit " ") (split pre))) /\
  (ends_in_hash f = false -> strip_hash f = f) /\
  (strip_hash (strip_hash f) = strip_hash f <-> ends_in_hash (strip_hash f) = false).
Proof.
  assert (Hfix : forall g, ends_in_hash g = false -> strip_hash g = g).
  { intros g. unfold ends_in_hash, strip_hash.
    destruct (last_item (split g)); [|done]. by intros ->. }
  split; [|split].
  - unfold ends_in_hash. destruct (last_item (split f)) as [tok|] eqn:Hlast; [|done].
    intros Hhex.
    destruct (last_token_decompose _ _ Hlast) as (pre & ws & -> & Hpre & Ht & Hws).
    exists pre, tok, ws. repeat (split; [done|]).
    by rewrite strip_hash_decomposed, Hhex.
  - apply Hfix.
  - split; [|apply Hfix].
    intros Hidem. destruct (ends_in_hash (strip_hash f)) eqn:E; [exfalso|done].
    unfold ends_in_hash in E.
    destruct (last_item (split (strip_hash f))) as [tok|] eqn:Hlast; [|done].
    pose proof (strip_hash_shorter _ _ Hlast E) as Hlt.
    rewrite Hidem in Hlt. lia.
Qed.

(** The amended statement at the names ["Intro  [draft] |_ <hash> "] and
    ["Intro [draft]"]. *)
Lemma strip_hash_drops_last_token_witness :
  let f := lit "Intro  [draft] |_ " ++ h32 ++ lit " " in
  (exists pre tok ws,
     f = pre ++ tok ++ ws /\ ends_blank pre /\ blank ws /\
     HEX32.fullmatch tok = true /\
     strip_hash f = rstrip (lit " |_") (join (lit " ") (split pre))) /\
  strip_hash (lit "Intro [draft]") = lit "Intro [draft]" /\
  strip_hash (strip_hash f) = strip_hash f.
Proof.
  intros f. split; [|split].
  - apply (strip_hash_drops_last_token f). reflexivity.
  - apply (strip_hash_drops_last_token (lit "Intro [draft]")). reflexivity.
  - apply (strip_hash_drops_last_token f). reflexivity.
Defined.

(** C5 (as stated) fails: the name ["a <hash> <hash>"] ends in a hash token,
    and stripping it twice differs from stripping it once. *)
Lemma strip_hash_not_idempotent :
  let f := lit "a " ++ h32 ++ lit " " ++ h32 in
  ends_in_hash f = true /\
  strip_hash f = lit "a " ++ h32 /\
  strip_hash (strip_hash f) = lit "a" /\
  strip_hash (strip_hash f) <> strip_hash f.
Proof. vm_compute. repeat split; discriminate. Qed.

(** C10.  For a name whose last whitespace-separated token is a 32-digit
    hexadecimal token, the result of [strip_hash] is made of tokens joined
    by single spaces: it equals its own tokens joined by one space each, so
    no whitespace run of the name other than a single space survives. *)
Theorem strip_hash_normalizes_whitespace (f : str) :
  ends_in_hash f = true ->
  strip_hash f = rstrip (lit " |_") (join (lit " ") (but_last (split f))) /\
  strip_hash f = join (lit " ") (split (strip_hash f)).
Proof.
  unfold ends_in_hash. destruct (last_item (split f)) as [tok|] eqn:Hlast; [|done].
  intros Hhex.
  assert (E : strip_hash f = rstrip (lit " |_") (join (lit " ") (but_last (split f)))).
  { unfold strip_hash. by rewrite Hlast, Hhex. }
  split; [done|]. rewrite E.
  assert (Htoks : Forall token (but_last (split f))).
  { pose proof (split_tokens f) as H.
    rewrite (last_item_split_app _ _ Hlast) in H. by apply Forall_app in H as [? _]. }
  destruct (rstrip_join _ Htoks) as (toks' & Htoks' & ->).
  by rewrite split_join.
Qed.

(** The statement at a name with runs of whitespace before its hash. *)
Lemma strip_hash_normalizes_whitespace_witness :
  strip_hash (lit "  a   b c_ " ++ h32)
  = join (lit " ") (split (strip_hash (lit "  a   b c_ " ++ h32))).
Proof.
  apply (strip_hash_normalizes_whitespace (lit "  a   b c_ " ++ h32)). reflexivity.
Defined.

(** ** Folder Matcher: [find_md_for_folder] *)

Section Matcher.

Lemma str_eqb_eq a b : str_eqb a b = true <-> a = b.
Proof.
  revert b. induction a as [|x a IH]; intros [|y b]; simpl; try done.
  rewrite andb_true_iff, char_eqb_eq, IH. split; [by intros [-> ->]|by intros [= -> ->]].
Qed.

(** [List.find] returns the first element that passes the test. *)
Lemma find_first {A} (f : A -> bool) pre p post :
  Forall (fun q => f q = false) pre -> f p = true ->
  List.find f (pre ++ p :: post) = Some p.
Proof.
  induction 1 as [|q pre Hq Hpre IH]; intros Hp; simpl.
  - by rewrite Hp.
  - rewrite Hq. by apply IH.
Qed.

Lemma find_no_match {A} (f : A -> bool) l :
  Forall (fun q => f q = false) l -> List.find f l = None.
Proof. induction 1 as [|q l Hq Hl IH]; simpl; [done|]. by rewrite Hq. Qed.

Lemma child_name_spec (p k : list (list N)) (n : list N) : FS.child_name p k = Some n <-> k = p ++ [n].
Proof.
  unfold FS.child_name. split.
  - destruct (last_item k) as [n'|] eqn:E; [|done].
    destruct (decide (but_last k = p)) as [<-|]; [|done].
    intros [= ->]. by apply last_item_split_app.
  - intros ->. rewrite last_item_snoc, but_last_snoc. by rewrite decide_True.
Qed.

(** The listing of a directory holds exactly the names of its entries. *)
Lemma elem_of_listdir (p : list (list N)) (m : gmap (list (list N)) FS.entry) (n : list N) :
  n ∈ FS.listdir p m <-> is_Some (m !! (p ++ [n])).
Proof.
  unfold FS.listdir. rewrite list_elem_of_omap. split.
  - intros (k & Hk & Hn). apply child_name_spec in Hn as ->.
    apply list_elem_of_fmap in Hk as ([k e] & -> & Hk). simpl.
    apply elem_of_map_to_list in Hk. by exists e.
  - intros [e He]. exists (p ++ [n]). split; [|by apply child_name_spec].
    apply list_elem_of_fmap. exists (p ++ [n], e). split; [done|].
    by apply elem_of_map_to_list.
Qed.

(** The candidates of the matcher are the entries of the parent whose name
    ends in [.md]. *)
Lemma elem_of_glob_md (parent : list (list N)) (m : gmap (list (list N)) FS.entry)
    (p : list (list N)) :
  p ∈ glob_md parent m <->
  exists n, p = parent ++ [n] /\ is_Some (m !! p) /\ endswith (lit ".md") n = true.
Proof.
  unfold glob_md. rewrite list_elem_of_fmap. split.
  - intros (n & -> & Hn). apply list_elem_of_In, filter_In in Hn as [Hn Hmd].
    apply list_elem_of_In, elem_of_listdir in Hn. by exists n.
  - intros (n & -> & Hn & Hmd). exists n. split; [done|].
    apply list_elem_of_In, filter_In. split; [|done].
    by apply list_elem_of_In, elem_of_listdir.
Qed.

End Matcher.

(** C4.  [find_md_for_folder] applies its strategies in strict order: the
    first document whose normalised stem equals the normalised folder name;
    when there is none, the first document whose stem holds the folder name
    or matches [HEX32]; when there is none either, the only document when
    there is exactly one.  With two or more documents none of which matches
    it returns no match, and with no document it returns no match. *)
Theorem find_md_for_folder_priority (parent : list (list N)) (folder_name : str)
    (m : gmap (list (list N)) FS.entry) :
  let cands := glob_md parent m in
  let result := find_md_for_folder parent folder_name m in
  (cands = [] -> result = None) /\
  (forall pre p post, cands = pre ++ p :: post ->
     Forall (fun q => ~ exact_match folder_name q) pre ->
     exact_match folder_name p -> result = Some p) /\
  (forall pre p post, cands = pre ++ p :: post ->
     Forall (fun q => ~ exact_match folder_name q) cands ->
     Forall (fun q => ~ loose_match folder_name q) pre ->
     loose_match folder_name p -> result = Some p) /\
  (forall p, cands = [p] ->
     ~ exact_match folder_name p -> ~ loose_match folder_name p -> result = Some p) /\
  ((2 <= length cands)%nat ->
     Forall (fun q => ~ exact_match folder_name q /\ ~ loose_match folder_name q) cands ->
     result = None).
Proof.
  intros cands result. subst result. unfold find_md_for_folder. fold cands.
  set (fe := fun p => str_eqb (norm (stem_of p)) (norm folder_name)).
  set (fl := fun p => contains folder_name (stem_of p) || HEX32.search (stem_of p)).
  assert (He : forall q, ~ exact_match folder_name q -> fe q = false).
  { intros q Hq. destruct (fe q) eqn:E; [|done]. by apply str_eqb_eq in E. }
  assert (Hl : forall q, ~ loose_match folder_name q -> fl q = false).
  { intros q Hq. destruct (fl q) eqn:E; [|done]. unfold fl in E.
    apply orb_true_iff in E. done. }
  assert (Hnone_e : forall l, Forall (fun q => ~ exact_match folder_name q) l ->
                              List.find fe l = None).
  { intros l H. apply find_no_match. eapply Forall_impl; [exact H|]. auto. }
  assert (Hnone_l : forall l, Forall (fun q => ~ loose_match folder_name q) l ->
                              List.find fl l = None).
  { intros l H. apply find_no_match. eapply Forall_impl; [exact H|]. auto. }
  split; [by intros ->|]. split; [|split; [|split]].
  - intros pre p post E Hpre Hp. rewrite E.
    rewrite (find_first fe).
    + by destruct pre.
    + eapply Forall_impl; [exact Hpre|]. auto.
    + by apply str_eqb_eq.
  - intros pre p post E Hall Hpre Hp. rewrite Hnone_e by done. rewrite E.
    rewrite (find_first fl).
    + by destruct pre.
    + eapply Forall_impl; [exact Hpre|]. auto.
    + unfold fl. apply orb_true_iff. exact Hp.
  - intros p E Hne Hnl. rewrite E. simpl. by rewrite He, Hl.
  - intros Hlen Hall. destruct cands as [|c cands'] eqn:E; [done|].
    rewrite Hnone_e, Hnone_l.
    + destruct cands'; simpl in *; [lia|done].
    + eapply Forall_impl; [exact Hall|]. by intros q [_ ?].
    + eapply Forall_impl; [exact Hall|]. by intros q [? _].
Qed.

(** The statement at the directory [two_docs]. *)
Lemma find_md_for_folder_priority_witness :
  find_md_for_folder [] (lit "Intro " ++ h32) two_docs = None /\
  find_md_for_folder [lit "empty"] (lit "Intro " ++ h32) two_docs = None.
Proof.
  assert (E : glob_md [] two_docs = [[lit "x.md"]; [lit "y.md"]]) by (vm_compute; reflexivity).
  split.
  - pose proof (find_md_for_folder_priority [] (lit "Intro " ++ h32) two_docs) as H.
    cbv zeta in H. destruct H as (_ & _ & _ & _ & H). apply H.
    + rewrite E. simpl. lia.
    + rewrite E.
      constructor; [|constructor; [|constructor]];
        (split; [intros H'; vm_compute in H'; discriminate
                |intros [H'|H']; vm_compute in H'; discriminate]).
  - pose proof (find_md_for_folder_priority [lit "empty"] (lit "Intro " ++ h32) two_docs) as H.
    cbv zeta in H. destruct H as (H & _). apply H. reflexivity.
Defined.

(** ** Orchestrator: the selection of folders *)

Section Selection.

Lemma str_compare_refl a : PurePath.str_compare a a = Eq.
Proof. induction a as [|x a IH]; simpl; [done|]. by rewrite N.compare_refl. Qed.

Lemma str_compare_antisym a b :
  PurePath.str_compare b a = CompOpp (PurePath.str_compare a b).
Proof.
  revert b. induction a as [|x a IH]; intros [|y b]; simpl; try done.
  rewrite (N.compare_antisym x y). destruct (x ?= y); simpl; auto.
Qed.

Lemma compare_antisym (a b : list (list N)) :
  PurePath.compare b a = CompOpp (PurePath.compare a b).
Proof.
  revert b. induction a as [|x a IH]; intros [|y b]; simpl; try done.
  rewrite (str_compare_antisym x y). destruct (PurePath.str_compare x y); simpl; auto.
Qed.

Lemma leb_total (a b : list (list N)) :
  PurePath.leb a b = false -> PurePath.leb b a = true.
Proof.
  unfold PurePath.leb. rewrite (compare_antisym a b).
  by destruct (PurePath.compare a b).
Qed.

(** Entries of one directory compare as their names do. *)
Lemma compare_siblings (root : list (list N)) (a b : list N) :
  PurePath.compare (root ++ [a]) (root ++ [b]) = PurePath.str_compare a b.
Proof.
  induction root as [|x root IH]; simpl.
  - by destruct (PurePath.str_compare a b).
  - by rewrite str_compare_refl.
Qed.

Lemma insert_path_HdRel x y l :
  path_le y x -> HdRel path_le y l -> HdRel path_le y (insert_path x l).
Proof.
  intros Hyx Hl. destruct l as [|z l]; simpl; [by constructor|].
  destruct (PurePath.leb x z); constructor; [done|]. by inversion Hl.
Qed.

Lemma insert_path_sorted x l : Sorted path_le l -> Sorted path_le (insert_path x l).
Proof.
  induction 1 as [|y l Hl IH Hy]; simpl; [by repeat constructor|].
  destruct (PurePath.leb x y) eqn:E.
  - constructor; [by constructor|]. by constructor.
  - constructor; [done|]. apply insert_path_HdRel; [|done]. by apply leb_total.
Qed.

Lemma sorted_sorted l : Sorted path_le (sorted l).
Proof.
  induction l as [|x l IH]; simpl; [constructor|]. by apply insert_path_sorted.
Qed.

Lemma insert_path_perm x l : insert_path x l ≡ₚ x :: l.
Proof.
  induction l as [|y l IH]; simpl; [done|].
  destruct (PurePath.leb x y); [done|]. rewrite IH. apply Permutation_swap.
Qed.

Lemma sorted_perm l : sorted l ≡ₚ l.
Proof.
  induction l as [|x l IH]; simpl; [done|]. by rewrite insert_path_perm, IH.
Qed.

Lemma filter_sorted {A} (R : A -> A -> Prop) (f : A -> bool) l :
  Transitive R -> Sorted R l -> Sorted R (List.filter f l).
Proof.
  intros HR Hl. apply Sorted_StronglySorted in Hl; [|done].
  apply StronglySorted_Sorted.
  induction Hl as [|x l Hl IH Hx]; simpl; [constructor|].
  destruct (f x); [|done]. constructor; [done|].
  rewrite Forall_forall in *. intros y Hy. apply Hx.
  apply list_elem_of_In. apply list_elem_of_In, filter_In in Hy as [Hy _]. done.
Qed.

Lemma str_compare_eq a b : PurePath.str_compare a b = Eq -> a = b.
Proof.
  revert b. induction a as [|x a IH]; intros [|y b]; simpl; try done.
  destruct (x ?= y) eqn:E; try done. apply N.compare_eq in E as ->.
  intros H. by rewrite (IH b).
Qed.

Lemma str_compare_trans c a b d :
  PurePath.str_compare a b = c -> PurePath.str_compare b d = c ->
  c <> Eq -> PurePath.str_compare a d = c.
Proof.
  revert b d. induction a as [|x a IH]; intros [|y b] [|z d]; simpl; try congruence.
  destruct (x ?= y) eqn:Exy, (y ?= z) eqn:Eyz; intros H1 H2 Hc; subst; try congruence;
    repeat match goal with
    | H : (_ ?= _) = Eq |- _ => apply N.compare_eq in H; subst
    end;
    rewrite ?N.compare_refl, ?Exy, ?Eyz; try done; try (by eapply IH).
  - assert ((x ?= z) = Lt) as ->; [|done]. rewrite N.compare_lt_iff in *. lia.
  - assert ((x ?= z) = Gt) as ->; [|done]. rewrite N.compare_gt_iff in *. lia.
Qed.

Lemma name_le_trans : Transitive name_le.
Proof.
  intros a b d. unfold name_le.
  destruct (PurePath.str_compare a b) eqn:E1; [| |done];
    destruct (PurePath.str_compare b d) eqn:E2; try done; intros _ _.
  - apply str_compare_eq in E1 as ->. by rewrite E2.
  - apply str_compare_eq in E1 as ->. by rewrite E2.
  - apply str_compare_eq in E2 as ->. by rewrite E1.
  - by rewrite (str_compare_trans Lt a b d).
Qed.

End Selection.

Section SelectionSpec.

Lemma match_here_spec s :
  HEX32.match_here s = true <->
  exists h, HEX32.fullmatch h = true /\ (s = h \/ s = h ++ [10]).
Proof.
  unfold HEX32.match_here, HEX32.fullmatch. split.
  - intros [[Hhex Hlen]%andb_true_iff Hrest]%andb_true_iff.
    exists (take 32 s). split; [by apply andb_true_iff|].
    rewrite <- (take_drop 32 s) at 1 3.
    destruct (drop 32 s) as [|c [|d r]]; [left|right|done].
    + by rewrite app_nil_r.
    + by apply N.eqb_eq in Hrest as ->.
  - intros (h & [Hlen Hhex]%andb_true_iff & Hs).
    assert (Hl : length h = 32%nat) by by apply Nat.eqb_eq.
    destruct Hs as [->| ->].
    + rewrite take_ge, drop_ge by lia. by rewrite Hhex, Hlen.
    + rewrite take_app_length', drop_app_length' by done. by rewrite Hhex, Hlen.
Qed.

Lemma search_spec s : HEX32.search s = true <-> ends_in_hex32 s.
Proof.
  unfold ends_in_hex32. induction s as [|c s IH]; cbn [HEX32.search].
  - rewrite orb_false_r, match_here_spec. split.
    + intros (h & Hh & Hs). by exists [], h.
    + intros (pre & h & Hh & Hs). exists h. split; [done|].
      destruct Hs as [Hs|Hs]; symmetry in Hs; apply app_eq_nil in Hs as [-> Hs].
      * left. by rewrite Hs.
      * by apply app_eq_nil in Hs as [_ ?].
  - rewrite orb_true_iff, match_here_spec, IH. split.
    + intros [(h & Hh & Hs)|(pre & h & Hh & Hs)].
      * by exists [], h.
      * exists (c :: pre), h. split; [done|]. by destruct Hs as [->| ->]; [left|right].
    + intros (pre & h & Hh & Hs). destruct pre as [|d pre].
      * left. by exists h.
      * right. exists pre, h. split; [done|].
        destruct Hs as [Hs|Hs]; injection Hs as -> ->; [by left|by right].
Qed.

Lemma name_snoc (p : list (list N)) (n : list N) : FS.name (p ++ [n]) = n.
Proof. unfold FS.name. by rewrite last_item_snoc. Qed.

Lemma stat_snoc (p : list (list N)) (n : list N) (m : gmap (list (list N)) FS.entry) :
  FS.stat (p ++ [n]) m = m !! (p ++ [n]).
Proof. unfold FS.stat. by destruct (p ++ [n]) eqn:E; [destruct p|]. Qed.

Lemma sorted_siblings (root : list (list N)) (names : list (list N)) :
  Sorted name_le (map FS.name (sorted (map (fun n => root ++ [n]) names))).
Proof.
  pose proof (sorted_sorted (map (fun n => root ++ [n]) names)) as Hs.
  assert (Hall : Forall (fun p => exists n, p = root ++ [n])
                   (sorted (map (fun n => root ++ [n]) names))).
  { rewrite sorted_perm. apply Forall_forall. intros p Hp.
    apply list_elem_of_fmap in Hp as (n & -> & _). by exists n. }
  induction Hs as [|p l Hl IH Hp]; simpl; [constructor|].
  apply Forall_cons in Hall as [(n & ->) Hall].
  constructor; [by apply IH|].
  destruct Hp as [|q l Hpq]; simpl; constructor.
  apply Forall_cons in Hall as [(n' & ->) _].
  rewrite !name_snoc. unfold name_le. unfold path_le, PurePath.leb in Hpq.
  rewrite compare_siblings in Hpq. by destruct (PurePath.str_compare n n').
Qed.

Lemma enumerate_lookup {A} (l : list A) (start i : nat) (x : A) :
  l !! i = Some x -> enumerate start l !! i = Some ((start + i)%nat, x).
Proof.
  revert start i. induction l as [|y l IH]; intros start [|i]; simpl; try done.
  - intros [= ->]. by rewrite Nat.add_0_r.
  - intros H. rewrite (IH (S start) i) by done. f_equal. f_equal. lia.
Qed.

(** The folders [main] selects: the sub-directories of the root whose name
    ends in 32 hexadecimal characters, sorted by name. *)
Lemma candidates_spec (root : list (list N)) (m : gmap (list (list N)) FS.entry) :
  FS.is_dir root m = true ->
  exists folders,
    candidates root m = (FS.Ok folders, m) /\
    (forall p, p ∈ folders <->
       exists n, p = root ++ [n] /\ m !! p = Some FS.Dir /\ ends_in_hex32 n) /\
    Sorted name_le (map FS.name folders).
Proof.
  intros Hroot. unfold candidates, mbind, M_bind, FS.bind, FS.iterdir.
  unfold FS.is_dir in Hroot. destruct (FS.stat root m) as [[|]|] eqn:E; try done.
  eexists. split; [done|]. split.
  - intros p. rewrite list_elem_of_In, filter_In, <- list_elem_of_In.
    rewrite sorted_perm, list_elem_of_fmap. split.
    + intros [(n & -> & Hn) [Hdir Hhex]%andb_true_iff]. exists n. split; [done|].
      rewrite name_snoc, search_spec in Hhex. split; [|done].
      unfold FS.is_dir in Hdir. rewrite stat_snoc in Hdir.
      by destruct (m !! (root ++ [n])) as [[|]|].
    + intros (n & -> & Hdir & Hhex). split.
      * exists n. split; [done|]. apply elem_of_listdir. by rewrite Hdir.
      * apply andb_true_iff. split.
        -- unfold FS.is_dir. by rewrite stat_snoc, Hdir.
        -- by rewrite name_snoc, search_spec.
  - rewrite <- (map_map (fun p => (FS.name p, p)) fst).
    assert (Hmono : forall (f : list (list N) -> bool) l,
               Sorted name_le (map FS.name l) ->
               Sorted name_le (map FS.name (List.filter f l))).
    { intros f l Hl. apply Sorted_StronglySorted in Hl; [|apply name_le_trans].
      apply StronglySorted_Sorted.
      induction l as [|x l IH]; simpl; [constructor|].
      inversion Hl as [|? ? Hl' Hx]; subst.
      destruct (f x); simpl; [|by apply IH]. constructor; [by apply IH|].
      rewrite Forall_forall in *. intros y Hy. apply Hx.
      apply list_elem_of_fmap in Hy as (q & -> & Hq).
      apply list_elem_of_fmap. exists q. split; [done|].
      by apply list_elem_of_In, filter_In in Hq as [?%list_elem_of_In _]. }
    rewrite map_map. simpl. apply Hmono, sorted_siblings.
Qed.

End SelectionSpec.

(** ** Link Rewriter: the encoding of a rewritten path *)

Section Quote.

Lemma utf8_encode_char_high c bs :
  128 <= c -> Url.utf8_encode_char c = Some bs -> Forall (fun b => 128 <= b) bs.
Proof.
  unfold Url.utf8_encode_char. intros Hc.
  destruct (N.ltb_spec c 128); [lia|].
  repeat match goal with
  | |- context [if ?b then _ else _] => destruct b eqn:?
  end; intros [= <-]; repeat (apply List.Forall_cons; [nlia|]); apply List.Forall_nil.
Qed.

Lemma quote_byte_high safe b :
  128 <= b -> Url.quote_byte safe b = escapes [b].
Proof.
  intros Hb. unfold Url.quote_byte, Url.always_safe.
  assert (E : forall x, x < 128 -> (b =? x) = false) by (intros; apply N.eqb_neq; lia).
  assert (L1 : (b <=? 90) = false) by (apply N.leb_gt; lia).
  assert (L2 : (b <=? 122) = false) by (apply N.leb_gt; lia).
  assert (L3 : (b <=? 57) = false) by (apply N.leb_gt; lia).
  assert (L4 : (b <? 128) = false) by (apply N.ltb_ge; lia).
  rewrite L1, L2, L3, L4, !andb_false_r. simpl. unfold char_eqb.
  by rewrite !E by lia.
Qed.

Lemma quote_bytes_high safe bs :
  Forall (fun b => 128 <= b) bs ->
  concat (map (Url.quote_byte safe) bs) = escapes bs.
Proof.
  induction 1 as [|b bs Hb Hbs IH]; [done|].
  simpl. rewrite IH, quote_byte_high by done. simpl. by rewrite N.eqb_refl || done.
Qed.

Lemma quote_cons safe c s out :
  Url.quote safe (c :: s) = Some out ->
  exists bs out', Url.utf8_encode_char c = Some bs /\ Url.quote safe s = Some out' /\
    out = concat (map (Url.quote_byte safe) bs) ++ out'.
Proof.
  unfold Url.quote. simpl.
  destruct (Url.utf8_encode_char c) as [bs|]; [|done].
  destruct (Url.utf8_encode s) as [bs'|]; [|done]. simpl.
  intros [= <-]. exists bs, (concat (map (Url.quote_byte safe) bs')).
  by rewrite map_app, concat_app.
Qed.

Lemma encodes_char c bs :
  Url.utf8_encode_char c = Some bs ->
  encodes c (concat (map (Url.quote_byte (lit "/:._-()")) bs)).
Proof.
  intros Hbs. destruct (N.ltb_spec c 128) as [Hc|Hc].
  - assert (bs = [c]) as ->.
    { unfold Url.utf8_encode_char in Hbs.
      destruct (N.ltb_spec c 128); [congruence|lia]. }
    simpl. rewrite app_nil_r. repeat split.
    + intros Hin. unfold Url.quote_byte.
      assert (Hm : mem_char c (lit "/:._-()") = true).
      { apply existsb_exists. exists c. split; [by apply list_elem_of_In|].
        apply char_eqb_refl. }
      destruct (N.ltb_spec c 128); [|lia]. rewrite Hm. simpl.
      by rewrite orb_true_r.
    + by intros ->.
    + lia.
    + intros _. unfold Url.quote_byte.
      destruct (_ || _); [by left|right]. simpl. done.
  - repeat split; try lia.
    + intros Hin. exfalso. unfold lit in Hin. simpl in Hin.
      repeat (apply elem_of_cons in Hin as [->|Hin]; [lia|]).
      by apply elem_of_nil in Hin.
    + intros _. exists bs. split; [done|].
      apply quote_bytes_high. by apply (utf8_encode_char_high c).
Qed.

(** [quote] writes a string character by character. *)
Lemma quote_encodes s out :
  Url.quote (lit "/:._-()") s = Some out ->
  exists es, out = concat es /\ Forall2 encodes s es.
Proof.
  revert out. induction s as [|c s IH]; intros out.
  - intros [= <-]. by exists [].
  - intros (bs & out' & Hbs & Hout' & ->)%quote_cons.
    destruct (IH _ Hout') as (es & -> & Hes).
    exists (concat (map (Url.quote_byte (lit "/:._-()")) bs) :: es).
    split; [done|]. constructor; [|done]. by apply encodes_char.
Qed.

End Quote.

(** C6.  A link path that is rewritten (it targets the old folder and has
    at least one segment) becomes the new path, the relative folder path
    joined with the remaining segments, written character by character by
    [quote] with [/:._-()] safe: each of [/ : . _ - ( )] stays as it is, a
    space becomes [%20], and a non-ASCII character becomes the escapes of
    its UTF-8 bytes. *)
Theorem rewrite_path_url_encoded (old_dirnames : list str) (rel_to_imgs orig_path : str)
    (first : str) (rest : list str) (out : str) :
  targets_old old_dirnames orig_path = true ->
  PosixPath.parts (Url.unquote orig_path) = first :: rest ->
  rewrite_path old_dirnames rel_to_imgs orig_path = Some out ->
  exists es, out = concat es /\
    Forall2 encodes (join (lit "/") (rel_to_imgs :: rest)) es.
Proof.
  intros Hold Hparts. unfold rewrite_path. fold (targets_old old_dirnames orig_path).
  rewrite Hold, Hparts. simpl negb. cbv iota.
  apply quote_encodes.
Qed.

(** A link with a space and the old folder name: the space comes out as
    [%20] and [/ . _ - ( )] as they are. *)
Lemma rewrite_path_url_encoded_witness :
  rewrite_path [lit "Intro"] (lit "lecture 01") (lit "Intro/my img_(1)-a.b.png")
    = Some (lit "lecture%2001/my%20img_(1)-a.b.png") /\
  exists es, lit "lecture%2001/my%20img_(1)-a.b.png" = concat es /\
    Forall2 encodes (lit "lecture 01/my img_(1)-a.b.png") es.
Proof.
  split; [vm_compute; reflexivity|].
  apply (rewrite_path_url_encoded [lit "Intro"] (lit "lecture 01")
           (lit "Intro/my img_(1)-a.b.png") (lit "Intro") [lit "my img_(1)-a.b.png"]).
  - vm_compute. reflexivity.
  - vm_compute. reflexivity.
  - vm_compute. reflexivity.
Defined.

(** ** Link Rewriter: scanning and substitution *)

Section Scanning.

Lemma span_until_spec stop s a r :
  Re.span_until stop s = Some (a, r) -> s = a ++ stop :: r /\ stop ∉ a.
Proof.
  revert a r. induction s as [|c s IH]; intros a r; simpl; [done|].
  destruct (char_eqb c stop) eqn:E.
  - apply char_eqb_eq in E as ->. intros [= <- <-]. split; [done|]. apply not_elem_of_nil.
  - apply char_eqb_neq in E.
    destruct (Re.span_until stop s) as [[a' r']|]; [|done].
    intros [= <- <-]. destruct (IH a' r' eq_refl) as [-> Ha]. split; [done|].
    rewrite not_elem_of_cons. split; [congruence|done].
Qed.

Lemma match_link_spec s g0 g1 :
  Re.match_link s = Some (g0, g1) ->
  exists alt rest, g0 = 91 :: alt ++ 93 :: 40 :: g1 ++ [41] /\ s = g0 ++ rest /\
    (93 ∉ alt) /\ (41 ∉ g1) /\ g1 <> [].
Proof.
  unfold Re.match_link. destruct s as [|c s1]; [done|].
  destruct (N.eq_dec c 91) as [->|Hc].
  2:{ destruct c as [|p]; [done|]. do 7 (destruct p as [p|p|]; try done). }
  destruct (Re.span_until 93 s1) as [[alt r]|] eqn:E1; [|done].
  apply span_until_spec in E1 as [-> Halt].
  destruct r as [|d s2]; [done|].
  destruct (N.eq_dec d 40) as [->|Hd].
  2:{ destruct d as [|p]; [done|]. do 6 (destruct p as [p|p|]; try done). }
  destruct (Re.span_until 41 s2) as [[path r]|] eqn:E2; [|done].
  apply span_until_spec in E2 as [-> Hpath].
  destruct path as [|x path]; [done|].
  intros [= <- <-]. exists alt, r. repeat split; try done.
  simpl. f_equal. rewrite <- !app_assoc. simpl. f_equal. f_equal. f_equal.
  by rewrite <- app_assoc.
Qed.

Lemma image_spec prev s g0 g1 :
  Re.image prev s = Some (g0, g1) ->
  exists alt rest, g0 = 33 :: 91 :: alt ++ 93 :: 40 :: g1 ++ [41] /\ s = g0 ++ rest /\
    (93 ∉ alt) /\ (41 ∉ g1) /\ g1 <> [].
Proof.
  unfold Re.image. destruct s as [|c s']; [done|].
  destruct (N.eq_dec c 33) as [->|Hc].
  2:{ destruct c as [|p]; [done|]. do 6 (destruct p as [p|p|]; try done). }
  destruct (Re.match_link s') as [[h0 h1]|] eqn:E; [|done].
  intros [= <- <-]. apply match_link_spec in E as (alt & rest & -> & -> & ? & ? & ?).
  by exists alt, rest.
Qed.

Lemma generic_spec prev s g0 g1 :
  Re.generic prev s = Some (g0, g1) ->
  exists alt rest, g0 = 91 :: alt ++ 93 :: 40 :: g1 ++ [41] /\ s = g0 ++ rest /\
    (93 ∉ alt) /\ (41 ∉ g1) /\ g1 <> [].
Proof.
  unfold Re.generic. intros H. apply match_link_spec.
  destruct prev as [c|]; [|done].
  destruct (N.eq_dec c 33) as [->|Hc]; [done|].
  destruct c as [|p]; [done|]. by do 6 (destruct p as [p|p|]; try done).
Qed.

Lemma image_sound : sound Re.image.
Proof.
  intros prev s g0 g1 (alt & rest & -> & -> & _)%image_spec. split; [done|]. by exists rest.
Qed.

Lemma generic_sound : sound Re.generic.
Proof.
  intros prev s g0 g1 (alt & rest & -> & -> & _)%generic_spec. split; [done|]. by exists rest.
Qed.

(** Passing over the rest of a match. *)
Lemma scan_skip pat prev x y :
  exists prev', Re.scan pat prev (length x) (x ++ y) = Re.scan pat prev' 0 y.
Proof.
  revert prev. induction x as [|c x IH]; intros prev; simpl; [by exists prev|].
  apply IH.
Qed.

(** The pieces of a scan make up the scanned text. *)
Lemma scan_flatten pat :
  sound pat -> forall n s prev, (length s <= n)%nat -> flatten (Re.scan pat prev 0 s) = s.
Proof.
  intros Hpat. induction n as [|n IH]; intros s prev Hn.
  - destruct s; [done|simpl in Hn; lia].
  - destruct s as [|c s']; [done|]. simpl.
    destruct (pat prev (c :: s')) as [[g0 g1]|] eqn:E.
    + destruct (Hpat _ _ _ _ E) as [Hne [rest Hs]].
      destruct g0 as [|d g0']; [done|]. injection Hs as <- ->.
      simpl. rewrite Nat.sub_0_r.
      destruct (scan_skip pat (Some c) g0' rest) as [prev' ->].
      rewrite IH; [done|]. simpl in Hn. rewrite length_app in Hn. lia.
    + simpl. rewrite IH; [done|]. simpl in Hn. lia.
Qed.

(** A substitution that returns every match unchanged returns the text. *)
Lemma render_unchanged repl ps :
  (forall g0 g1, Re.Hit g0 g1 ∈ ps -> repl g0 g1 = Some g0) ->
  Re.render repl ps = Some (flatten ps).
Proof.
  induction ps as [|[c|g0 g1] ps IH]; intros H; simpl; [done| |].
  - rewrite IH; [done|]. intros. apply H. by right.
  - rewrite H by left. simpl. rewrite IH; [done|]. intros. apply H. by right.
Qed.

Lemma elem_of_captures pat s g0 g1 :
  Re.Hit g0 g1 ∈ Re.scan pat None 0 s -> g1 ∈ Re.captures pat s.
Proof.
  intros H. unfold Re.captures. apply list_elem_of_omap. by exists (Re.Hit g0 g1).
Qed.

Lemma sub_unchanged pat repl s :
  sound pat ->
  (forall g0 g1, g1 ∈ Re.captures pat s -> repl g0 g1 = Some g0) ->
  Re.sub pat repl s = Some s.
Proof.
  intros Hpat H. unfold Re.sub. rewrite render_unchanged.
  - by rewrite (scan_flatten pat Hpat (length s)).
  - intros g0 g1 Hin. eapply H, elem_of_captures, Hin.
Qed.

Lemma startswith_spec p s : startswith p s = true <-> exists r, s = p ++ r.
Proof.
  revert s. induction p as [|x p IH]; intros s; simpl.
  - split; [by exists s|done].
  - destruct s as [|y s]; [split; [done|by intros [? ?]]|].
    rewrite andb_true_iff, char_eqb_eq, IH. split.
    + intros [-> [r ->]]. by exists r.
    + intros [r [= -> ->]]. split; [done|by exists r].
Qed.

Lemma replace_from_skip old new x y :
  Re.replace_from old new (length x) (x ++ y) = Re.replace_from old new 0 y.
Proof. induction x as [|c x IH]; simpl; done. Qed.

(** Replacing a string by itself changes nothing. *)
Lemma replace_same old s : Re.replace old old s = s.
Proof.
  unfold Re.replace. destruct old as [|o old'].
  - simpl. induction s as [|c s IH]; simpl; [done|]. by rewrite IH.
  - remember (o :: old') as old eqn:Eold.
    assert (H : forall n s, (length s <= n)%nat -> Re.replace_from old old 0 s = s).
    { induction n as [|n IH]; intros s' Hn.
      - destruct s'; [done|simpl in Hn; lia].
      - destruct s' as [|c s'']; [done|]. cbn [Re.replace_from].
        destruct (startswith old (c :: s'')) eqn:E.
        + apply startswith_spec in E as [r Hr]. rewrite Hr. subst old.
          injection Hr as -> ->. simpl. rewrite Nat.sub_0_r.
          rewrite replace_from_skip, IH; [done|].
          simpl in Hn. rewrite length_app in Hn. lia.
        + rewrite IH; [done|]. simpl in Hn. lia. }
    by apply (H (length s)).
Qed.

Lemma rewrite_path_untargeted olds rel p :
  targets_old olds p = false -> rewrite_path olds rel p = Some p.
Proof. unfold rewrite_path. fold (targets_old olds p). by intros ->. Qed.

Lemma repl_untargeted olds rel g0 p :
  targets_old olds p = false -> repl olds rel g0 p = Some g0.
Proof.
  intros H. unfold repl. rewrite rewrite_path_untargeted by done.
  simpl. by rewrite replace_same.
Qed.


End Scanning.

(** ** Link Rewriter: what [replace_links] does to the file system *)

Section ReplaceLinks.

Lemma with_suffix_bak (md_path : list (list N)) :
  PosixPath.with_suffix md_path (PurePath.suffix (FS.name md_path) ++ lit ".bak")
  = bak_of md_path.
Proof.
  unfold PosixPath.with_suffix, bak_of, PurePath.suffix. f_equal.
  destruct (PurePath.suffix_start (FS.name md_path)) as [i|]; [|done].
  by rewrite app_assoc, take_drop.
Qed.

Lemma path_split (p : list (list N)) : p <> [] -> p = FS.parent p ++ [FS.name p].
Proof.
  intros Hp. unfold FS.parent, FS.name.
  destruct (last_item p) as [n|] eqn:E.
  - by apply last_item_split_app.
  - destruct p as [|x p]; [done|]. exfalso. clear Hp. revert x E.
    induction p as [|y p IH]; intros x; simpl; [done|]. apply IH.
Qed.

Lemma bak_of_neq (md_path : list (list N)) : md_path <> [] -> bak_of md_path <> md_path.
Proof.
  intros Hp E. unfold bak_of in E. rewrite (path_split md_path Hp) in E at 3.
  apply app_inj_tail in E as [_ E]. apply (f_equal (@length _)) in E.
  rewrite length_app in E. simpl in E. lia.
Qed.

Lemma stat_nonempty (p : list (list N)) (m : gmap (list (list N)) FS.entry) :
  p <> [] -> FS.stat p m = m !! p.
Proof. by destruct p. Qed.

(** The run of [replace_links] on a readable document whose backup can be
    written: both files are written, then the report is made. *)
Lemma replace_links_run (md_path : list (list N)) (olds : list str)
    (new_img_dir_abs : list (list N)) (m : gmap (list (list N)) FS.entry)
    (text text' : str) :
  FS.stat md_path m = Some (FS.File text) ->
  FS.is_dir (FS.parent md_path) m = true ->
  FS.is_dir (bak_of md_path) m = false ->
  rewrite_text olds (PosixPath.relpath new_img_dir_abs (FS.parent md_path)) text
    = Some text' ->
  let m' := <[md_path := FS.File text']> (<[bak_of md_path := FS.File text]> m) in
  replace_links md_path olds new_img_dir_abs m
  = (FS.Ok (report_missing (FS.name md_path)
              (missing_links (FS.parent md_path) text' m')), m').
Proof.
  intros Hmd Hparent Hbak Hrw m'.
  assert (Hne : md_path <> []) by (intros ->; done).
  unfold replace_links, mbind, M_bind, FS.bind, FS.read_text.
  rewrite Hmd, Hrw, Hmd, with_suffix_bak.
  assert (Hw1 : FS.write_text (bak_of md_path) text m
                = (FS.Ok tt, <[bak_of md_path := FS.File text]> m)).
  { unfold FS.write_text. unfold FS.is_dir in Hbak.
    destruct (FS.stat (bak_of md_path) m) as [[|]|] eqn:E; try done.
    unfold FS.parent_error. unfold bak_of at 1 2.
    destruct (FS.parent md_path ++ _) eqn:E'; [by destruct (FS.parent md_path)|].
    rewrite <- E'. fold (bak_of md_path).
    assert (FS.parent (bak_of md_path) = FS.parent md_path) as ->.
    { unfold bak_of, FS.parent at 1. by rewrite but_last_snoc. }
    unfold FS.is_dir in Hparent.
    by destruct (FS.stat (FS.parent md_path) m) as [[|]|]. }
  rewrite Hw1.
  unfold FS.write_text. rewrite stat_nonempty by done.
  rewrite lookup_insert_ne by by apply bak_of_neq.
  rewrite stat_nonempty in Hmd by done. by rewrite Hmd.
Qed.

End ReplaceLinks.



(** ** Link Rewriter: the report of missing images *)

Section Report.





End Report.



(** ** Folder Renamer: what a merge leaves in place *)

Section Frame.

Implicit Types (src dst p t q : list (list N)) (m : gmap (list (list N)) FS.entry).

Lemma preserved_refl src dst m : preserved src dst m m.
Proof. by intros q Hq. Qed.

Lemma preserved_trans src dst m1 m2 m3 :
  preserved src dst m1 m2 -> preserved src dst m2 m3 -> preserved src dst m1 m3.
Proof.
  intros H12 H23 q Hq. destruct (H12 q Hq) as [Ha Hb], (H23 q Hq) as [Hc Hd].
  split; [auto|]. intros Hdst. by rewrite Hd, Hb.
Qed.

Lemma preserved_weaken src dst p t m m' :
  src `prefix_of` p -> dst `prefix_of` t ->
  preserved p t m m' -> preserved src dst m m'.
Proof.
  intros Hsp Hdt H q Hq.
  assert (Hpq : ~ p `prefix_of` q) by (intros Hpq; apply Hq; by etrans).
  destruct (H q Hpq) as [Ha Hb]. split; [done|].
  intros Hdq. apply Hb. intros Htq. apply Hdq. by etrans.
Qed.

Lemma preserved_insert_fresh src dst t e m :
  dst `prefix_of` t -> m !! t = None -> preserved src dst m (<[t := e]> m).
Proof.
  intros Hdt Ht q Hq. split.
  - intros e' He'. rewrite lookup_insert_ne; [done|]. intros <-. congruence.
  - intros Hdq. rewrite lookup_insert_ne; [done|]. by intros <-.
Qed.

Lemma preserved_delete src dst p m :
  src `prefix_of` p -> preserved src dst m (delete p m).
Proof.
  intros Hsp q Hq.
  assert (p <> q) by by intros <-.
  split; [intros e He|intros _]; by rewrite lookup_delete_ne.
Qed.

Lemma mkdir_preserved src dst t m r m' :
  dst `prefix_of` t -> FS.mkdir_exist_ok t m = (r, m') ->
  preserved src dst m m' /\ (r = FS.Ok tt -> FS.exists_ t m' = true).
Proof.
  intros Hdt. unfold FS.mkdir_exist_ok, FS.exists_.
  destruct (FS.stat t m) as [[c|]|] eqn:E.
  - intros [= <- <-]. split; [apply preserved_refl|done].
  - intros [= <- <-]. split; [apply preserved_refl|]. by rewrite E.
  - destruct (FS.parent_error t m) as [e|].
    + intros [= <- <-]. split; [apply preserved_refl|done].
    + intros [= <- <-]. destruct t as [|x t]; [done|]. simpl in *. split.
      * by apply preserved_insert_fresh.
      * by rewrite lookup_insert_eq.
Qed.

(** Moving a file to a path that does not exist. *)
Lemma move_file_fresh p t m :
  FS.is_dir p m = false -> FS.exists_ t m = false ->
  FS.move p t m =
  match FS.stat p m with
  | Some (FS.File text) =>
      if decide (p = t) then (FS.Ok tt, m)
      else match FS.parent_error t m with
           | Some e => (FS.Raise e, m)
           | None => (FS.Ok tt, <[t := FS.File text]> (delete p m))
           end
  | _ => (FS.Raise FS.FileNotFoundError, m)
  end.
Proof.
  intros Hp Ht. unfold FS.move.
  assert (Hd : FS.is_dir t m = false).
  { unfold FS.is_dir, FS.exists_ in *. by destruct (FS.stat t m). }
  rewrite Hd. simpl. rewrite Hp. unfold FS.rename.
  unfold FS.is_dir, FS.exists_ in *.
  destruct (FS.stat p m) as [[text|]|]; try done.
  destruct (decide (p = t)); [done|].
  destruct (FS.stat t m); [done|].
  by destruct (FS.parent_error t m).
Qed.

Lemma move_file_preserved src dst p t m r m' :
  src `prefix_of` p -> dst `prefix_of` t ->
  FS.is_dir p m = false -> FS.exists_ t m = false ->
  FS.move p t m = (r, m') -> preserved src dst m m'.
Proof.
  intros Hsp Hdt Hp Ht. rewrite move_file_fresh by done.
  destruct (FS.stat p m) as [[text|]|]; try (intros [= <- <-]; apply preserved_refl).
  destruct (decide (p = t)); [intros [= <- <-]; apply preserved_refl|].
  destruct (FS.parent_error t m); intros [= <- <-]; [apply preserved_refl|].
  eapply preserved_trans; [by apply (preserved_delete src dst p)|].
  apply preserved_insert_fresh; [done|].
  rewrite lookup_delete_ne by done.
  unfold FS.exists_, FS.stat in Ht. destruct t; [done|]. by destruct (m !! _).
Qed.

Lemma rmdir_preserved src dst m r m' :
  FS.rmdir src m = (r, m') -> preserved src dst m m'.
Proof.
  unfold FS.rmdir. destruct src as [|x src]; [intros [= <- <-]; apply preserved_refl|].
  destruct (FS.stat (x :: src) m) as [[text|]|];
    try (intros [= <- <-]; apply preserved_refl).
  destruct (FS.listdir (x :: src) m); intros [= <- <-];
    [by apply preserved_delete|apply preserved_refl].
Qed.

Lemma for_each_preserved {A} src dst (body : A -> FS.M unit) (l : list A) m r m' :
  (forall x m1 r1 m2, x ∈ l -> body x m1 = (r1, m2) -> preserved src dst m1 m2) ->
  FS.for_each l body m = (r, m') -> preserved src dst m m'.
Proof.
  revert m. induction l as [|x l IH]; intros m Hbody; simpl.
  - intros [= <- <-]. apply preserved_refl.
  - unfold FS.bind. destruct (body x m) as [[[]|e] m1] eqn:E.
    + intros Hrest. eapply preserved_trans.
      * eapply Hbody; [by left|done].
      * eapply IH; [|done]. intros y ? ? ? Hy. apply Hbody. by right.
    + intros [= <- <-]. eapply Hbody; [by left|done].
Qed.

(** Whatever [rename_folder] does and however it ends, when the
    destination exists it keeps every entry outside the source and changes
    nothing outside the source and the destination. *)
Lemma rename_folder_preserved limit src dst m r m' :
  FS.exists_ dst m = true ->
  rename_folder limit src dst m = (r, m') -> preserved src dst m m'.
Proof.
  revert src dst m r m'. induction limit as [|limit IH]; intros src dst m r m' Hdst; simpl.
  - intros [= <- <-]. apply preserved_refl.
  - destruct (decide (src = dst)); [intros [= <- <-]; apply preserved_refl|].
    rewrite Hdst. unfold mbind, M_bind, FS.bind, FS.iterdir.
    destruct (FS.stat src m) as [[text|]|];
      try (intros [= <- <-]; apply preserved_refl).
    match goal with
    | |- context [FS.for_each ?l ?b m] => destruct (FS.for_each l b m) as [[[]|e] m1] eqn:E
    end.
    + intros Hrm. eapply preserved_trans; [|by eapply rmdir_preserved].
      eapply for_each_preserved; [|exact E].
      intros p m2 r2 m3 Hp Hbody. apply list_elem_of_fmap in Hp as (nm & -> & _).
      rewrite name_snoc in Hbody.
      destruct (FS.is_dir (src ++ [nm]) m2) eqn:Hd.
      * unfold FS.bind in Hbody.
        destruct (FS.mkdir_exist_ok (dst ++ [nm]) m2) as [[[]|e2] m4] eqn:Emk.
        -- apply (mkdir_preserved src dst) in Emk as [Hmk Hex];
             [|by apply prefix_app_r].
           eapply preserved_trans; [exact Hmk|].
           eapply (preserved_weaken src dst (src ++ [nm]) (dst ++ [nm]));
             [by apply prefix_app_r|by apply prefix_app_r|].
           eapply IH; [by apply Hex|exact Hbody].
        -- injection Hbody as <- <-.
           by apply (mkdir_preserved src dst) in Emk as [Hmk _];
             [|apply prefix_app_r].
      * destruct (FS.exists_ (dst ++ [nm]) m2) eqn:Hex.
        -- injection Hbody as <- <-. apply preserved_refl.
        -- eapply move_file_preserved; [| | | |exact Hbody]; try done;
             by apply prefix_app_r.
    + intros [= <- <-]. eapply for_each_preserved; [|exact E].
      intros p m2 r2 m3 Hp Hbody. apply list_elem_of_fmap in Hp as (nm & -> & _).
      rewrite name_snoc in Hbody.
      destruct (FS.is_dir (src ++ [nm]) m2) eqn:Hd.
      * unfold FS.bind in Hbody.
        destruct (FS.mkdir_exist_ok (dst ++ [nm]) m2) as [[[]|e2] m4] eqn:Emk.
        -- apply (mkdir_preserved src dst) in Emk as [Hmk Hex];
             [|by apply prefix_app_r].
           eapply preserved_trans; [exact Hmk|].
           eapply (preserved_weaken src dst (src ++ [nm]) (dst ++ [nm]));
             [by apply prefix_app_r|by apply prefix_app_r|].
           eapply IH; [by apply Hex|exact Hbody].
        -- injection Hbody as <- <-.
           by apply (mkdir_preserved src dst) in Emk as [Hmk _];
             [|apply prefix_app_r].
      * destruct (FS.exists_ (dst ++ [nm]) m2) eqn:Hex.
        -- injection Hbody as <- <-. apply preserved_refl.
        -- eapply move_file_preserved; [| | | |exact Hbody]; try done;
             by apply prefix_app_r.
Qed.

End Frame.

(** ** Folder Renamer: a merge without collisions *)

Section Merge.

Implicit Types (src dst p t q r : list (list N)) (m : gmap (list (list N)) FS.entry).

Lemma rename_folder_unfold limit src dst m :
  rename_folder (S limit) src dst m =
  if decide (src = dst) then (FS.Ok tt, m)
  else if FS.exists_ dst m then
    (ps ← FS.iterdir src;
     FS.for_each ps (merge_entry (rename_folder limit) dst);;
     FS.rmdir src) m
  else FS.move src dst m.
Proof. simpl. by destruct (decide (src = dst)). Qed.

Lemma apart_neq src dst a b : apart src dst -> src ++ a <> dst ++ b.
Proof.
  intros [H1 H2] E.
  destruct (prefix_weak_total src dst (src ++ a)) as [H|H]; [by exists a|by exists b|done|done].
Qed.

Lemma apart_children src dst n : apart src dst -> apart (src ++ [n]) (dst ++ [n]).
Proof.
  intros Hap. split; intros [k Hk].
  - apply (apart_neq src dst ([n] ++ k) [n] Hap). by rewrite app_assoc.
  - apply (apart_neq src dst [n] ([n] ++ k) Hap). by rewrite app_assoc.
Qed.

Lemma apart_nonempty src dst : apart src dst -> src <> [] /\ dst <> [].
Proof. intros [H1 H2]. split; intros ->; [apply H1|apply H2]; apply prefix_nil. Qed.

Lemma prefix_child src n q : src ++ [n] `prefix_of` q <-> exists r, q = src ++ n :: r.
Proof.
  split; intros [r ->]; [exists r|exists r]; by rewrite <- app_assoc.
Qed.

(** Below [src], an entry lies under an entry of [src] itself. *)
Lemma tree_wf_child src m n r :
  tree_wf src m -> is_Some (m !! (src ++ n :: r)) -> is_Some (m !! (src ++ [n])).
Proof.
  intros Hwf. induction r as [|x r IH] using rev_ind; [done|].
  intros H. apply IH. change (n :: r ++ [x]) with ((n :: r) ++ [x]) in H.
  by rewrite (Hwf (n :: r) x H).
Qed.

(** Below [src], nothing lies under a file. *)
Lemma tree_wf_file src m n text r :
  tree_wf src m -> m !! (src ++ [n]) = Some (FS.File text) -> r <> [] ->
  m !! (src ++ n :: r) = None.
Proof.
  intros Hwf Hfile. induction r as [|x r IH] using rev_ind; [done|]. intros _.
  destruct (m !! (src ++ n :: r ++ [x])) eqn:E; [exfalso|done].
  assert (Hd : m !! (src ++ n :: r) = Some FS.Dir).
  { apply (Hwf (n :: r) x). change (n :: r ++ [x]) with ((n :: r) ++ [x]) in E.
    by rewrite E. }
  destruct r as [|y r] using rev_ind; [congruence|].
  rewrite IH in Hd; [done|]. by destruct r.
Qed.

Lemma rmdir_empty p m :
  p <> [] -> m !! p = Some FS.Dir -> FS.listdir p m = [] ->
  FS.rmdir p m = (FS.Ok tt, delete p m).
Proof.
  intros Hp Hd Hl. destruct p as [|x p]; [done|].
  unfold FS.rmdir, FS.stat. by rewrite Hd, Hl.
Qed.

Section Loop.

Variables (limit : nat) (src dst : list (list N)) (m : gmap (list (list N)) FS.entry).
Hypothesis Hap : apart src dst.
Hypothesis Hsrc : m !! src = Some FS.Dir.
Hypothesis Hdst : m !! dst = Some FS.Dir.
Hypothesis Hwf : tree_wf src m.
Hypothesis Hfree : collision_free src dst m.
Hypothesis Hdepth : depth_below (S limit) src m.
Hypothesis IH : forall p t m1,
  apart p t -> m1 !! p = Some FS.Dir -> m1 !! t = Some FS.Dir ->
  tree_wf p m1 -> collision_free p t m1 -> depth_below limit p m1 ->
  exists m2, rename_folder limit p t m1 = (FS.Ok tt, m2) /\ grafted p t m1 m2.

(** Closes a goal from an equation between a path below [src] and a path
    below [dst], or between paths under two different names. *)
Ltac clash :=
  match goal with
  | E : _ ++ _ = _ ++ _ |- _ =>
      first [ by apply (apart_neq _ _ _ _ Hap) in E
            | symmetry in E; by apply (apart_neq _ _ _ _ Hap) in E
            | apply app_inv_head in E; congruence ]
  end.

Lemma merged_so_far_step done n m1 m2 :
  merged_so_far src dst m done m1 ->
  grafted (src ++ [n]) (dst ++ [n]) m1 m2 ->
  merged_so_far src dst m (n :: done) m2.
Proof.
  intros (I1 & I2 & I3) (G1 & G2 & G3).
  assert (Hother : forall n' r, n' <> n ->
            m2 !! (src ++ n' :: r) = m1 !! (src ++ n' :: r) /\
            m2 !! (dst ++ n' :: r) = m1 !! (dst ++ n' :: r)).
  { intros n' r Hn'. split; apply G3; rewrite prefix_child; intros [k Hk]; clash. }
  split; [|split].
  - intros n' r Hin. destruct (decide (n' = n)) as [->|Hne].
    + specialize (G1 (r)). by rewrite <- app_assoc in G1.
    + apply elem_of_cons in Hin as [?|Hin]; [done|].
      destruct (Hother n' r Hne) as [-> _]. by apply I1.
  - intros n' r Hin. destruct (decide (n' = n)) as [->|Hne].
    + specialize (G2 r). rewrite <- !app_assoc in G2. simpl in G2. rewrite G2.
      destruct (decide (n ∈ done)) as [Hd|Hd].
      * by rewrite I1, I2.
      * rewrite !I3; [done| |]; intros n' r' Hn'; split; intros E; clash.
    + apply elem_of_cons in Hin as [?|Hin]; [done|].
      destruct (Hother n' r Hne) as [_ ->]. by apply I2.
  - intros q Hq. rewrite G3.
    + apply I3. intros n' r Hin. apply Hq. by right.
    + rewrite prefix_child. intros [r ->]. by destruct (Hq n r) as [? _]; [left|].
    + rewrite prefix_child. intros [r ->]. by destruct (Hq n r) as [_ ?]; [left|].
Qed.

(** What the loop has not reached is as it was. *)
Lemma merged_so_far_src done m1 n r :
  merged_so_far src dst m done m1 -> n ∉ done -> m1 !! (src ++ n :: r) = m !! (src ++ n :: r).
Proof.
  intros (_ & _ & I3) Hn. apply I3. intros n' r' Hin. split; intros E; clash.
Qed.

Lemma merged_so_far_dst done m1 n r :
  merged_so_far src dst m done m1 -> n ∉ done -> m1 !! (dst ++ n :: r) = m !! (dst ++ n :: r).
Proof.
  intros (_ & _ & I3) Hn. apply I3. intros n' r' Hin. split; intros E; clash.
Qed.

Lemma merged_so_far_roots done m1 :
  merged_so_far src dst m done m1 -> m1 !! src = Some FS.Dir /\ m1 !! dst = Some FS.Dir.
Proof.
  intros (_ & _ & I3). split; rewrite I3; try done; intros n r _; split; intros E;
    try (apply (f_equal (@length _)) in E; rewrite length_app in E; simpl in E; lia).
  - rewrite <- (app_nil_r src) in E at 1. clash.
  - rewrite <- (app_nil_r dst) in E at 1. clash.
Qed.

Lemma merge_entry_step done n m1 :
  is_Some (m !! (src ++ [n])) -> merged_so_far src dst m done m1 ->
  exists m2,
    merge_entry (rename_folder limit) dst (src ++ [n]) m1 = (FS.Ok tt, m2) /\
    merged_so_far src dst m (n :: done) m2.
Proof.
  intros [e He] Hinv. unfold merge_entry. rewrite name_snoc.
  pose proof Hinv as (I1 & I2 & I3).
  destruct (merged_so_far_roots _ _ Hinv) as [Hs1 Hd1].
  destruct (apart_nonempty _ _ Hap) as [Hsne Hdne].
  destruct (decide (n ∈ done)) as [Hin|Hnin].
  - (* the name came up before: its source is gone and its target exists *)
    assert (Hp : m1 !! (src ++ [n]) = None) by apply (I1 n [] Hin).
    assert (Ht : is_Some (m1 !! (dst ++ [n]))).
    { rewrite (I2 n [] Hin), He. by eexists. }
    destruct Ht as [e' Ht].
    unfold FS.is_dir, FS.exists_. rewrite !stat_snoc, Hp, Ht.
    eexists. split; [done|]. apply (merged_so_far_step done n m1); [done|].
    split; [|split]; [| |done].
    + intros r. rewrite <- app_assoc. by apply I1.
    + intros r. rewrite <- !app_assoc. simpl. by rewrite I1.
  - assert (Hp : forall r, m1 !! (src ++ n :: r) = m !! (src ++ n :: r))
      by (intros r; by apply (merged_so_far_src done)).
    assert (Ht : forall r, m1 !! (dst ++ n :: r) = m !! (dst ++ n :: r))
      by (intros r; by apply (merged_so_far_dst done)).
    assert (Hpt : src ++ [n] <> dst ++ [n]) by (intros E; clash).
    destruct e as [text|].
    + (* a file: it moves to the free target *)
      assert (Hfresh : m !! (dst ++ [n]) = None).
      { destruct (m !! (dst ++ [n])) as [e'|] eqn:E; [|done].
        by destruct (Hfree [n] _ _ ltac:(done) He E). }
      assert (Hd : FS.is_dir (src ++ [n]) m1 = false).
      { unfold FS.is_dir. by rewrite stat_snoc, (Hp []), He. }
      assert (Hx : FS.exists_ (dst ++ [n]) m1 = false).
      { unfold FS.exists_. by rewrite stat_snoc, (Ht []), Hfresh. }
      rewrite Hd, Hx, move_file_fresh by done.
      rewrite stat_snoc, (Hp []), He, decide_False by done.
      assert (FS.parent_error (dst ++ [n]) m1 = None) as ->.
      { unfold FS.parent_error, FS.parent. rewrite but_last_snoc.
        destruct (dst ++ [n]) eqn:E; [by destruct dst|].
        by rewrite stat_nonempty, Hd1. }
      eexists. split; [done|]. apply (merged_so_far_step done n m1); [done|].
      split; [|split].
      * intros r. rewrite <- app_assoc. simpl.
        rewrite lookup_insert_ne by (intros E; clash).
        destruct r as [|x r]; [by rewrite lookup_delete_eq|].
        rewrite lookup_delete_ne.
        -- rewrite Hp. by apply (tree_wf_file src m n text).
        -- intros E. apply app_inv_head in E. done.
      * intros r. rewrite <- !app_assoc. simpl.
        destruct r as [|x r]; [by rewrite lookup_insert_eq, (Hp []), He|].
        rewrite lookup_insert_ne by (intros E; apply app_inv_head in E; done).
        rewrite lookup_delete_ne by (intros E; clash).
        rewrite Hp, (tree_wf_file src m n text) by done. done.
      * intros q Hq1 Hq2. rewrite lookup_insert_ne by by intros <-.
        by rewrite lookup_delete_ne by by intros <-.
    + (* a directory: the target is made when missing, then the nested call *)
      assert (Hd : FS.is_dir (src ++ [n]) m1 = true).
      { unfold FS.is_dir. by rewrite stat_snoc, (Hp []), He. }
      rewrite Hd. unfold mbind, M_bind, FS.bind.
      assert (Hmk : exists m1',
                FS.mkdir_exist_ok (dst ++ [n]) m1 = (FS.Ok tt, m1') /\
                m1' !! (dst ++ [n]) = Some FS.Dir /\
                (forall q, q <> dst ++ [n] -> m1' !! q = m1 !! q)).
      { unfold FS.mkdir_exist_ok. rewrite stat_snoc, (Ht []).
        destruct (m !! (dst ++ [n])) as [[text|]|] eqn:E.
        - by destruct (Hfree [n] _ _ ltac:(done) He E).
        - exists m1. by rewrite (Ht []).
        - assert (FS.parent_error (dst ++ [n]) m1 = None) as ->.
          { unfold FS.parent_error, FS.parent. rewrite but_last_snoc.
            destruct (dst ++ [n]) eqn:E'; [by destruct dst|].
            by rewrite stat_nonempty, Hd1. }
          eexists. split; [done|]. split; [by rewrite lookup_insert_eq|].
          intros q Hq. by rewrite lookup_insert_ne. }
      destruct Hmk as (m1' & -> & Ht' & Hsame).
      assert (Hp' : forall r, m1' !! (src ++ n :: r) = m !! (src ++ n :: r)).
      { intros r. rewrite Hsame by (intros E; clash). apply Hp. }
      assert (Ht'' : forall r, r <> [] -> m1' !! (dst ++ n :: r) = m !! (dst ++ n :: r)).
      { intros r Hr. rewrite Hsame; [apply Ht|].
        intros E. apply app_inv_head in E. injection E as ->. done. }
      destruct (IH (src ++ [n]) (dst ++ [n]) m1') as (m2 & Hrun & G1 & G2 & G3).
      * by apply apart_children.
      * by rewrite (Hp' []).
      * done.
      * intros r x. rewrite <- !app_assoc. simpl. rewrite Hp'.
        change (n :: r ++ [x]) with ((n :: r) ++ [x]). rewrite Hp'. apply (Hwf (n :: r) x).
      * intros r e1 e2 Hr. rewrite <- !app_assoc. simpl. rewrite Hp', Ht'' by done.
        by apply Hfree.
      * intros r. rewrite <- app_assoc. simpl. rewrite Hp'. intros H%Hdepth.
        simpl in H. lia.
      * exists m2. split; [done|]. apply (merged_so_far_step done n m1); [done|].
        split; [done|]. split.
        -- intros r. rewrite G2. rewrite <- !app_assoc. simpl. rewrite Hp', Hp.
           destruct (m !! (src ++ n :: r)) eqn:E; [done|].
           destruct r as [|x r]; [congruence|]. by rewrite Ht'', Ht.
        -- intros q Hq1 Hq2. rewrite G3 by done. apply Hsame. by intros ->.
Qed.

Lemma merge_loop ns :
  forall done m1,
    (forall n, n ∈ ns -> is_Some (m !! (src ++ [n]))) ->
    merged_so_far src dst m done m1 ->
    exists m2,
      FS.for_each (map (fun n => src ++ [n]) ns) (merge_entry (rename_folder limit) dst) m1
      = (FS.Ok tt, m2) /\
      merged_so_far src dst m (rev ns ++ done) m2.
Proof.
  induction ns as [|n ns IHns]; intros done m1 Hns Hinv; [by exists m1|].
  destruct (merge_entry_step done n m1) as (m2 & Hstep & Hinv2); [apply Hns; by left|done|].
  destruct (IHns (n :: done) m2) as (m3 & Hloop & Hinv3);
    [intros; apply Hns; by right|done|].
  exists m3. split.
  - simpl. unfold FS.bind. by rewrite Hstep.
  - simpl. by rewrite <- app_assoc.
Qed.

(** One level of a merge without collisions. *)
Lemma rename_folder_level :
  exists m', rename_folder (S limit) src dst m = (FS.Ok tt, m') /\ grafted src dst m m'.
Proof.
  destruct (apart_nonempty _ _ Hap) as [Hsne Hdne].
  rewrite rename_folder_unfold.
  rewrite decide_False by (intros ->; by destruct Hap as [[] _]).
  unfold FS.exists_. rewrite stat_nonempty, Hdst by done.
  unfold mbind, M_bind, FS.bind, FS.iterdir. rewrite stat_nonempty, Hsrc by done.
  destruct (merge_loop (FS.listdir src m) [] m) as (mk & -> & Hinv).
  { intros n Hn. by apply elem_of_listdir. }
  { split; [|split]; [by intros ? ? ?%elem_of_nil..|done]. }
  rewrite app_nil_r in Hinv.
  destruct (merged_so_far_roots _ _ Hinv) as [Hs1 Hd1].
  pose proof Hinv as (I1 & I2 & I3).
  assert (Hnone : forall n r, n ∉ FS.listdir src m -> m !! (src ++ n :: r) = None).
  { intros n r Hn. destruct (m !! (src ++ n :: r)) eqn:E; [exfalso|done].
    apply Hn, elem_of_listdir. apply (tree_wf_child src m n r Hwf). by rewrite E. }
  assert (Hgone : forall n r, mk !! (src ++ n :: r) = None).
  { intros n r. destruct (decide (n ∈ FS.listdir src m)) as [Hn|Hn].
    - apply I1. by apply elem_of_rev.
    - rewrite (merged_so_far_src _ mk n r Hinv) by by rewrite elem_of_rev.
      by apply Hnone. }
  assert (El : FS.listdir src mk = []).
  { destruct (FS.listdir src mk) as [|x l] eqn:El; [done|exfalso].
    assert (Hx : x ∈ FS.listdir src mk) by (rewrite El; by left).
    apply elem_of_listdir in Hx as [e He]. by rewrite Hgone in He. }
  rewrite rmdir_empty by done.
  eexists. split; [done|]. split; [|split].
  - intros r. destruct r as [|n r]; [by rewrite app_nil_r, lookup_delete_eq|].
    rewrite lookup_delete_ne; [apply Hgone|].
    intros E. apply (f_equal (@length _)) in E. rewrite length_app in E. simpl in E. lia.
  - intros r. rewrite lookup_delete_ne by (intros E; rewrite <- (app_nil_r src) in E at 1; clash).
    destruct r as [|n r]; [by rewrite !app_nil_r, Hd1, Hsrc|].
    destruct (decide (n ∈ FS.listdir src m)) as [Hn|Hn].
    + apply I2. by apply elem_of_rev.
    + rewrite (merged_so_far_dst _ mk n r Hinv) by by rewrite elem_of_rev.
      by rewrite Hnone.
  - intros q Hq1 Hq2. rewrite lookup_delete_ne by by intros <-.
    apply I3. intros n r _. split; intros ->; [apply Hq1|apply Hq2]; by eexists.
Qed.

End Loop.

End Merge.

Section MergeAll.

Implicit Types (src dst : list (list N)) (m : gmap (list (list N)) FS.entry).

(** A merge without collisions, to any depth the limit allows. *)
Lemma rename_folder_grafts limit :
  forall src dst m,
    apart src dst -> m !! src = Some FS.Dir -> m !! dst = Some FS.Dir ->
    tree_wf src m -> collision_free src dst m -> depth_below limit src m ->
    exists m', rename_folder limit src dst m = (FS.Ok tt, m') /\ grafted src dst m m'.
Proof.
  induction limit as [|limit IH]; intros src dst m Hap Hsrc Hdst Hwf Hfree Hdepth.
  - specialize (Hdepth []). rewrite app_nil_r, Hsrc in Hdepth.
    assert (0 < 0)%nat by (apply Hdepth; by eexists). lia.
  - by apply rename_folder_level.
Qed.

Lemma apart_below src dst r : apart src dst -> ~ src `prefix_of` dst ++ r.
Proof.
  intros Hap [k Hk]. symmetry in Hk. by apply (apart_neq _ _ _ _ Hap) in Hk.
Qed.

End MergeAll.

(** C1 (as amended).  Let [src] and [dst] be directories neither of which
    lies in the other, [dst] existing.  However the call ends, every file of
    [dst] is in place with its content.  When moreover no relative path is
    present on both sides except as a directory on both, and the nesting of
    [src] stays below the recursion limit, the call returns, [src] and all
    below it are gone, and every file of [src] is found under [dst] at the
    same relative path. *)
Theorem rename_folder_merges (limit : nat) (src dst : list (list N))
    (m : gmap (list (list N)) FS.entry) :
  apart src dst -> m !! dst = Some FS.Dir ->
  (forall res m', rename_folder limit src dst m = (res, m') ->
     forall r text, m !! (dst ++ r) = Some (FS.File text) ->
       m' !! (dst ++ r) = Some (FS.File text)) /\
  (m !! src = Some FS.Dir -> tree_wf src m -> collision_free src dst m ->
   depth_below limit src m ->
   exists m',
     rename_folder limit src dst m = (FS.Ok tt, m') /\
     (forall r, m' !! (src ++ r) = None) /\
     (forall r text, m !! (src ++ r) = Some (FS.File text) ->
        m' !! (dst ++ r) = Some (FS.File text)) /\
     (forall r text, m !! (dst ++ r) = Some (FS.File text) ->
        m' !! (dst ++ r) = Some (FS.File text))).
Proof.
  intros Hap Hdst.
  assert (Hex : FS.exists_ dst m = true).
  { unfold FS.exists_. destruct (apart_nonempty _ _ Hap) as [_ Hne].
    by rewrite stat_nonempty, Hdst. }
  assert (Hkeep : forall res m', rename_folder limit src dst m = (res, m') ->
            forall r text, m !! (dst ++ r) = Some (FS.File text) ->
              m' !! (dst ++ r) = Some (FS.File text)).
  { intros res m' Hrun r text Hfile.
    apply (rename_folder_preserved limit src dst m res m' Hex Hrun (dst ++ r));
      [by apply apart_below|done]. }
  split; [exact Hkeep|].
  intros Hsrc Hwf Hfree Hdepth.
  destruct (rename_folder_grafts limit src dst m) as (m' & Hrun & G1 & G2 & G3); try done.
  exists m'. split; [done|]. split; [done|]. split; [|by apply (Hkeep _ _ Hrun)].
  intros r text Hfile. by rewrite G2, Hfile.
Qed.

Section MergeExample.

(** The hypotheses of the theorem on [merge_fs], by listing its entries. *)
Lemma merge_fs_entries (q : list (list N)) (e : FS.entry) :
  merge_fs !! q = Some e ->
  (q, e) ∈ [ ([lit "A"], FS.Dir); ([lit "A"; lit "f.png"], FS.File (lit "f"));
             ([lit "A"; lit "d"], FS.Dir);
             ([lit "A"; lit "d"; lit "g.png"], FS.File (lit "g"));
             ([lit "B"], FS.Dir); ([lit "B"; lit "h.png"], FS.File (lit "h"));
             ([lit "B"; lit "d"], FS.Dir) ].
Proof.
  unfold merge_fs. rewrite !lookup_insert, lookup_empty.
  repeat case_decide; try done; intros [= <-]; subst q;
    repeat (first [by left|right]).
Qed.

End MergeExample.

(** Splits a hypothesis [x ∈ [a; b; ...]] into its cases. *)
Ltac list_cases H :=
  repeat (apply elem_of_cons in H as [H|H]); [..|by apply elem_of_nil in H].

(** The amended statement at the directories [A] and [B] of [merge_fs]. *)
Lemma rename_folder_merges_witness :
  exists m',
    rename_folder 3 [lit "A"] [lit "B"] merge_fs = (FS.Ok tt, m') /\
    (forall r, m' !! ([lit "A"] ++ r) = None) /\
    m' !! [lit "B"; lit "f.png"] = Some (FS.File (lit "f")) /\
    m' !! [lit "B"; lit "d"; lit "g.png"] = Some (FS.File (lit "g")) /\
    m' !! [lit "B"; lit "h.png"] = Some (FS.File (lit "h")).
Proof.
  assert (Hap : apart [lit "A"] [lit "B"]).
  { split; intros [k Hk]; discriminate Hk. }
  destruct (rename_folder_merges 3 [lit "A"] [lit "B"] merge_fs Hap eq_refl) as [_ H].
  destruct H as (m' & Hrun & Hgone & Hmoved & Hkept).
  - reflexivity.
  - intros r n [e He]. apply merge_fs_entries in He.
    list_cases He; simplify_eq/=;
      match goal with
      | E : ?r ++ [_] = _ |- _ =>
          apply (f_equal but_last) in E; rewrite but_last_snoc in E; subst r
      end; reflexivity.
  - intros r e e' Hr He He'. apply merge_fs_entries in He, He'.
    list_cases He; simplify_eq/=; list_cases He'; by simplify_eq/=.
  - intros r [e He]. apply merge_fs_entries in He.
    list_cases He; simplify_eq/=; lia.
  - exists m'. split; [exact Hrun|]. split; [exact Hgone|]. split; [|split].
    + apply (Hmoved [lit "f.png"]). reflexivity.
    + apply (Hmoved [lit "d"; lit "g.png"]). reflexivity.
    + apply (Hkept [lit "h.png"]). reflexivity.
Defined.

(** C1 (as stated) fails.  With the source as destination the call returns
    at once and the directory is still there; and when a file of the source
    meets a file of the same name in the destination, the file is skipped,
    removing the source raises, and the source is still there. *)
Lemma rename_folder_source_remains :
  let same := rename_folder 3 [lit "A"] [lit "A"] collide_fs in
  let merge := rename_folder 3 [lit "A"] [lit "B"] collide_fs in
  (collide_fs !! [lit "A"] = Some FS.Dir /\ collide_fs !! [lit "B"] = Some FS.Dir) /\
  (same.1 = FS.Ok tt /\ same.2 !! [lit "A"] = Some FS.Dir) /\
  (merge.1 = FS.Raise FS.NotEmptyError /\
   merge.2 !! [lit "A"] = Some FS.Dir /\
   merge.2 !! [lit "A"; lit "x.png"] = Some (FS.File (lit "a")) /\
   merge.2 !! [lit "B"; lit "x.png"] = Some (FS.File (lit "b"))).
Proof.
  cbv zeta. split; [|split]; repeat split; vm_compute; reflexivity.
Qed.

(** ** Orchestrator: selection, order and index *)

(** C3 (as amended).  In a working directory, [main] selects exactly the
    immediate sub-directories whose name ends in 32 hexadecimal characters
    (or in 32 hexadecimal characters and a final newline), sorted by name,
    and hands them to [process_one] in that order, the folder at position
    [i] with the index [i + 1]. *)
Theorem main_selects_hash_suffixed (is_decimal : N -> bool) (limit : nat)
    (root : list (list N)) (m : gmap (list (list N)) FS.entry) :
  FS.is_dir root m = true ->
  exists folders,
    candidates root m = (FS.Ok folders, m) /\
    main is_decimal limit root m
    = ('(count, outs) ← process_all is_decimal limit root (enumerate 1 folders);
       FS.ret (outs ++ [Summary count])) m /\
    (forall p, p ∈ folders <->
       exists n, p = root ++ [n] /\ m !! p = Some FS.Dir /\ ends_in_hex32 n) /\
    Sorted name_le (map FS.name folders) /\
    (forall i p, folders !! i = Some p -> enumerate 1 folders !! i = Some (S i, p)).
Proof.
  intros Hroot. destruct (candidates_spec root m Hroot) as (folders & Hc & Hsel & Hsort).
  exists folders. split; [done|]. split; [|split; [done|split; [done|]]].
  - unfold main. unfold mbind at 1. unfold M_bind at 1. unfold FS.bind at 1.
    by rewrite Hc.
  - intros i p Hp. by apply (enumerate_lookup folders 1 i p).
Qed.

(** The amended statement at the working directory [scan_fs]. *)
Lemma main_selects_hash_suffixed_witness :
  exists folders,
    candidates [] scan_fs = (FS.Ok folders, scan_fs) /\
    [lit "a " ++ h32] ∈ folders /\
    (forall p, folders !! 0%nat = Some p -> enumerate 1 folders !! 0%nat = Some (1%nat, p)).
Proof.
  destruct (main_selects_hash_suffixed (fun _ => false) 0 [] scan_fs eq_refl)
    as (folders & Hc & _ & Hsel & _ & Hidx).
  exists folders. split; [exact Hc|]. split.
  - apply Hsel. exists (lit "a " ++ h32). split; [reflexivity|].
    split; [vm_compute; reflexivity|].
    exists (lit "a "), h32. split; [reflexivity|]. by left.
  - apply Hidx.
Defined.

(** C3 (as stated) fails: the folder ["<hash> notes"] holds a 32-digit
    hexadecimal token, and it is not selected. *)
Lemma main_skips_hash_not_at_end :
  let folder := h32 ++ lit " notes" in
  scan_fs !! [folder] = Some FS.Dir /\
  contains h32 folder = true /\
  HEX32.fullmatch h32 = true /\
  (candidates [] scan_fs).1 = FS.Ok [[lit "a " ++ h32]; [lit "b " ++ h32]].
Proof. cbv zeta. repeat split; vm_compute; reflexivity. Qed.

(** ** [quote] and [unquote]: the round trip *)

Ltac decide_tests :=
  repeat match goal with
  | |- context [?a <? ?b] =>
      first [ rewrite (proj2 (N.ltb_lt a b)) by nlia | rewrite (proj2 (N.ltb_ge a b)) by nlia ]
  | |- context [?a <=? ?b] =>
      first [ rewrite (proj2 (N.leb_le a b)) by nlia | rewrite (proj2 (N.leb_gt a b)) by nlia ]
  | |- context [?a =? ?b] =>
      first [ rewrite (proj2 (N.eqb_eq a b)) by nlia | rewrite (proj2 (N.eqb_neq a b)) by nlia ]
  end.

Lemma utf8_decode_encoded c bs rest :
  Url.utf8_encode_char c = Some bs ->
  Url.utf8_decode (bs ++ rest) = c :: Url.utf8_decode rest.
Proof.
  unfold Url.utf8_encode_char.
  destruct (N.ltb_spec c 128); [|destruct (N.ltb_spec c 2048);
    [|destruct (N.ltb_spec c 65536); [|destruct (N.ltb_spec c 1114112); [|done]]]].
  - intros [= <-]. cbn [app Url.utf8_decode]. by decide_tests.
  - intros [= <-]. cbn [app Url.utf8_decode]. unfold Url.is_cont. decide_tests.
    cbn [andb orb]. f_equal. nlia.
  - destruct (N.leb_spec 55296 c), (N.leb_spec c 57343); cbn [andb]; try done;
      intros [= <-]; cbn [app Url.utf8_decode];
      unfold Url.second_of_3, Url.is_cont;
      destruct (N.eqb_spec (224 + c / 4096) 224), (N.eqb_spec (224 + c / 4096) 237);
      decide_tests; cbn [andb orb negb]; f_equal; nlia.
  - intros [= <-]. cbn [app Url.utf8_decode].
    unfold Url.second_of_4, Url.is_cont.
    destruct (N.eqb_spec (240 + c / 262144) 240), (N.eqb_spec (240 + c / 262144) 244);
      decide_tests; cbn [andb orb negb]; f_equal; nlia.
Qed.

Lemma utf8_encode_char_bytes c bs :
  Url.utf8_encode_char c = Some bs -> Forall (fun b => b < 256) bs.
Proof.
  unfold Url.utf8_encode_char.
  repeat match goal with
  | |- context [if ?b then _ else _] => destruct b eqn:?
  end; intros [= <-]; bool_facts;
    repeat (apply List.Forall_cons; [nlia|]); apply List.Forall_nil.
Qed.

Lemma utf8_encode_scalar c : scalar c -> is_Some (Url.utf8_encode_char c).
Proof.
  intros Hc. unfold Url.utf8_encode_char.
  repeat match goal with
  | |- context [if ?b then _ else _] => destruct b eqn:?
  end; try by eexists.
  all: exfalso; unfold scalar, is_scalar in Hc; bool_facts; lia.
Qed.

(** Decoding the encoding of well-formed text gives the text back. *)
Lemma utf8_roundtrip s :
  Forall scalar s ->
  exists bs, Url.utf8_encode s = Some bs /\ Forall (fun b => b < 256) bs /\
             Url.utf8_decode bs = s.
Proof.
  induction 1 as [|c s Hc Hs (bs' & E' & Hb' & D')]; [by exists []|].
  destruct (utf8_encode_scalar c Hc) as [bs E].
  exists (bs ++ bs'). simpl. rewrite E, E'. split; [done|]. split.
  - apply Forall_app. split; [by apply (utf8_encode_char_bytes c)|done].
  - by rewrite (utf8_decode_encoded c), D'.
Qed.

Lemma hex_val_digit n : n < 16 -> Url.hex_val (Url.hex_digit n) = Some n.
Proof.
  intros Hn. unfold Url.hex_val, Url.hex_digit.
  destruct (N.ltb_spec n 10); decide_tests; cbn [andb]; f_equal; lia.
Qed.

Lemma quote_byte_cases b :
  b < 256 ->
  (Url.quote_byte safe_chars b = [b] /\ b <> 37 /\ b < 128) \/
  Url.quote_byte safe_chars b = [37; Url.hex_digit (b / 16); Url.hex_digit (b mod 16)].
Proof.
  intros Hb. unfold Url.quote_byte.
  destruct (Url.always_safe b || (b <? 128) && mem_char b safe_chars) eqn:E; [left|by right].
  split; [done|]. apply orb_true_iff in E as [E|E].
  - unfold Url.always_safe in E. vm_compute (lit "_.-~") in E. simpl in E.
    unfold char_eqb in E. bool_facts; subst; lia.
  - apply andb_true_iff in E as [E1 E2]. apply N.ltb_lt in E1. split; [|done].
    intros ->. vm_compute in E2. done.
Qed.

Lemma unquote_to_bytes_quoted bs :
  Forall (fun b => b < 256) bs ->
  Url.unquote_to_bytes (concat (map (Url.quote_byte safe_chars) bs)) = bs.
Proof.
  induction 1 as [|b bs Hb Hbs IH]; [done|].
  simpl. destruct (quote_byte_cases b Hb) as [(-> & Hne & _)| ->].
  - simpl. rewrite (proj2 (N.eqb_neq b 37)) by done. by rewrite IH.
  - cbn [app Url.unquote_to_bytes]. rewrite N.eqb_refl.
    rewrite !hex_val_digit by nlia. rewrite IH. f_equal. nlia.
Qed.

Lemma hex_digit_ascii n : n < 16 -> Url.hex_digit n < 128.
Proof. intros Hn. unfold Url.hex_digit. destruct (n <? 10); lia. Qed.

Lemma quoted_ascii bs :
  Forall (fun b => b < 256) bs ->
  Forall (fun c => c < 128) (concat (map (Url.quote_byte safe_chars) bs)).
Proof.
  induction 1 as [|b bs Hb Hbs IH]; [constructor|].
  simpl. apply Forall_app. split; [|done].
  destruct (quote_byte_cases b Hb) as [(-> & _ & Hlt)| ->].
  - by constructor.
  - apply List.Forall_cons; [lia|].
    apply List.Forall_cons; [apply hex_digit_ascii; nlia|].
    apply List.Forall_cons; [apply hex_digit_ascii; nlia|]. apply List.Forall_nil.
Qed.

Lemma unquote_from_ascii run s :
  Forall (fun c => c < 128) s ->
  Url.unquote_from run s = Url.decode_run (rev s ++ run).
Proof.
  intros Hs. revert run. induction Hs as [|c s Hc Hs IH]; intros run; [done|].
  simpl. rewrite (proj2 (N.ltb_lt c 128)) by done. rewrite IH. by rewrite <- app_assoc.
Qed.

Lemma unquote_ascii s :
  Forall (fun c => c < 128) s ->
  Url.unquote s = Url.utf8_decode (Url.unquote_to_bytes s).
Proof.
  intros Hs. unfold Url.unquote. rewrite unquote_from_ascii by done.
  unfold Url.decode_run. by rewrite app_nil_r, rev_involutive.
Qed.

Lemma utf8_encode_low c s bs :
  Url.utf8_encode s = Some bs -> c ∈ bs -> c < 128 -> c ∈ s.
Proof.
  revert bs. induction s as [|x s IH]; intros bs; simpl.
  - intros [= <-]. by intros ?%elem_of_nil.
  - destruct (Url.utf8_encode_char x) as [b1|] eqn:E1; [|done].
    destruct (Url.utf8_encode s) as [b2|] eqn:E2; [|done].
    intros [= <-] Hin Hc. apply elem_of_app in Hin as [Hin|Hin].
    + destruct (N.ltb_spec x 128) as [Hx|Hx].
      * unfold Url.utf8_encode_char in E1. rewrite (proj2 (N.ltb_lt x 128)) in E1 by done.
        injection E1 as <-. apply list_elem_of_singleton in Hin as ->. by left.
      * pose proof (utf8_encode_char_high x b1 Hx E1) as Hhigh.
        rewrite Forall_forall in Hhigh. specialize (Hhigh c Hin). lia.
    + right. by apply (IH b2).
Qed.

Lemma quoted_paren bs :
  Forall (fun b => b < 256) bs ->
  41 ∈ concat (map (Url.quote_byte safe_chars) bs) -> 41 ∈ bs.
Proof.
  induction 1 as [|b bs Hb Hbs IH]; simpl; [done|].
  intros [Hin|Hin]%elem_of_app; [|right; by apply IH].
  destruct (quote_byte_cases b Hb) as [(E & _ & _)|E]; rewrite E in Hin.
  - apply list_elem_of_singleton in Hin as <-. by left.
  - exfalso. assert (Hd : forall n, n < 16 -> Url.hex_digit n <> 41).
    { intros n Hn. unfold Url.hex_digit. destruct (n <? 10); lia. }
    repeat (apply elem_of_cons in Hin as [Hin|Hin]);
      [done|by apply (Hd (b / 16)); [nlia|]|by apply (Hd (b mod 16)); [nlia|]
      |by apply elem_of_nil in Hin].
Qed.

(** [unquote] undoes [quote] on well-formed text, and [quote] brings in no
    closing parenthesis. *)
Lemma unquote_quote s :
  Forall scalar s ->
  exists out, Url.quote safe_chars s = Some out /\ Url.unquote out = s /\
              (41 ∈ out -> 41 ∈ s).
Proof.
  intros Hs. destruct (utf8_roundtrip s Hs) as (bs & E & Hb & D).
  exists (concat (map (Url.quote_byte safe_chars) bs)). unfold Url.quote. rewrite E.
  split; [done|]. split.
  - rewrite unquote_ascii by by apply quoted_ascii.
    by rewrite unquote_to_bytes_quoted.
  - intros Hin. apply (utf8_encode_low 41 s bs); [done| |lia].
    by apply quoted_paren.
Qed.

(** ** Well-formed text and the segments of a path *)

Lemma scalar_ascii c : c < 128 -> scalar c.
Proof. intros H. unfold scalar, is_scalar. apply orb_true_iff. left. apply N.ltb_lt. lia. Qed.

Lemma scalar_replacement : scalar Url.replacement.
Proof. reflexivity. Qed.

(** Decoding yields well-formed text, whatever the bytes. *)
Lemma utf8_decode_scalar_n n : forall bs, (length bs <= n)%nat -> Forall scalar (Url.utf8_decode bs).
Proof.
  induction n as [|n IH]; intros bs Hn.
  { destruct bs; [constructor|simpl in Hn; lia]. }
  assert (IH' : forall r, (length r < length bs)%nat -> Forall scalar (Url.utf8_decode r))
    by (intros r Hr; apply IH; lia).
  assert (R : forall r, (length r < length bs)%nat ->
            Forall scalar (Url.replacement :: Url.utf8_decode r))
    by (intros r Hr; constructor; [apply scalar_replacement|by apply IH']).
  assert (R0 : Forall scalar [Url.replacement])
    by (constructor; [apply scalar_replacement|constructor]).
  clear IH Hn.
  destruct bs as [|b0 r0]; [constructor|]. cbn [Url.utf8_decode].
  destruct (N.ltb_spec b0 128).
  { constructor; [by apply scalar_ascii|]. apply IH'. simpl. lia. }
  destruct (N.ltb_spec b0 194); [apply R; simpl; lia|].
  destruct (N.leb_spec 245 b0); cbn [orb]; [apply R; simpl; lia|].
  destruct (N.ltb_spec b0 224).
  { destruct r0 as [|b1 r1]; [done|].
    destruct (Url.is_cont b1) eqn:E1; [|apply R; simpl; lia].
    unfold Url.is_cont in E1. bool_facts.
    constructor; [|apply IH'; simpl; lia].
    unfold scalar, is_scalar. apply orb_true_iff. left. apply N.ltb_lt. nia. }
  destruct (N.ltb_spec b0 240).
  { destruct r0 as [|b1 r1]; [done|].
    destruct (Url.second_of_3 b0 b1) eqn:E1; [|apply R; simpl; lia].
    destruct r1 as [|b2 r2]; [done|].
    destruct (Url.is_cont b2) eqn:E2; [|apply R; simpl; lia].
    constructor; [|apply IH'; simpl; lia].
    unfold Url.second_of_3, Url.is_cont in *.
    apply andb_true_iff in E1 as [E1 E1c]. apply andb_true_iff in E1 as [E1a E1b].
    apply negb_true_iff in E1b, E1c. bool_facts.
    unfold scalar, is_scalar. apply orb_true_iff.
    destruct (N.eqb_spec b0 237) as [->|Hne].
    - left. apply N.ltb_lt. simpl in E1c. bool_facts. lia.
    - destruct (N.ltb_spec b0 237); [left; apply N.ltb_lt; lia|].
      right. apply andb_true_iff. split; apply N.ltb_lt; lia. }
  destruct r0 as [|b1 r1]; [done|].
  destruct (Url.second_of_4 b0 b1) eqn:E1; [|apply R; simpl; lia].
  destruct r1 as [|b2 r2]; [done|].
  destruct (Url.is_cont b2) eqn:E2; [|apply R; simpl; lia].
  destruct r2 as [|b3 r3]; [done|].
  destruct (Url.is_cont b3) eqn:E3; [|apply R; simpl; lia].
  constructor; [|apply IH'; simpl; lia].
  unfold Url.second_of_4, Url.is_cont in *.
  apply andb_true_iff in E1 as [E1 E1c]. apply andb_true_iff in E1 as [E1a E1b].
  apply negb_true_iff in E1b, E1c. bool_facts.
  unfold scalar, is_scalar. apply orb_true_iff. right.
  destruct (N.eqb_spec b0 244) as [->|Hne].
  - simpl in E1c. bool_facts. apply andb_true_iff. split; apply N.ltb_lt; lia.
  - destruct (N.eqb_spec b0 240) as [->|Hne'].
    + simpl in E1b. bool_facts. apply andb_true_iff. split; apply N.ltb_lt; lia.
    + apply andb_true_iff. split; apply N.ltb_lt; lia.
Qed.

Lemma utf8_decode_scalar bs : Forall scalar (Url.utf8_decode bs).
Proof. by apply (utf8_decode_scalar_n (length bs)). Qed.

Lemma unquote_from_scalar run s :
  Forall scalar s -> Forall scalar (Url.unquote_from run s).
Proof.
  intros Hs. revert run. induction Hs as [|c s Hc Hs IH]; intros run; simpl.
  - apply utf8_decode_scalar.
  - destruct (c <? 128); [apply IH|].
    apply Forall_app. split; [apply utf8_decode_scalar|]. constructor; [done|apply IH].
Qed.

Lemma unquote_scalar s : Forall scalar s -> Forall scalar (Url.unquote s).
Proof. apply unquote_from_scalar. Qed.

Lemma contains_spec n h : contains n h = true <-> substring n h.
Proof.
  unfold substring. induction h as [|c h IH]; simpl.
  - rewrite orb_false_r, startswith_spec. split.
    + intros [r Hr]. by exists [], r.
    + intros (a & b & E). destruct a; [by exists b|done].
  - rewrite orb_true_iff, startswith_spec, IH. split.
    + intros [[r Hr]|(a & b & ->)]; [by exists [], r|by exists (c :: a), b].
    + intros (a & b & E). destruct a as [|d a]; [left; by exists b|].
      right. injection E as -> ->. by exists a, b.
Qed.

Lemma substring_Forall (P : N -> Prop) x s : substring x s -> Forall P s -> Forall P x.
Proof.
  intros (a & b & ->) H. apply Forall_app in H as [_ H]. by apply Forall_app in H as [H _].
Qed.

Lemma split_on_elem sep cur s x :
  x ∈ PosixPath.split_on sep cur s -> substring x (rev cur ++ s).
Proof.
  revert cur. induction s as [|c s IH]; intros cur; simpl.
  - intros ->%list_elem_of_singleton. exists [], []. by rewrite !app_nil_r.
  - destruct (char_eqb c sep).
    + intros [->|Hin]%elem_of_cons.
      * by exists [], (c :: s).
      * destruct (IH [] Hin) as (a & b & E). simpl in E. rewrite E.
        exists (rev cur ++ c :: a), b. by rewrite <- !app_assoc.
    + intros Hin. destruct (IH (c :: cur) Hin) as (a & b & E). simpl in E.
      rewrite <- app_assoc in E. simpl in E. by exists a, b.
Qed.

Lemma root_of_cases s :
  PosixPath.root_of s = [] \/
  exists r, PosixPath.root_of s = [r] /\ exists b, s = r ++ b.
Proof.
  destruct s as [|c0 s]; [by left|].
  destruct (N.eq_dec c0 47) as [->|Hc0].
  2:{ left. destruct c0 as [|p]; [done|]. by do 6 (destruct p as [p|p|]; try done). }
  right. destruct s as [|c1 s]; [exists [47]; split; [done|by exists []]|].
  destruct (N.eq_dec c1 47) as [->|Hc1].
  2:{ exists [47]. split; [|by exists (c1 :: s)].
      destruct c1 as [|p]; [done|]. by do 6 (destruct p as [p|p|]; try done). }
  destruct s as [|c2 s]; [exists [47; 47]; split; [done|by exists []]|].
  destruct (N.eq_dec c2 47) as [->|Hc2].
  - exists [47]. split; [done|]. by exists (47 :: 47 :: s).
  - exists [47; 47]. split; [|by exists (c2 :: s)].
    destruct c2 as [|p]; [done|]. by do 6 (destruct p as [p|p|]; try done).
Qed.

Lemma root_of_prefix s x : x ∈ PosixPath.root_of s -> substring x s.
Proof.
  destruct (root_of_cases s) as [->|(r & -> & b & ->)].
  - by intros ?%elem_of_nil.
  - intros ->%list_elem_of_singleton. by exists [], b.
Qed.

(** Every part of a path string occurs in the string. *)
Lemma parts_substring s x : x ∈ PosixPath.parts s -> substring x s.
Proof.
  unfold PosixPath.parts, PosixPath.components.
  intros [Hin|Hin]%elem_of_app; [by apply root_of_prefix|].
  apply list_elem_of_In, filter_In in Hin as [Hin _].
  apply list_elem_of_In in Hin. by apply (split_on_elem 47 []).
Qed.

Lemma join_Forall (P : N -> Prop) sep l :
  Forall P sep -> Forall (Forall P) l -> Forall P (join sep l).
Proof.
  intros Hsep. induction 1 as [|x l Hx Hl IH]; [constructor|].
  destruct l as [|y l]; [done|]. rewrite join_cons.
  apply Forall_app. split; [done|]. apply Forall_app. split; [done|]. apply IH.
Qed.

(** A path whose first segment is an old name targets the old folder. *)
Lemma first_part_targets olds p old rest :
  old ∈ olds -> PosixPath.parts (Url.unquote p) = old :: rest ->
  targets_old olds p = true.
Proof.
  intros Hold Hparts. unfold targets_old. apply existsb_exists.
  exists old. split; [by apply list_elem_of_In|].
  apply orb_true_iff. right. apply contains_spec, parts_substring.
  rewrite Hparts. by left.
Qed.

(** The new path of a link, URL-decoded, is the relative folder path and
    the remaining decoded segments of the link, joined by slashes. *)
Lemma rewrite_path_decodes olds rel p old rest :
  old ∈ olds -> PosixPath.parts (Url.unquote p) = old :: rest ->
  Forall scalar p -> Forall scalar rel ->
  exists out,
    rewrite_path olds rel p = Some out /\
    Url.unquote out = join (lit "/") (rel :: rest) /\
    (41 ∈ out -> 41 ∈ join (lit "/") (rel :: rest)).
Proof.
  intros Hold Hparts Hp Hrel. unfold rewrite_path.
  fold (targets_old olds p). rewrite (first_part_targets olds p old rest) by done.
  rewrite Hparts. simpl negb. cbv iota. apply unquote_quote.
  apply join_Forall; [by repeat constructor|]. constructor; [done|].
  apply Forall_forall. intros x Hx.
  apply (substring_Forall scalar x (Url.unquote p)); [|by apply unquote_scalar].
  apply parts_substring. rewrite Hparts. by right.
Qed.

(** ** Link Rewriter: image links in the rewritten text *)

Section Relink.

Lemma match_link_eq s :
  Re.match_link s =
  match s with
  | [] => None
  | c :: s1 =>
      if c =? 91 then
        match Re.span_until 93 s1 with
        | Some (alt, d :: s2) =>
            if d =? 40 then
              match Re.span_until 41 s2 with
              | Some (x :: path, _) =>
                  Some (91 :: alt ++ 93 :: 40 :: (x :: path) ++ [41], x :: path)
              | _ => None
              end
            else None
        | _ => None
        end
      else None
  end.
Proof.
  destruct s as [|c s1]; [done|]. unfold Re.match_link.
  destruct (N.eqb_spec c 91) as [->|Hc].
  2:{ destruct c as [|p]; [done|]. by do 7 (destruct p as [p|p|]; try done). }
  destruct (Re.span_until 93 s1) as [[alt [|d s2]]|]; try done.
  destruct (N.eqb_spec d 40) as [->|Hd]; [done|].
  destruct d as [|p]; [done|]. by do 6 (destruct p as [p|p|]; try done).
Qed.

Lemma image_eq prev s :
  Re.image prev s =
  match s with
  | [] => None
  | c :: s' =>
      if c =? 33 then
        match Re.match_link s' with
        | Some (g0, g1) => Some (33 :: g0, g1)
        | None => None
        end
      else None
  end.
Proof.
  destruct s as [|c s']; [done|]. unfold Re.image.
  destruct (N.eqb_spec c 33) as [->|Hc]; [done|].
  destruct c as [|p]; [done|]. by do 6 (destruct p as [p|p|]; try done).
Qed.

Lemma span_until_found stop a r :
  stop ∉ a -> Re.span_until stop (a ++ stop :: r) = Some (a, r).
Proof.
  induction a as [|c a IH]; simpl.
  - by rewrite char_eqb_refl.
  - rewrite not_elem_of_cons. intros [Hc Ha].
    rewrite (proj2 (char_eqb_neq c stop)) by done. by rewrite IH.
Qed.

Lemma span_until_app stop a b :
  Re.span_until stop (a ++ b) =
  match Re.span_until stop a with
  | Some (a1, a2) => Some (a1, a2 ++ b)
  | None =>
      match Re.span_until stop b with
      | Some (b1, b2) => Some (a ++ b1, b2)
      | None => None
      end
  end.
Proof.
  induction a as [|c a IH]; simpl.
  - by destruct (Re.span_until stop b) as [[? ?]|].
  - destruct (char_eqb c stop); [done|]. rewrite IH.
    destruct (Re.span_until stop a) as [[? ?]|]; [done|].
    by destruct (Re.span_until stop b) as [[? ?]|].
Qed.

Lemma image_cons prev c s :
  Re.image prev (c :: s) =
  if c =? 33 then
    match Re.match_link s with
    | Some (g0, g1) => Some (33 :: g0, g1)
    | None => None
    end
  else None.
Proof. by rewrite image_eq. Qed.

Lemma match_link_cons c s1 :
  Re.match_link (c :: s1) =
  if c =? 91 then
    match Re.span_until 93 s1 with
    | Some (alt, d :: s2) =>
        if d =? 40 then
          match Re.span_until 41 s2 with
          | Some (x :: path, _) =>
              Some (91 :: alt ++ 93 :: 40 :: (x :: path) ++ [41], x :: path)
          | _ => None
          end
        else None
    | _ => None
    end
  else None.
Proof. by rewrite match_link_eq. Qed.

Lemma image_text_app alt g1 rest :
  image_text alt g1 ++ rest = 33 :: 91 :: alt ++ 93 :: 40 :: g1 ++ 41 :: rest.
Proof.
  unfold image_text. cbn [app]. do 2 f_equal. rewrite <- app_assoc. cbn [app].
  do 2 f_equal. by rewrite <- app_assoc.
Qed.

(** An image link is matched where it stands. *)
Lemma image_hit prev alt g1 rest :
  93 ∉ alt -> 41 ∉ g1 -> g1 <> [] ->
  Re.image prev (image_text alt g1 ++ rest) = Some (image_text alt g1, g1).
Proof.
  intros Halt Hg1 Hne. rewrite image_text_app, image_cons, N.eqb_refl.
  rewrite match_link_cons, N.eqb_refl, span_until_found, N.eqb_refl by done.
  rewrite span_until_found by done. by destruct g1.
Qed.

(** Where no image link is matched before an image link, none is matched
    before any text that starts with an exclamation mark. *)
Lemma image_fail_transfer prev prev' x alt g1 rest y :
  x <> [] -> 93 ∉ alt -> 41 ∉ g1 -> g1 <> [] ->
  Re.image prev (x ++ image_text alt g1 ++ rest) = None ->
  Re.image prev' (x ++ 33 :: y) = None.
Proof.
  intros Hx Halt Hg1 Hne. rewrite image_text_app.
  destruct x as [|x0 x]; [done|]. cbn [app]. rewrite !image_cons.
  destruct (x0 =? 33); [|done].
  destruct x as [|x1 x]; cbn [app].
  { intros _. by rewrite match_link_cons. }
  rewrite !match_link_cons. destruct (x1 =? 91); [|done].
  rewrite !(span_until_app 93 x).
  destruct (Re.span_until 93 x) as [[a1 a2]|].
  - destruct a2 as [|d a2]; cbn [app]; [done|]. destruct (d =? 40); [|done].
    rewrite !(span_until_app 41 a2).
    destruct (Re.span_until 41 a2) as [[p1 p2]|]; [by destruct p1|].
    assert (Hsp : exists b1 b2,
              Re.span_until 41 (33 :: 91 :: alt ++ 93 :: 40 :: g1 ++ 41 :: rest)
              = Some (33 :: b1, b2)).
    { replace (33 :: 91 :: alt ++ 93 :: 40 :: g1 ++ 41 :: rest)
        with (33 :: ((91 :: alt ++ [93; 40]) ++ g1) ++ 41 :: rest)
        by (cbn [app]; by rewrite <- !app_assoc).
      cbn [Re.span_until]. change (char_eqb 33 41) with false. cbv iota.
      rewrite span_until_app.
      destruct (Re.span_until 41 ((91 :: alt ++ [93; 40]) ++ g1)) as [[c1 c2]|].
      - by eexists _, _.
      - cbn [Re.span_until]. rewrite char_eqb_refl. by eexists _, _. }
    destruct Hsp as (b1 & b2 & ->). by destruct a2.
  - change (33 :: 91 :: alt ++ 93 :: 40 :: g1 ++ 41 :: rest)
      with ((33 :: 91 :: alt) ++ 93 :: 40 :: g1 ++ 41 :: rest).
    rewrite (span_until_found 93 (33 :: 91 :: alt)).
    2:{ rewrite !not_elem_of_cons. done. }
    rewrite N.eqb_refl, span_until_found by done. by destruct x, g1.
Qed.

End Relink.

Section Replace.

Lemma occurrences_app_r old a b : (occurrences old b <= occurrences old (a ++ b))%nat.
Proof. induction a as [|c a IH]; simpl; lia. Qed.

Lemma occurrences_cons old c s :
  occurrences old (c :: s) =
  ((if startswith old (c :: s) then 1 else 0) + occurrences old s)%nat.
Proof. done. Qed.

Lemma replace_from_absent old new s :
  occurrences old s = 0%nat -> Re.replace_from old new 0 s = s.
Proof.
  induction s as [|c s IH]; [done|]. rewrite occurrences_cons. cbn [Re.replace_from].
  destruct (startswith old (c :: s)); [lia|]. intros H. by rewrite IH by lia.
Qed.

Lemma replace_nonempty old new s :
  old <> [] -> Re.replace old new s = Re.replace_from old new 0 s.
Proof. by destruct old. Qed.

Lemma startswith_app old post : startswith old (old ++ post) = true.
Proof. apply startswith_spec. by exists post. Qed.

Lemma replace_from_here old new post :
  old <> [] ->
  Re.replace_from old new 0 (old ++ post) = new ++ Re.replace_from old new 0 post.
Proof.
  intros Hold. pose proof (startswith_app old post) as Hhere.
  destruct old as [|o old']; [done|]. cbn [app] in *. cbn [Re.replace_from].
  rewrite Hhere. replace (length (o :: old') - 1)%nat with (length old') by (simpl; lia).
  by rewrite replace_from_skip.
Qed.

Lemma occurrences_here old post :
  old <> [] -> occurrences old (old ++ post) = S (occurrences old (tail (old ++ post))).
Proof.
  intros Hold. pose proof (startswith_app old post) as Hhere.
  destruct old as [|o old']; [done|]. cbn [app] in *.
  by rewrite occurrences_cons, Hhere.
Qed.

(** Replacing the single occurrence of a string. *)
Lemma replace_once old new pre post :
  old <> [] -> occurrences old (pre ++ old ++ post) = 1%nat ->
  Re.replace old new (pre ++ old ++ post) = pre ++ new ++ post.
Proof.
  intros Hold. rewrite replace_nonempty by done.
  induction pre as [|c pre IH]; intros Hocc; cbn [app] in *.
  - rewrite replace_from_here by done. f_equal. apply replace_from_absent.
    rewrite occurrences_here in Hocc by done.
    destruct old as [|o old']; [done|]. cbn [app tail] in Hocc.
    pose proof (occurrences_app_r (o :: old') old' post). lia.
  - rewrite occurrences_cons in Hocc. cbn [Re.replace_from].
    pose proof (occurrences_app_r old pre (old ++ post)) as H1.
    rewrite occurrences_here in H1 by done.
    destruct (startswith old (c :: pre ++ old ++ post)); [lia|].
    f_equal. apply IH. lia.
Qed.

End Replace.

Section Rescan.

Variable link : str -> str -> Prop.

Lemma image_prev prev prev' s : Re.image prev s = Re.image prev' s.
Proof. by rewrite !image_eq. Qed.

Lemma scan_image_prev prev prev' k s :
  Re.scan Re.image prev k s = Re.scan Re.image prev' k s.
Proof.
  revert prev prev' k. induction s as [|c s IH]; intros prev prev' k; [done|].
  cbn [Re.scan]. destruct k; [|apply IH].
  rewrite (image_prev prev prev').
  destruct (Re.image prev' (c :: s)) as [[g0 g1]|]; f_equal; apply IH.
Qed.

Lemma scan_after_hit pat prev g0 g1 rest :
  pat prev (g0 ++ rest) = Some (g0, g1) -> g0 <> [] ->
  exists prev', Re.scan pat prev 0 (g0 ++ rest) = Re.Hit g0 g1 :: Re.scan pat prev' 0 rest.
Proof.
  intros E Hne. destruct g0 as [|c g0']; [done|]. cbn [app] in *. cbn [Re.scan].
  rewrite E. replace (length (c :: g0') - 1)%nat with (length g0') by (simpl; lia).
  destruct (scan_skip pat (Some c) g0' rest) as [prev' ->]. by exists prev'.
Qed.

(** The hits of a scan for image links are image links. *)
Lemma scan_image_hits prev k s g0 g1 :
  Re.Hit g0 g1 ∈ Re.scan Re.image prev k s ->
  exists alt, g0 = image_text alt g1 /\ (93 ∉ alt) /\ (41 ∉ g1) /\ g1 <> [].
Proof.
  revert prev k. induction s as [|c s IH]; intros prev k; cbn [Re.scan].
  - by intros ?%elem_of_nil.
  - destruct k; [|apply IH].
    destruct (Re.image prev (c :: s)) as [[h0 h1]|] eqn:E.
    + intros [[= -> ->]|Hin]%elem_of_cons; [|by apply IH in Hin].
      apply image_spec in E as (alt & rest & -> & _ & ? & ? & ?). by exists alt.
    + intros [?|Hin]%elem_of_cons; [done|]. by apply IH in Hin.
Qed.

Lemma transfer_fail ps ps' prev prev' x :
  Forall2 (relinked link) ps ps' -> x <> [] ->
  Re.image prev (x ++ flatten ps) = None ->
  Re.image prev' (x ++ flatten ps') = None.
Proof.
  intros H. revert x. induction H as [|p p' ps ps' Hp Hps IH]; intros x Hx.
  - by rewrite (image_prev prev' prev).
  - destruct Hp as [c|alt g1 g1' Halt Hg1 Hne Hg1' Hne' Hl].
    + change (flatten (Re.Lit c :: ?l)) with ([c] ++ flatten l).
      rewrite !app_assoc. apply IH. by destruct x.
    + change (flatten (Re.Hit ?g ?h :: ?l)) with (g ++ flatten l).
      intros Hfail. rewrite image_text_app.
      by apply (image_fail_transfer prev prev' x alt g1 (flatten ps)).
Qed.

(** The scan of the rewritten text finds the links that were rewritten. *)
Lemma rescan ps ps' :
  Forall2 (relinked link) ps ps' ->
  forall prev prev',
    Re.scan Re.image prev 0 (flatten ps) = ps ->
    Re.scan Re.image prev' 0 (flatten ps') = ps'.
Proof.
  induction 1 as [|p p' ps ps' Hp Hps IH]; intros prev prev' Hscan; [done|].
  destruct Hp as [c|alt g1 g1' Halt Hg1 Hne Hg1' Hne' Hl].
  - change (flatten (Re.Lit c :: ?l)) with (c :: flatten l) in *.
    cbn [Re.scan] in *.
    destruct (Re.image prev (c :: flatten ps)) as [[h0 h1]|] eqn:E; [done|].
    injection Hscan as Hscan.
    pose proof (transfer_fail ps ps' prev prev' [c] Hps ltac:(done) E) as Hf.
    cbn [app] in Hf. rewrite Hf.
    f_equal. by apply (IH (Some c)).
  - change (flatten (Re.Hit ?g ?h :: ?l)) with (g ++ flatten l) in *.
    destruct (scan_after_hit Re.image prev (image_text alt g1) g1 (flatten ps))
      as [prev1 E1]; [by apply image_hit|done|].
    rewrite E1 in Hscan. injection Hscan as Hscan.
    destruct (scan_after_hit Re.image prev' (image_text alt g1') g1' (flatten ps'))
      as [prev2 E2]; [by apply image_hit|done|].
    rewrite E2. f_equal. by apply (IH prev1).
Qed.

Lemma relinked_paths ps ps' :
  Forall2 (relinked link) ps ps' -> Forall2 link (paths_of ps) (paths_of ps').
Proof.
  induction 1 as [|p p' ps ps' Hp Hps IH]; [constructor|].
  destruct Hp; cbn; [done|]. by constructor.
Qed.

End Rescan.

Section FirstPass.

Lemma mem_char_false c s : mem_char c s = false -> c ∉ s.
Proof.
  intros H Hin. assert (mem_char c s = true); [|congruence].
  apply existsb_exists. exists c. split; [by apply list_elem_of_In|apply char_eqb_refl].
Qed.

Lemma hit_substring ps g0 g1 : Re.Hit g0 g1 ∈ ps -> substring g0 (flatten ps).
Proof.
  induction ps as [|p ps IH]; [by intros ?%elem_of_nil|].
  intros [<-|Hin]%elem_of_cons.
  - exists [], (flatten ps). done.
  - destruct (IH Hin) as (a & b & E).
    exists (match p with Re.Lit c => [c] | Re.Hit h _ => h end ++ a), b.
    change (flatten (p :: ps))
      with (match p with Re.Lit c => [c] | Re.Hit h _ => h end ++ flatten ps).
    by rewrite E, <- app_assoc.
Qed.

Lemma image_text_split alt g1 :
  image_text alt g1 = (33 :: 91 :: alt ++ [93; 40]) ++ g1 ++ [41].
Proof. unfold image_text. cbn [app]. by rewrite <- app_assoc. Qed.

Lemma join_head_nonempty sep x l : x <> [] -> join sep (x :: l) <> [].
Proof. intros Hx. destruct l; [done|]. rewrite join_cons. by destruct x. Qed.

(** The first substitution rewrites every image link in place. *)
Lemma first_pass olds rel ps :
  Forall scalar rel -> rel <> [] -> Forall scalar (flatten ps) ->
  (forall g0 g1, Re.Hit g0 g1 ∈ ps ->
     (exists alt, g0 = image_text alt g1 /\ (93 ∉ alt) /\ (41 ∉ g1) /\ g1 <> []) /\
     link_ok olds rel g0 g1) ->
  exists ps',
    Forall2 (relinked (relocated rel)) ps ps' /\
    Re.render (repl olds rel) ps = Some (flatten ps').
Proof.
  intros Hrel Hne. induction ps as [|p ps IH]; intros Hsc Hhits; [by exists []|].
  assert (Hsc' : Forall scalar (flatten ps)).
  { change (flatten (p :: ps))
      with (match p with Re.Lit c => [c] | Re.Hit h _ => h end ++ flatten ps) in Hsc.
    by apply Forall_app in Hsc as [_ ?]. }
  destruct IH as (ps' & Hrl & Hrender); [done|intros; apply Hhits; by right|].
  destruct p as [c|g0 g1].
  - exists (Re.Lit c :: ps'). split; [constructor; [constructor|done]|].
    cbn [Re.render]. by rewrite Hrender.
  - destruct (Hhits g0 g1) as [(alt & -> & Halt & Hg1 & Hg1ne) (Honce & old & rest & Hold & Hparts & Hparen)];
      [by left|].
    assert (Hg1sc : Forall scalar g1).
    { apply (substring_Forall scalar g1 (flatten (Re.Hit (image_text alt g1) g1 :: ps)));
        [|done].
      exists (33 :: 91 :: alt ++ [93; 40]), ([41] ++ flatten ps).
      change (flatten (Re.Hit ?g ?h :: ?l)) with (g ++ flatten l).
      by rewrite image_text_split, <- !app_assoc. }
    destruct (rewrite_path_decodes olds rel g1 old rest) as (out & Hrw & Hdec & Hout);
      [done..|].
    assert (Hout' : 41 ∉ out).
    { intros H. by apply (mem_char_false 41 _ Hparen), Hout. }
    assert (Houtne : out <> []).
    { intros ->. symmetry in Hdec. by apply join_head_nonempty in Hdec. }
    exists (Re.Hit (image_text alt out) out :: ps'). split.
    + constructor; [|done]. constructor; try done. by exists old, rest.
    + assert (Hrepl : repl olds rel (image_text alt g1) g1 = Some (image_text alt out)).
      { unfold repl. rewrite Hrw. cbn. f_equal.
        rewrite image_text_split in Honce |- *.
        rewrite replace_once by done. by rewrite image_text_split. }
      cbn [Re.render]. rewrite Hrepl. cbn. by rewrite Hrender.
Qed.

End FirstPass.


Lemma elem_of_hits_of ps g0 g1 : Re.Hit g0 g1 ∈ ps -> (g0, g1) ∈ hits_of ps.
Proof. intros H. apply list_elem_of_omap. by exists (Re.Hit g0 g1). Qed.



(* ================================================================== *)
(** * Further properties *)

(** ** Orchestrator: the lecture number *)

Section Number.

Variable is_decimal : N -> bool.

Lemma marker_after_spaces_elem s : marker_after_spaces s = true -> 44053 ∈ s.
Proof.
  induction s as [|c s IH]; simpl; [done|].
  destruct (c =? 44053) eqn:E.
  - apply N.eqb_eq in E as ->. intros _. by left.
  - destruct (is_space c); [|done]. intros H. right. by apply IH.
Qed.

Lemma digits_then_marker_elem s ds :
  digits_then_marker is_decimal s = Some ds -> 44053 ∈ s.
Proof.
  revert ds. induction s as [|d s IH]; intros ds; simpl; [done|].
  destruct (is_decimal d); [|done].
  destruct (digits_then_marker is_decimal s) as [ds'|].
  - intros _. right. by eapply IH.
  - destruct (marker_after_spaces s) eqn:E; [|done].
    intros _. right. by apply marker_after_spaces_elem.
Qed.

Lemma LECTURE_NUM_search_elem s ds :
  LECTURE_NUM_search is_decimal s = Some ds -> 48 ∈ s /\ 44053 ∈ s.
Proof.
  induction s as [|c s IH]; [done|].
  cbn [LECTURE_NUM_search].
  destruct (match c :: s with
            | 48 :: x :: s1 =>
                if (x =? 120) || (x =? 88) then digits_then_marker is_decimal s1 else None
            | _ => None
            end) as [ds'|] eqn:E.
  - intros _.
    destruct (N.eq_dec c 48) as [->|Hc].
    + split; [by left|].
      destruct s as [|x s1]; [done|].
      destruct ((x =? 120) || (x =? 88)); [|done].
      right. right. by eapply digits_then_marker_elem.
    + exfalso. destruct c as [|p]; [done|].
      do 6 (destruct p as [p|p|]; try done).
  - intros H. destruct (IH H) as [? ?]. split; by right.
Qed.

Lemma marker_after_spaces_blank ws rest :
  blank ws -> marker_after_spaces (ws ++ 44053 :: rest) = true.
Proof.
  induction 1 as [|c ws Hc Hws IH]; simpl; [done|].
  destruct (c =? 44053); [done|]. by rewrite Hc.
Qed.

Lemma digits_then_marker_stop ws rest :
  digit_class is_decimal -> blank ws ->
  digits_then_marker is_decimal (ws ++ 44053 :: rest) = None.
Proof.
  intros Hclass Hws. destruct Hws as [|c ws Hc Hws]; simpl.
  - destruct (is_decimal 44053) eqn:E; [|done].
    by destruct (Hclass _ E) as (_ & ? & _).
  - destruct (is_decimal c) eqn:E; [|done].
    destruct (Hclass _ E) as (? & _). congruence.
Qed.

Lemma digits_then_marker_run ds ws rest :
  digit_class is_decimal -> ds <> [] ->
  Forall (fun c => is_decimal c = true) ds -> blank ws ->
  digits_then_marker is_decimal (ds ++ ws ++ 44053 :: rest) = Some ds.
Proof.
  intros Hclass Hne Hds Hws. induction Hds as [|d ds Hd Hds IH]; [done|].
  cbn [app digits_then_marker]. rewrite Hd.
  destruct ds as [|d' ds'].
  - simpl. rewrite digits_then_marker_stop by done.
    by rewrite marker_after_spaces_blank.
  - by rewrite IH.
Qed.

Lemma LECTURE_NUM_search_skip pre s :
  48 ∉ pre -> LECTURE_NUM_search is_decimal (pre ++ s) = LECTURE_NUM_search is_decimal s.
Proof.
  induction pre as [|c pre IH]; [done|].
  intros Hc. apply not_elem_of_cons in Hc as [Hc Hpre].
  cbn [app LECTURE_NUM_search]. rewrite IH by done.
  destruct c as [|p]; [done|].
  do 6 (destruct p as [p|p|]; try done).
Qed.

Lemma str_of_nat_small idx : (idx < 10)%nat -> str_of_nat idx = [48 + N.of_nat idx].
Proof.
  intros H. do 10 (destruct idx as [|idx]; [reflexivity|]). lia.
Qed.

Lemma str_of_nat_long idx : (10 <= idx)%nat -> (2 <= length (str_of_nat idx))%nat.
Proof.
  intros H. unfold str_of_nat.
  pose proof (DecimalNat.Unsigned.of_to idx) as E.
  destruct (Nat.to_uint idx) as [|u|u|u|u|u|u|u|u|u|u] eqn:Eu;
    try (vm_compute in E; lia);
    (destruct u; [vm_compute in E; lia|..]); simpl; unfold lit; simpl; lia.
Qed.

Lemma zfill2_long s : (2 <= length s)%nat -> zfill2 s = s.
Proof. destruct s as [|a [|b s]]; simpl; try lia; done. Qed.

End Number.

(** X1.  A title without the digit [0] or without the marker [강] holds no
    lecture number, and [extract_number] returns the fallback index in
    decimal, with a leading zero when it is below ten. *)
Theorem extract_number_fallback (is_decimal : N -> bool) (title : str) (idx : nat) :
  48 ∉ title \/ 44053 ∉ title ->
  extract_number is_decimal title idx = zfill2 (str_of_nat idx) /\
  ((idx < 10)%nat -> extract_number is_decimal title idx = [48; 48 + N.of_nat idx]) /\
  ((10 <= idx)%nat -> extract_number is_decimal title idx = str_of_nat idx).
Proof.
  intros Hno.
  assert (E : extract_number is_decimal title idx = zfill2 (str_of_nat idx)).
  { unfold extract_number.
    destruct (LECTURE_NUM_search is_decimal title) as [ds|] eqn:Es; [|done].
    apply LECTURE_NUM_search_elem in Es as [? ?]. by destruct Hno. }
  split; [done|]. rewrite E. split.
  - intros H. rewrite str_of_nat_small by done. simpl.
    assert (N.of_nat idx < 10) by lia.
    replace ((48 + N.of_nat idx =? 43) || (48 + N.of_nat idx =? 45)) with false; [done|].
    symmetry. apply orb_false_iff. split; apply N.eqb_neq; lia.
  - intros H. by apply zfill2_long, str_of_nat_long.
Qed.

(** The title ["Intro draft"] with the index 3. *)
Lemma extract_number_fallback_witness :
  extract_number is_ascii_digit (lit "Intro draft") 3 = lit "03".
Proof.
  assert (H : 48 ∉ lit "Intro draft" \/ 44053 ∉ lit "Intro draft").
  { left. vm_compute. intros H. repeat (apply elem_of_cons in H as [H|H]; [done|]).
    by apply elem_of_nil in H. }
  destruct (extract_number_fallback is_ascii_digit (lit "Intro draft") 3 H) as (_ & Hs & _).
  apply Hs. lia.
Defined.

(** X2.  In a title that reads [0x] (or [0X]), a run of digits, optional
    whitespace and the marker [강], with no [0] before it, the lecture number
    is the run of digits: [extract_number] returns it as it is when it has
    two digits or more, and with a leading zero when it has one. *)
Theorem extract_number_reads_marker (is_decimal : N -> bool)
    (pre : str) (x : N) (ds ws rest : str) (idx : nat) :
  digit_class is_decimal ->
  48 ∉ pre -> x = 120 \/ x = 88 ->
  ds <> [] -> Forall (fun c => is_decimal c = true) ds -> blank ws ->
  let title := pre ++ 48 :: x :: ds ++ ws ++ 44053 :: rest in
  extract_number is_decimal title idx = zfill2 ds /\
  ((2 <= length ds)%nat -> extract_number is_decimal title idx = ds) /\
  (forall d, ds = [d] -> extract_number is_decimal title idx = [48; d]).
Proof.
  intros Hclass Hpre Hx Hne Hds Hws title.
  assert (E : extract_number is_decimal title idx = zfill2 ds).
  { unfold extract_number, title. rewrite LECTURE_NUM_search_skip by done.
    cbn [LECTURE_NUM_search].
    replace ((x =? 120) || (x =? 88)) with true
      by (symmetry; apply orb_true_iff; destruct Hx as [->| ->]; auto).
    by rewrite digits_then_marker_run. }
  split; [done|]. rewrite E. split.
  - apply zfill2_long.
  - intros d ->. simpl. apply Forall_cons in Hds as [Hd _].
    destruct (Hclass _ Hd) as (_ & _ & H43 & H45).
    replace ((d =? 43) || (d =? 45)) with false; [done|].
    symmetry. apply orb_false_iff. split; by apply N.eqb_neq.
Qed.

Lemma ascii_digit_class : digit_class is_ascii_digit.
Proof.
  intros c Hc. unfold is_ascii_digit in Hc. bool_facts.
  split; [|lia]. unfold is_space.
  repeat match goal with
  | |- context [?a <=? ?b] =>
      first [ rewrite (proj2 (N.leb_le a b)) by lia | rewrite (proj2 (N.leb_gt a b)) by lia ]
  | |- context [?a =? ?b] => rewrite (proj2 (N.eqb_neq a b)) by lia
  end.
  reflexivity.
Qed.

(** The title ["Lecture 0x2 강 arrays"]. *)
Lemma extract_number_reads_marker_witness :
  extract_number is_ascii_digit
    (lit "Lecture " ++ 48 :: 120 :: lit "2" ++ lit " " ++ 44053 :: lit " arrays") 7
  = lit "02".
Proof.
  destruct (extract_number_reads_marker is_ascii_digit (lit "Lecture ") 120 (lit "2")
              (lit " ") (lit " arrays") 7) as (_ & _ & H).
  - exact ascii_digit_class.
  - vm_compute. intros H. repeat (apply elem_of_cons in H as [H|H]; [done|]).
    by apply elem_of_nil in H.
  - by left.
  - done.
  - by repeat constructor.
  - by repeat constructor.
  - by apply (H 50).
Defined.

(** ** Folder Matcher and Name Normalizer: what is found and what is kept *)

Section MatcherResult.

Lemma find_elem {A} (f : A -> bool) l p : List.find f l = Some p -> p ∈ l /\ f p = true.
Proof. intros H. apply find_some in H as [H ?]. by apply list_elem_of_In in H. Qed.

Lemma find_none_Forall {A} (f : A -> bool) l :
  List.find f l = None -> Forall (fun q => f q = false) l.
Proof.
  intros H. apply Forall_forall. intros q Hq. apply list_elem_of_In in Hq.
  by apply (find_none f l H).
Qed.

Lemma find_md_for_folder_cases (parent : list (list N)) (folder_name : str)
    (m : gmap (list (list N)) FS.entry) :
  let cands := glob_md parent m in
  match find_md_for_folder parent folder_name m with
  | Some p => p ∈ cands
  | None =>
      cands = [] \/
      ((2 <= length cands)%nat /\
       Forall (fun q => ~ exact_match folder_name q /\ ~ loose_match folder_name q) cands)
  end.
Proof.
  intros cands. unfold find_md_for_folder. fold cands.
  destruct cands as [|c cands'] eqn:Ec; [by left|].
  destruct (List.find _ (c :: cands')) as [p|] eqn:E1.
  { by apply find_elem in E1 as [? _]. }
  destruct (List.find (fun p => contains folder_name (stem_of p) || HEX32.search (stem_of p))
              (c :: cands')) as [p|] eqn:E2.
  { by apply find_elem in E2 as [? _]. }
  destruct cands' as [|c' cands'']; simpl; [by left|].
  right. split; [lia|].
  apply find_none_Forall in E1, E2.
  apply Forall_forall. intros q Hq.
  rewrite Forall_forall in E1, E2. specialize (E1 q Hq). specialize (E2 q Hq).
  simpl in E1, E2. split.
  - intros Hex. apply str_eqb_eq in Hex. congruence.
  - intros Hl. apply orb_true_iff in Hl. congruence.
Qed.

End MatcherResult.

(** X3.  A document that [find_md_for_folder] returns is an entry of the
    parent directory whose name ends in [.md]. *)
Theorem find_md_for_folder_sound (parent : list (list N)) (folder_name : str)
    (m : gmap (list (list N)) FS.entry) (p : list (list N)) :
  find_md_for_folder parent folder_name m = Some p ->
  exists n, p = parent ++ [n] /\ endswith (lit ".md") n = true /\ is_Some (m !! p).
Proof.
  intros H. pose proof (find_md_for_folder_cases parent folder_name m) as Hc.
  cbv zeta in Hc. rewrite H in Hc.
  apply elem_of_glob_md in Hc as (n & -> & ? & ?). by exists n.
Qed.

(** The document [x.md] of [two_docs]. *)
Lemma find_md_for_folder_sound_witness :
  exists n, [lit "x.md"] = [] ++ [n] /\ endswith (lit ".md") n = true /\
            is_Some (two_docs !! [lit "x.md"]).
Proof. apply (find_md_for_folder_sound [] (lit "x") two_docs). vm_compute. reflexivity. Defined.

(** X4.  [find_md_for_folder] finds no document exactly when the parent has
    no document, or has two or more none of which matches, exactly or
    loosely; a parent with a single document always yields it. *)
Theorem find_md_for_folder_none_iff (parent : list (list N)) (folder_name : str)
    (m : gmap (list (list N)) FS.entry) :
  let cands := glob_md parent m in
  (find_md_for_folder parent folder_name m = None <->
   cands = [] \/
   ((2 <= length cands)%nat /\
    Forall (fun q => ~ exact_match folder_name q /\ ~ loose_match folder_name q) cands)) /\
  (forall p, cands = [p] -> find_md_for_folder parent folder_name m = Some p).
Proof.
  intros cands.
  pose proof (find_md_for_folder_cases parent folder_name m) as Hc. cbv zeta in Hc.
  fold cands in Hc.
  assert (Hback : cands = [] \/
     ((2 <= length cands)%nat /\
      Forall (fun q => ~ exact_match folder_name q /\ ~ loose_match folder_name q) cands) ->
     find_md_for_folder parent folder_name m = None).
  { intros Hn. destruct (find_md_for_folder parent folder_name m) as [p|] eqn:E; [|done].
    exfalso. destruct Hn as [Hn|[Hlen Hall]].
    - rewrite Hn in Hc. by apply elem_of_nil in Hc.
    - rewrite Forall_forall in Hall. destruct (Hall p Hc) as [Hne Hnl].
      unfold find_md_for_folder in E. fold cands in E.
      destruct cands as [|c cands'] eqn:Ec; [done|].
      destruct (List.find _ (c :: cands')) as [p1|] eqn:E1.
      { injection E as ->. apply find_elem in E1 as [_ E1]. by apply str_eqb_eq in E1. }
      destruct (List.find (fun p => contains folder_name (stem_of p)
                                    || HEX32.search (stem_of p))
                  (c :: cands')) as [p2|] eqn:E2.
      { injection E as ->. apply find_elem in E2 as [_ E2].
        apply Hnl. by apply orb_true_iff in E2. }
      destruct cands'; simpl in *; [lia|done]. }
  split.
  - split; [|done].
    intros E. by rewrite E in Hc.
  - intros p Ep.
    destruct (find_md_for_folder parent folder_name m) as [q|] eqn:E.
    + rewrite Ep in Hc. by apply list_elem_of_singleton in Hc as ->.
    + exfalso. rewrite Ep in Hc. destruct Hc as [?|[Hlen _]]; [done|]. simpl in Hlen. lia.
Qed.

Section Normal.

Lemma lstrip_by_sublist p s : lstrip_by p s `sublist_of` s.
Proof.
  induction s as [|c s IH]; simpl; [done|].
  destruct (p c); [by apply sublist_cons|done].
Qed.

Lemma rev_sublist {A} (a b : list A) : a `sublist_of` b -> rev a `sublist_of` rev b.
Proof.
  induction 1 as [|x a b H IH|x a b H IH]; simpl; [done| |].
  - by apply sublist_app.
  - by apply sublist_inserts_r.
Qed.

Lemma rstrip_by_sublist p s : rstrip_by p s `sublist_of` s.
Proof.
  unfold rstrip_by. rewrite <- (rev_involutive s) at 2.
  apply rev_sublist, lstrip_by_sublist.
Qed.

Lemma remove_char_sublist c s : remove_char c s `sublist_of` s.
Proof.
  induction s as [|x s IH]; simpl; [done|].
  destruct (char_eqb x c); [by apply sublist_cons|by apply sublist_skip].
Qed.

Lemma strip_trimmed s : trimmed (strip s).
Proof.
  unfold strip. split.
  - apply rstrip_by_ltrimmed, lstrip_by_ltrimmed.
  - unfold rstrip_by. rewrite rev_involutive. apply lstrip_by_ltrimmed.
Qed.

Lemma strip_fixed s : trimmed s -> strip s = s.
Proof.
  intros [Hl Hr]. unfold strip. rewrite lstrip_by_fixed by done.
  unfold rstrip_by. rewrite lstrip_by_fixed by done. apply rev_involutive.
Qed.

End Normal.

(** X5.  [remove_brackets] only deletes characters: its result is a
    subsequence of its argument, and it returns its argument as it is
    exactly when the argument holds no bracket and neither starts nor ends
    with whitespace. *)
Theorem remove_brackets_deletes_only (s : str) :
  remove_brackets s `sublist_of` s /\
  (remove_brackets s = s <-> (91 ∉ s) /\ (93 ∉ s) /\ trimmed s).
Proof.
  split.
  - unfold remove_brackets, strip.
    etrans; [apply rstrip_by_sublist|]. etrans; [apply lstrip_by_sublist|].
    etrans; apply remove_char_sublist.
  - split.
    + intros E. split; [|split].
      * rewrite <- E. unfold remove_brackets. intros H%strip_subset.
        apply remove_char_subset in H. by apply remove_char_absent in H.
      * rewrite <- E. unfold remove_brackets. intros H%strip_subset.
        by apply remove_char_absent in H.
      * rewrite <- E. apply strip_trimmed.
    + intros (H91 & H93 & Ht). unfold remove_brackets.
      rewrite (remove_char_id 91) by done. rewrite (remove_char_id 93) by done.
      by apply strip_fixed.
Qed.

(** X6.  The value of the hash plays no part: two names that differ only in
    their final hash token are stripped to the same name and have the same
    normal form, so a document whose stem is the folder name with another
    hash is an exact match of the folder. *)
Theorem strip_hash_ignores_hash_value (pre h1 h2 : str) :
  ends_blank pre -> HEX32.fullmatch h1 = true -> HEX32.fullmatch h2 = true ->
  strip_hash (pre ++ h1) = strip_hash (pre ++ h2) /\
  norm (pre ++ h1) = norm (pre ++ h2) /\
  (forall p, stem_of p = pre ++ h2 -> exact_match (pre ++ h1) p).
Proof.
  intros Hpre H1 H2.
  assert (E : strip_hash (pre ++ h1) = strip_hash (pre ++ h2)).
  { pose proof (strip_hash_decomposed pre h1 [] Hpre (fullmatch_token _ H1)) as E1.
    pose proof (strip_hash_decomposed pre h2 [] Hpre (fullmatch_token _ H2)) as E2.
    rewrite app_nil_r, H1 in E1 by constructor. rewrite app_nil_r, H2 in E2 by constructor.
    rewrite E1, E2; [done|constructor|constructor]. }
  split; [done|]. split.
  - unfold norm. by rewrite E.
  - intros p Hp. unfold exact_match, norm. by rewrite Hp, E.
Qed.

(** The name ["Intro <hash>"] with a hash and with the hash reversed. *)
Lemma strip_hash_ignores_hash_value_witness :
  strip_hash (lit "Intro " ++ h32) = strip_hash (lit "Intro " ++ rev h32).
Proof.
  apply (strip_hash_ignores_hash_value (lit "Intro ") h32 (rev h32)).
  - right. exists (lit "Intro"), 32. split; reflexivity.
  - reflexivity.
  - reflexivity.
Defined.

(** ** Folder Renamer: a rename to a free path, and what is left alone *)

Section Rekey.

Implicit Types (src dst p t q r k : list (list N)) (m : gmap (list (list N)) FS.entry).

Lemma is_prefix_spec a b : FS.is_prefix a b = true <-> a `prefix_of` b.
Proof.
  revert b. induction a as [|x a IH]; intros b; simpl.
  - split; [intros _; apply prefix_nil|done].
  - destruct b as [|y b].
    + split; [done|]. intros [k Hk]. done.
    + rewrite andb_true_iff, bool_decide_eq_true, IH. split.
      * intros [-> H]. by apply prefix_cons.
      * intros [k Hk]. injection Hk as -> ->. split; [done|]. by exists k.
Qed.

Lemma is_prefix_false a b : FS.is_prefix a b = false <-> ~ a `prefix_of` b.
Proof. rewrite <- is_prefix_spec. by destruct (FS.is_prefix a b). Qed.

Lemma retarget_below src dst r : FS.retarget src dst (src ++ r) = dst ++ r.
Proof.
  unfold FS.retarget.
  rewrite (proj2 (is_prefix_spec src (src ++ r))) by by exists r.
  by rewrite drop_app_length.
Qed.

Lemma retarget_outside src dst k : ~ src `prefix_of` k -> FS.retarget src dst k = k.
Proof. intros H. unfold FS.retarget. by rewrite (proj2 (is_prefix_false src k)). Qed.

Lemma retarget_cases src dst k :
  (exists r, k = src ++ r /\ FS.retarget src dst k = dst ++ r) \/
  (~ src `prefix_of` k /\ FS.retarget src dst k = k).
Proof.
  destruct (FS.is_prefix src k) eqn:E.
  - apply is_prefix_spec in E as [r ->]. left. exists r. by rewrite retarget_below.
  - apply is_prefix_false in E. right. by rewrite retarget_outside.
Qed.

(** A list of pairs that gives a key one value only maps the key to it. *)
Lemma list_to_map_functional {A} (l : list (list (list N) * A)) k v :
  (k, v) ∈ l -> (forall v', (k, v') ∈ l -> v' = v) ->
  (list_to_map l : gmap (list (list N)) A) !! k = Some v.
Proof.
  induction l as [|[k' v'] l IH]; intros Hin Hfun; [by apply elem_of_nil in Hin|].
  simpl. destruct (decide (k' = k)) as [->|Hne].
  - rewrite lookup_insert_eq. f_equal. apply Hfun. by left.
  - rewrite lookup_insert_ne by done. apply IH.
    + apply elem_of_cons in Hin as [[= -> ->]|Hin]; [done|done].
    + intros v'' H. apply Hfun. by right.
Qed.

Lemma elem_of_rekey_list src dst m q e :
  (q, e) ∈ prod_map (FS.retarget src dst) id <$> map_to_list m <->
  exists k, FS.retarget src dst k = q /\ m !! k = Some e.
Proof.
  rewrite list_elem_of_fmap. split.
  - intros ([k v] & [= -> ->] & H). exists k. split; [done|].
    by apply elem_of_map_to_list in H.
  - intros (k & <- & H). exists (k, e). split; [done|]. by apply elem_of_map_to_list.
Qed.

Lemma rekey_lookup_None src dst m q :
  (forall k, FS.retarget src dst k = q -> m !! k = None) ->
  FS.rekey src dst m !! q = None.
Proof.
  intros H. unfold FS.rekey. apply not_elem_of_list_to_map_1.
  intros Hin. apply list_elem_of_fmap in Hin as ([q' e] & -> & Hin). simpl in Hin.
  apply elem_of_rekey_list in Hin as (k & Hk & Hm). simpl in Hk.
  rewrite (H k Hk) in Hm. done.
Qed.

Lemma rekey_lookup_Some src dst m q k e :
  FS.retarget src dst k = q -> m !! k = Some e ->
  (forall k', FS.retarget src dst k' = q -> is_Some (m !! k') -> k' = k) ->
  FS.rekey src dst m !! q = Some e.
Proof.
  intros Hk Hm Huniq. unfold FS.rekey. apply list_to_map_functional.
  - apply elem_of_rekey_list. by exists k.
  - intros v' Hin. apply elem_of_rekey_list in Hin as (k' & Hk' & Hm').
    rewrite (Huniq k' Hk') in Hm' by by eexists. congruence.
Qed.

(** A rename changes nothing outside the source and the destination. *)
Lemma rekey_outside src dst m q :
  ~ src `prefix_of` q -> ~ dst `prefix_of` q -> FS.rekey src dst m !! q = m !! q.
Proof.
  intros Hs Hd.
  assert (Hsrc : forall k, FS.retarget src dst k = q -> k = q).
  { intros k Hk. destruct (retarget_cases src dst k) as [(r & -> & E)|[_ E]].
    - exfalso. apply Hd. exists r. congruence.
    - congruence. }
  destruct (m !! q) as [e|] eqn:E.
  - apply (rekey_lookup_Some src dst m q q e); [by apply retarget_outside|done|].
    intros k' Hk' _. by apply Hsrc.
  - apply rekey_lookup_None. intros k Hk. by rewrite (Hsrc k Hk).
Qed.

(** Nothing is left at or below the source. *)
Lemma rekey_source src dst m r :
  apart src dst -> FS.rekey src dst m !! (src ++ r) = None.
Proof.
  intros Hap. apply rekey_lookup_None. intros k Hk.
  destruct (retarget_cases src dst k) as [(r' & -> & E)|[Hn E]].
  - exfalso. rewrite E in Hk. symmetry in Hk. by apply (apart_neq src dst r r' Hap).
  - exfalso. apply Hn. exists r. congruence.
Qed.

(** Below a destination that had nothing, there is what the source had. *)
Lemma rekey_destination src dst m r :
  apart src dst -> (forall r', m !! (dst ++ r') = None) ->
  FS.rekey src dst m !! (dst ++ r) = m !! (src ++ r).
Proof.
  intros Hap Hfresh.
  assert (Hsrc : forall k, FS.retarget src dst k = dst ++ r -> is_Some (m !! k) ->
                           k = src ++ r).
  { intros k Hk [e He]. destruct (retarget_cases src dst k) as [(r' & -> & E)|[_ E]].
    - rewrite E in Hk. by apply app_inv_head in Hk as ->.
    - rewrite E in Hk. rewrite Hk, Hfresh in He. done. }
  destruct (m !! (src ++ r)) as [e|] eqn:E.
  - apply (rekey_lookup_Some src dst m _ (src ++ r) e); [apply retarget_below|done|done].
  - apply rekey_lookup_None. intros k Hk.
    destruct (m !! k) as [e|] eqn:Ek; [|done].
    rewrite (Hsrc k Hk) in Ek by by eexists. congruence.
Qed.

Lemma parent_error_None t m :
  t <> [] -> FS.is_dir (FS.parent t) m = true -> FS.parent_error t m = None.
Proof.
  intros Ht Hp. destruct t as [|x t]; [done|]. unfold FS.parent_error.
  unfold FS.is_dir in Hp. by destruct (FS.stat (FS.parent (x :: t)) m) as [[|]|].
Qed.

(** [shutil.move] to a path that does not exist, in an existing directory. *)
Lemma move_fresh src dst m :
  src <> dst -> dst <> [] -> m !! dst = None -> FS.is_dir (FS.parent dst) m = true ->
  FS.move src dst m =
  match FS.stat src m with
  | None => (FS.Raise FS.FileNotFoundError, m)
  | Some (FS.File text) => (FS.Ok tt, <[dst := FS.File text]> (delete src m))
  | Some FS.Dir =>
      if FS.is_prefix src dst then (FS.Raise FS.ShutilError, m)
      else (FS.Ok tt, FS.rekey src dst m)
  end.
Proof.
  intros Hne Hd Hnone Hparent.
  pose proof (parent_error_None dst m Hd Hparent) as Hpe.
  destruct dst as [|x d]; [done|].
  unfold FS.move, FS.rename, FS.is_dir, FS.exists_. cbn [FS.stat].
  rewrite Hnone. cbn [andb]. rewrite Hpe.
  destruct (FS.stat src m) as [[text|]|]; try done.
  - destruct (decide (src = x :: d)); [done|]. cbn [FS.stat]. by rewrite Hnone.
  - destruct (decide (src = x :: d)); [done|]. cbn [FS.stat]. rewrite Hnone.
    by destruct (FS.is_prefix src (x :: d)).
Qed.

(** [rename_folder] to a path that does not exist is one rename. *)
Lemma rename_folder_fresh_run limit src dst m :
  m !! src = Some FS.Dir -> apart src dst -> m !! dst = None ->
  FS.is_dir (FS.parent dst) m = true ->
  rename_folder (S limit) src dst m = (FS.Ok tt, FS.rekey src dst m).
Proof.
  intros Hsrc Hap Hnone Hparent.
  destruct (apart_nonempty src dst Hap) as [Hs Hd].
  assert (Hne : src <> dst) by (intros ->; apply Hap; done).
  rewrite rename_folder_unfold, decide_False by done.
  unfold FS.exists_. rewrite stat_nonempty, Hnone by done.
  rewrite move_fresh by done. rewrite stat_nonempty, Hsrc by done.
  by rewrite (proj2 (is_prefix_false src dst)) by apply Hap.
Qed.

End Rekey.

(** X7.  Renaming a directory to a path that does not exist, in an existing
    directory: the call returns, nothing is left at or below the source,
    the destination holds at every relative path what the source held, and
    nothing else has changed. *)
Theorem rename_folder_moves_fresh (limit : nat) (src dst : list (list N))
    (m : gmap (list (list N)) FS.entry) :
  m !! src = Some FS.Dir -> apart src dst ->
  (forall r, m !! (dst ++ r) = None) ->
  FS.is_dir (FS.parent dst) m = true ->
  exists m',
    rename_folder (S limit) src dst m = (FS.Ok tt, m') /\
    (forall r, m' !! (src ++ r) = None) /\
    (forall r, m' !! (dst ++ r) = m !! (src ++ r)) /\
    (forall q, ~ src `prefix_of` q -> ~ dst `prefix_of` q -> m' !! q = m !! q).
Proof.
  intros Hsrc Hap Hfresh Hparent.
  assert (Hnone : m !! dst = None) by (specialize (Hfresh []); by rewrite app_nil_r in Hfresh).
  exists (FS.rekey src dst m). split; [by apply rename_folder_fresh_run|].
  split; [|split].
  - intros r. by apply rekey_source.
  - intros r. by apply rekey_destination.
  - intros q. apply rekey_outside.
Qed.

(** The folder [A] of [fresh_fs] renamed to [lecture 01]. *)
Lemma rename_folder_moves_fresh_witness :
  exists m',
    rename_folder 1 [lit "A"] [lit "lecture 01"] fresh_fs = (FS.Ok tt, m') /\
    m' !! [lit "A"; lit "d"; lit "g.png"] = None /\
    m' !! [lit "lecture 01"; lit "d"; lit "g.png"] = Some (FS.File (lit "g")) /\
    m' !! [lit "A.md"] = Some (FS.File (lit "text")).
Proof.
  assert (Hap : apart [lit "A"] [lit "lecture 01"]).
  { split; intros [k Hk]; discriminate Hk. }
  assert (Hfresh : forall r, fresh_fs !! ([lit "lecture 01"] ++ r) = None).
  { intros r. destruct (fresh_fs !! ([lit "lecture 01"] ++ r)) as [e|] eqn:E; [exfalso|done].
    apply elem_of_map_to_list in E.
    vm_compute in E.
    repeat (apply elem_of_cons in E as [E|E]; [discriminate E|]).
    by apply elem_of_nil in E. }
  destruct (rename_folder_moves_fresh 0 [lit "A"] [lit "lecture 01"] fresh_fs)
    as (m' & Hrun & Hgone & Hmoved & Hrest); [reflexivity|exact Hap|exact Hfresh|reflexivity|].
  exists m'. split; [exact Hrun|]. split; [|split].
  - apply (Hgone [lit "d"; lit "g.png"]).
  - etrans; [apply (Hmoved [lit "d"; lit "g.png"])|]. vm_compute. reflexivity.
  - etrans; [apply Hrest|vm_compute; reflexivity]; intros [k Hk]; discriminate Hk.
Defined.

(** X8.  However [rename_folder] ends, when the destination exists or its
    parent is a directory, every path that lies neither at or below the
    source nor at or below the destination is as it was. *)
Theorem rename_folder_frame (limit : nat) (src dst : list (list N))
    (m : gmap (list (list N)) FS.entry) (res : FS.outcome unit)
    (m' : gmap (list (list N)) FS.entry) :
  FS.exists_ dst m = true \/ FS.is_dir (FS.parent dst) m = true ->
  rename_folder limit src dst m = (res, m') ->
  forall q, ~ src `prefix_of` q -> ~ dst `prefix_of` q -> m' !! q = m !! q.
Proof.
  intros Hdst Hrun q Hs Hd.
  destruct (FS.exists_ dst m) eqn:Hex.
  - by apply (rename_folder_preserved limit src dst m res m' Hex Hrun q).
  - destruct Hdst as [?|Hparent]; [done|].
    destruct limit as [|limit]; [by injection Hrun as <- <-|].
    rewrite rename_folder_unfold, Hex in Hrun.
    destruct (decide (src = dst)) as [->|Hne]; [by injection Hrun as <- <-|].
    assert (Hd0 : dst <> []) by (intros ->; done).
    unfold FS.exists_ in Hex. rewrite stat_nonempty in Hex by done.
    destruct (m !! dst) eqn:Hnone; [done|].
    rewrite move_fresh in Hrun by done.
    destruct (FS.stat src m) as [[text|]|].
    + injection Hrun as <- <-.
      rewrite lookup_insert_ne by (intros <-; by apply Hd).
      rewrite lookup_delete_ne by (intros <-; by apply Hs). done.
    + destruct (FS.is_prefix src dst); injection Hrun as <- <-; [done|].
      by apply rekey_outside.
    + by injection Hrun as <- <-.
Qed.

(** A path beside the two folders of [collide_fs]. *)
Lemma rename_folder_frame_witness :
  (rename_folder 2 [lit "A"] [lit "B"] collide_fs).2 !! [lit "C"] = collide_fs !! [lit "C"].
Proof.
  apply (rename_folder_frame 2 [lit "A"] [lit "B"] collide_fs
           (rename_folder 2 [lit "A"] [lit "B"] collide_fs).1).
  - left. reflexivity.
  - by destruct (rename_folder 2 [lit "A"] [lit "B"] collide_fs).
  - intros [k Hk]; discriminate Hk.
  - intros [k Hk]; discriminate Hk.
Defined.


(** ** Folder Renamer and Link Rewriter: how a call fails *)

Section Collision.

Implicit Types (src dst : list (list N)) (m : gmap (list (list N)) FS.entry).

Lemma for_each_invariant {A : Type} (Inv : gmap (list (list N)) FS.entry -> Prop)
    (body : A -> FS.M unit) (l : list A) (m : gmap (list (list N)) FS.entry)
    (res : FS.outcome unit) (m' : gmap (list (list N)) FS.entry) :
  (forall x m1 res1 m2, x ∈ l -> Inv m1 -> body x m1 = (res1, m2) -> Inv m2) ->
  Inv m -> FS.for_each l body m = (res, m') -> Inv m'.
Proof.
  revert m. induction l as [|x l IH]; intros m Hbody Hinv; simpl.
  - by intros [= <- <-].
  - unfold FS.bind. destruct (body x m) as [[[]|e] m1] eqn:E.
    + apply IH.
      * intros y ? ? ? Hy. apply Hbody. by right.
      * eapply Hbody; [by left|done|done].
    + intros [= <- <-]. eapply Hbody; [by left|done|done].
Qed.

(** One turn of the loop keeps what lies outside the two entries it
    handles. *)
Lemma merge_entry_preserved limit src dst nm m1 res1 m2 :
  merge_entry (rename_folder limit) dst (src ++ [nm]) m1 = (res1, m2) ->
  preserved (src ++ [nm]) (dst ++ [nm]) m1 m2.
Proof.
  unfold merge_entry. rewrite name_snoc.
  destruct (FS.is_dir (src ++ [nm]) m1) eqn:Hd.
  - unfold mbind, M_bind, FS.bind.
    destruct (FS.mkdir_exist_ok (dst ++ [nm]) m1) as [[[]|e2] m4] eqn:Emk.
    + apply (mkdir_preserved (src ++ [nm]) (dst ++ [nm])) in Emk as [Hmk Hex]; [|done].
      intros Hrec. eapply preserved_trans; [exact Hmk|].
      eapply rename_folder_preserved; [by apply Hex|exact Hrec].
    + intros [= <- <-].
      by apply (mkdir_preserved (src ++ [nm]) (dst ++ [nm])) in Emk as [Hmk _].
  - destruct (FS.exists_ (dst ++ [nm]) m1) eqn:Hex.
    + intros [= <- <-]. apply preserved_refl.
    + by apply move_file_preserved.
Qed.

End Collision.

(** X10.  When a regular file of the source meets an entry of the same name in
    an existing destination, [rename_folder] does not return: it raises,
    and both the file of the source and the entry of the destination are
    where they were. *)
Theorem rename_folder_collision_raises (limit : nat) (src dst : list (list N))
    (m : gmap (list (list N)) FS.entry) (n text : list N) :
  apart src dst -> FS.exists_ dst m = true ->
  m !! (src ++ [n]) = Some (FS.File text) -> is_Some (m !! (dst ++ [n])) ->
  exists e m',
    rename_folder limit src dst m = (FS.Raise e, m') /\
    m' !! (src ++ [n]) = Some (FS.File text) /\
    m' !! (dst ++ [n]) = m !! (dst ++ [n]).
Proof.
  intros Hap Hdst Hfile Hclash.
  destruct limit as [|limit]; [by exists FS.RecursionError, m|].
  assert (Hne : src <> dst) by (intros ->; apply Hap; done).
  destruct (apart_nonempty src dst Hap) as [Hs _].
  rewrite rename_folder_unfold, decide_False, Hdst by done.
  unfold mbind, M_bind, FS.bind, FS.iterdir.
  destruct (FS.stat src m) as [[t|]|] eqn:Hsrc;
    [by exists FS.NotADirectoryError, m| |by exists FS.FileNotFoundError, m].
  set (Inv := fun m1 : gmap (list (list N)) FS.entry =>
                m1 !! (src ++ [n]) = Some (FS.File text) /\
                m1 !! (dst ++ [n]) = m !! (dst ++ [n])).
  match goal with
  | |- context [FS.for_each ?l ?b m] =>
      destruct (FS.for_each l b m) as [[[]|e] m1] eqn:E;
      assert (Hinv : Inv m1);
      [eapply (for_each_invariant Inv b l m); [|done|exact E]| |
       eapply (for_each_invariant Inv b l m); [|done|exact E]|]
  end.
  1,3: intros p m2 r2 m3 Hp [Hi1 Hi2] Hbody;
       apply list_elem_of_fmap in Hp as (nm & -> & _);
       destruct (decide (nm = n)) as [->|Hnm];
       [ unfold merge_entry in Hbody; rewrite name_snoc in Hbody;
         unfold FS.is_dir, FS.exists_ in Hbody; rewrite !stat_snoc, Hi1, Hi2 in Hbody;
         destruct Hclash as [c Hc]; rewrite Hc in Hbody; by injection Hbody as <- <-
       | apply merge_entry_preserved in Hbody; split;
         [ apply (Hbody (src ++ [n])); [|done];
           intros [k Hk]; rewrite <- app_assoc in Hk; apply app_inv_head in Hk; by simplify_eq/=
         | rewrite <- Hi2; apply (Hbody (dst ++ [n]));
           [ intros [k Hk]; rewrite <- app_assoc in Hk; symmetry in Hk;
             by apply (apart_neq src dst _ _ Hap) in Hk
           | intros [k Hk]; rewrite <- app_assoc in Hk; apply app_inv_head in Hk;
             by simplify_eq/= ] ] ].
  - destruct Hinv as [Hi1 Hi2].
    assert (Hin : n ∈ FS.listdir src m1) by (apply elem_of_listdir; by rewrite Hi1).
    unfold FS.rmdir. destruct src as [|x src]; [done|].
    destruct (FS.stat (x :: src) m1) as [[t|]|];
      [by exists FS.NotADirectoryError, m1| |by exists FS.FileNotFoundError, m1].
    destruct (FS.listdir (x :: src) m1); [by apply elem_of_nil in Hin|].
    by exists FS.NotEmptyError, m1.
  - destruct Hinv as [Hi1 Hi2]. by exists e, m1.
Qed.

(** The file [x.png] of the two folders of [collide_fs]. *)
Lemma rename_folder_collision_raises_witness :
  exists e m',
    rename_folder 2 [lit "A"] [lit "B"] collide_fs = (FS.Raise e, m') /\
    m' !! [lit "A"; lit "x.png"] = Some (FS.File (lit "a")) /\
    m' !! [lit "B"; lit "x.png"] = collide_fs !! [lit "B"; lit "x.png"].
Proof.
  apply (rename_folder_collision_raises 2 [lit "A"] [lit "B"] collide_fs
           (lit "x.png") (lit "a")).
  - split; intros [k Hk]; discriminate Hk.
  - reflexivity.
  - reflexivity.
  - eexists. reflexivity.
Defined.

Section AllOrNothing.

Lemma write_text_cases (p : list (list N)) (text : list N)
    (m : gmap (list (list N)) FS.entry) :
  (exists e, FS.write_text p text m = (FS.Raise e, m)) \/
  FS.write_text p text m = (FS.Ok tt, <[p := FS.File text]> m).
Proof.
  unfold FS.write_text. destruct (FS.stat p m) as [[t|]|].
  - by right.
  - left. by eexists.
  - destruct (FS.parent_error p m); [left; by eexists|by right].
Qed.

(** [replace_links] raises and leaves the file system as it is, or reads
    the document and writes the backup and the rewritten text. *)
Lemma replace_links_cases (md_path : list (list N)) (olds : list str)
    (new_img_dir_abs : list (list N)) (m : gmap (list (list N)) FS.entry) :
  (exists e, replace_links md_path olds new_img_dir_abs m = (FS.Raise e, m)) \/
  (exists text text',
     m !! md_path = Some (FS.File text) /\
     rewrite_text olds (PosixPath.relpath new_img_dir_abs (FS.parent md_path)) text
       = Some text' /\
     let m' := <[md_path := FS.File text']> (<[bak_of md_path := FS.File text]> m) in
     replace_links md_path olds new_img_dir_abs m
     = (FS.Ok (report_missing (FS.name md_path)
                 (missing_links (FS.parent md_path) text' m')), m')).
Proof.
  unfold replace_links, mbind, M_bind, FS.bind, FS.read_text.
  destruct (FS.stat md_path m) as [[text|]|] eqn:Hmd; try (left; by eexists).
  assert (Hne : md_path <> []) by (intros ->; done).
  rewrite stat_nonempty in Hmd by done.
  destruct (rewrite_text _ _ text) as [text'|] eqn:Hrw; [|left; by eexists].
  rewrite stat_nonempty, Hmd, with_suffix_bak by done.
  destruct (write_text_cases (bak_of md_path) text m) as [[e ->]| ->]; [left; by eexists|].
  assert (Hmd' : FS.stat md_path (<[bak_of md_path := FS.File text]> m)
                 = Some (FS.File text)).
  { rewrite stat_nonempty by done. rewrite lookup_insert_ne by by apply bak_of_neq. done. }
  unfold FS.write_text. rewrite !Hmd'.
  right. by exists text, text'.
Qed.

End AllOrNothing.



(** ** Link Rewriter: the round trip of a rewritten path *)

Section Encoding.

Lemma utf8_encode_char_scalar c bs : Url.utf8_encode_char c = Some bs -> scalar c.
Proof.
  intros H. unfold scalar, is_scalar.
  destruct (N.ltb_spec c 55296) as [|H1]; [done|]. cbn [orb].
  destruct (N.ltb_spec 57343 c) as [H2|H2]; cbn [andb].
  - destruct (N.ltb_spec c 1114112) as [|H3]; [done|]. exfalso.
    revert H. unfold Url.utf8_encode_char. by decide_tests.
  - exfalso. revert H. unfold Url.utf8_encode_char. by decide_tests.
Qed.

Lemma utf8_encode_Some_scalar s bs : Url.utf8_encode s = Some bs -> Forall scalar s.
Proof.
  revert bs. induction s as [|c s IH]; intros bs; simpl; [constructor|].
  destruct (Url.utf8_encode_char c) as [b1|] eqn:E1; [|done].
  destruct (Url.utf8_encode s) as [b2|] eqn:E2; [|done].
  intros _. constructor; [by eapply utf8_encode_char_scalar|by eapply IH].
Qed.

Lemma quote_Some_scalar safe s out : Url.quote safe s = Some out -> Forall scalar s.
Proof.
  unfold Url.quote. destruct (Url.utf8_encode s) as [bs|] eqn:E; [|done].
  intros _. by eapply utf8_encode_Some_scalar.
Qed.

Lemma quote_None safe s : ~ Forall scalar s -> Url.quote safe s = None.
Proof.
  intros Hs. destruct (Url.quote safe s) as [out|] eqn:E; [|done].
  exfalso. apply Hs. by eapply quote_Some_scalar.
Qed.

Lemma hex_digit_not_space n : n < 16 -> Url.hex_digit n <> 32.
Proof. intros Hn. unfold Url.hex_digit. destruct (n <? 10); lia. Qed.

Lemma quoted_no_space bs :
  Forall (fun b => b < 256) bs -> 32 ∉ concat (map (Url.quote_byte safe_chars) bs).
Proof.
  induction 1 as [|b bs Hb Hbs IH]; simpl; [by intros ?%elem_of_nil|].
  intros [Hin|Hin]%elem_of_app; [|done].
  unfold Url.quote_byte in Hin.
  destruct (Url.always_safe b || (b <? 128) && mem_char b safe_chars) eqn:E.
  - apply list_elem_of_singleton in Hin as <-. vm_compute in E. done.
  - repeat (apply elem_of_cons in Hin as [Hin|Hin]);
      [done|by apply (hex_digit_not_space (b / 16)); [nlia|]
      |by apply (hex_digit_not_space (b mod 16)); [nlia|]
      |by apply elem_of_nil in Hin].
Qed.

Lemma quote_ascii_no_space s out :
  Url.quote safe_chars s = Some out -> Forall (fun c => c < 128 /\ c <> 32) out.
Proof.
  intros E. pose proof (quote_Some_scalar _ _ _ E) as Hs.
  destruct (utf8_roundtrip s Hs) as (bs & Eb & Hb & _).
  unfold Url.quote in E. rewrite Eb in E. simpl in E. injection E as <-.
  pose proof (quoted_ascii bs Hb) as Ha. pose proof (quoted_no_space bs Hb) as Hn.
  rewrite Forall_forall in Ha. apply Forall_forall. intros c Hc. split; [by apply Ha|].
  by intros ->.
Qed.

End Encoding.

Section Segments.

Lemma split_on_no_sep sep cur s x :
  sep ∉ cur -> x ∈ PosixPath.split_on sep cur s -> sep ∉ x.
Proof.
  revert cur. induction s as [|c s IH]; intros cur Hcur; simpl.
  - intros ->%list_elem_of_singleton. by rewrite elem_of_rev.
  - destruct (char_eqb c sep) eqn:E.
    + intros [->|Hin]%elem_of_cons; [by rewrite elem_of_rev|].
      apply (IH []); [by intros ?%elem_of_nil|done].
    + apply IH. apply char_eqb_neq in E. intros [->|?]%elem_of_cons; done.
Qed.

Lemma split_on_run sep cur x s :
  sep ∉ x -> PosixPath.split_on sep cur (x ++ s) = PosixPath.split_on sep (rev x ++ cur) s.
Proof.
  revert cur. induction x as [|c x IH]; intros cur Hx; [done|].
  apply not_elem_of_cons in Hx as [Hc Hx].
  cbn [app PosixPath.split_on].
  rewrite (proj2 (char_eqb_neq c sep)) by done.
  rewrite IH by done. simpl. by rewrite <- app_assoc.
Qed.

Lemma split_on_join sep l :
  l <> [] -> Forall (fun x => sep ∉ x) l ->
  PosixPath.split_on sep [] (join [sep] l) = l.
Proof.
  intros Hne Hl. induction Hl as [|x l Hx Hl IH]; [done|].
  destruct l as [|y l].
  - simpl. rewrite <- (app_nil_r x) at 1. rewrite split_on_run by done.
    simpl. by rewrite app_nil_r, rev_involutive.
  - rewrite join_cons. rewrite split_on_run by done. cbn [app PosixPath.split_on].
    rewrite char_eqb_refl. rewrite app_nil_r, rev_involutive. f_equal. by apply IH.
Qed.

Lemma filter_all {A} (f : A -> bool) l :
  Forall (fun x => f x = true) l -> List.filter f l = l.
Proof. induction 1 as [|x l Hx Hl IH]; simpl; [done|]. by rewrite Hx, IH. Qed.

Lemma components_segments s x : x ∈ PosixPath.components s -> segment x.
Proof.
  unfold PosixPath.components. intros H. apply list_elem_of_In, filter_In in H as [H Hc].
  split; [done|]. apply list_elem_of_In in H.
  apply (split_on_no_sep 47 [] s x); [by intros ?%elem_of_nil|done].
Qed.

(** The segments after the first part of a path. *)
Lemma parts_rest_segments s first rest :
  PosixPath.parts s = first :: rest -> Forall segment rest.
Proof.
  unfold PosixPath.parts. intros E. apply Forall_forall. intros x Hx.
  apply (components_segments s).
  destruct (root_of_cases s) as [Hr|(r & Hr & _)]; rewrite Hr in E; simpl in E.
  - rewrite E. by right.
  - injection E as _ ->. done.
Qed.

Lemma root_of_segment x s : segment x -> PosixPath.root_of (x ++ s) = [].
Proof.
  intros [Hc Hx]. destruct x as [|c x]; [done|].
  apply not_elem_of_cons in Hx as [Hc' _]. simpl.
  destruct c as [|p]; [done|]. do 6 (destruct p as [p|p|]; try done).
Qed.

(** A path joined from segments has these segments as its parts. *)
Lemma parts_join l :
  l <> [] -> Forall segment l -> PosixPath.parts (join (lit "/") l) = l.
Proof.
  intros Hne Hl. unfold PosixPath.parts, PosixPath.components.
  change (lit "/") with [47]. rewrite split_on_join.
  - rewrite filter_all by (eapply Forall_impl; [exact Hl|]; by intros x [? _]).
    destruct l as [|x l]; [done|]. apply Forall_cons in Hl as [Hx _].
    destruct l as [|y l]; simpl join.
    + rewrite <- (app_nil_r x) at 1. by rewrite root_of_segment.
    + by rewrite root_of_segment.
  - done.
  - eapply Forall_impl; [exact Hl|]. by intros x [_ ?].
Qed.

Lemma relpath_list_child (parent : list (list N)) (l : list (list N)) :
  PosixPath.relpath_list (parent ++ l) parent = l.
Proof.
  induction parent as [|x parent IH]; simpl; [by destruct l|].
  by rewrite decide_True.
Qed.

Lemma relpath_child (parent : list (list N)) (n : list N) :
  PosixPath.relpath (parent ++ [n]) parent = n.
Proof. unfold PosixPath.relpath. by rewrite relpath_list_child. Qed.

End Segments.

(** X12.  For a link path that targets the old folder, [rewrite_path] returns
    exactly when the new path is well-formed text (it raises on a
    surrogate); its result then holds ASCII characters only and no space, and
    URL-decoding it gives the new path back: the relative folder path and the
    segments of the old path after the first. *)
Theorem rewrite_path_round_trip (olds : list str) (rel p first : str) (rest : list str) :
  targets_old olds p = true ->
  PosixPath.parts (Url.unquote p) = first :: rest ->
  let new_path := join (lit "/") (rel :: rest) in
  (Forall scalar new_path ->
   exists out, rewrite_path olds rel p = Some out /\
     Url.unquote out = new_path /\ Forall (fun c => c < 128 /\ c <> 32) out) /\
  (~ Forall scalar new_path -> rewrite_path olds rel p = None).
Proof.
  intros Ht Hparts new_path.
  assert (E : rewrite_path olds rel p = Url.quote safe_chars new_path).
  { unfold rewrite_path. fold (targets_old olds p). by rewrite Ht, Hparts. }
  rewrite E. split.
  - intros Hs. destruct (unquote_quote new_path Hs) as (out & Hq & Hu & _).
    exists out. split; [done|]. split; [done|]. by apply (quote_ascii_no_space new_path).
  - apply quote_None.
Qed.

(** The link [Intro/my%20img.png] and the new folder [lecture 01]. *)
Lemma rewrite_path_round_trip_witness :
  exists out,
    rewrite_path [lit "Intro"] (lit "lecture 01") (lit "Intro/my%20img.png") = Some out /\
    Url.unquote out = lit "lecture 01/my img.png" /\
    Forall (fun c => c < 128 /\ c <> 32) out.
Proof.
  apply (rewrite_path_round_trip [lit "Intro"] (lit "lecture 01") (lit "Intro/my%20img.png")
           (lit "Intro") [lit "my img.png"]).
  - vm_compute. reflexivity.
  - vm_compute. reflexivity.
  - apply Forall_forall. intros c Hc. apply scalar_ascii.
    vm_compute in Hc. repeat (apply elem_of_cons in Hc as [->|Hc]; [done|]).
    by apply elem_of_nil in Hc.
Defined.

(** X13.  When the relative folder path is a single segment, as it is for a
    folder beside the document, rewriting is idempotent: a path that
    [rewrite_path] returned is returned unchanged when it is rewritten
    again. *)
Theorem rewrite_path_idempotent (olds : list str) (rel p out : str) :
  segment rel ->
  rewrite_path olds rel p = Some out ->
  rewrite_path olds rel out = Some out.
Proof.
  intros Hrel Hrun.
  destruct (targets_old olds p) eqn:Ht.
  2:{ rewrite rewrite_path_untargeted in Hrun by done. injection Hrun as <-.
      by apply rewrite_path_untargeted. }
  destruct (PosixPath.parts (Url.unquote p)) as [|first rest] eqn:Hparts.
  { assert (E : rewrite_path olds rel p = Some p).
    { unfold rewrite_path. fold (targets_old olds p). by rewrite Ht, Hparts. }
    congruence. }
  set (new_path := join (lit "/") (rel :: rest)).
  assert (E : rewrite_path olds rel p = Url.quote safe_chars new_path).
  { unfold rewrite_path. fold (targets_old olds p). by rewrite Ht, Hparts. }
  rewrite E in Hrun.
  pose proof (quote_Some_scalar _ _ _ Hrun) as Hs.
  destruct (unquote_quote _ Hs) as (out' & Hq & Hu & _).
  assert (out' = out) as -> by congruence.
  destruct (targets_old olds out) eqn:Ht'; [|by apply rewrite_path_untargeted].
  assert (Hp : PosixPath.parts new_path = rel :: rest).
  { apply parts_join; [done|]. constructor; [done|]. by eapply parts_rest_segments. }
  unfold rewrite_path. fold (targets_old olds out). by rewrite Ht', Hu, Hp.
Qed.

(** The link [img/img.png], whose file name holds the old folder name. *)
Lemma rewrite_path_idempotent_witness :
  rewrite_path [lit "img"] (lit "lecture 01") (lit "lecture%2001/img.png")
  = Some (lit "lecture%2001/img.png").
Proof.
  apply (rewrite_path_idempotent [lit "img"] (lit "lecture 01") (lit "img/img.png")).
  - split; [reflexivity|]. vm_compute.
    intros Hc. repeat (apply elem_of_cons in Hc as [Hc|Hc]; [done|]).
    by apply elem_of_nil in Hc.
  - vm_compute. reflexivity.
Defined.

(** ** Orchestrator: skipped folders and the count *)

Section Orchestration.

Variable is_decimal : N -> bool.
Variable limit : nat.

Lemma skips_app a b : skips (a ++ b) = (skips a + skips b)%nat.
Proof. unfold skips. by rewrite List.filter_app, length_app. Qed.

Lemma skips_items l : skips (map MissingItem l) = 0%nat.
Proof. by induction l. Qed.

Lemma skips_report name missing : skips (report_missing name missing) = 0%nat.
Proof.
  unfold report_missing. destruct missing as [|x missing]; [done|].
  change (MissingHeader name (length (x :: missing))
          :: map MissingItem (take 10 (x :: missing)) ++
             (if (10 <? length (x :: missing))%nat then [MissingMore] else []))
    with ([MissingHeader name (length (x :: missing))]
          ++ map MissingItem (take 10 (x :: missing)) ++
             (if (10 <? length (x :: missing))%nat then [MissingMore] else [])).
  rewrite !skips_app, skips_items. by destruct (10 <? length (x :: missing))%nat.
Qed.

(** What [process_one] returns: the folder is skipped and nothing changes,
    or a document was found and every step after that returned. *)
Lemma process_one_cases (parent folder : list (list N)) (idx : nat)
    (m : gmap (list (list N)) FS.entry) (b : bool) (out : list line)
    (m' : gmap (list (list N)) FS.entry) :
  process_one is_decimal limit parent folder idx m = (FS.Ok (b, out), m') ->
  (b = false /\ find_md_for_folder parent (FS.name folder) m = None /\
   out = [SkippedFolder (FS.name folder)] /\ m' = m) \/
  (b = true /\ (exists md, find_md_for_folder parent (FS.name folder) m = Some md) /\
   skips out = 0%nat).
Proof.
  unfold process_one.
  destruct (find_md_for_folder parent (FS.name folder) m) as [md|] eqn:Hmd.
  2:{ intros [= <- <- <-]. by left. }
  unfold mbind, M_bind, FS.bind.
  destruct (rename_folder limit folder _ m) as [[[]|e] m1]; [|done].
  match goal with
  | |- context [replace_links ?a ?b ?c m1] =>
      destruct (replace_links_cases a b c m1) as [[e He]|(text & text' & _ & _ & He)];
      cbv zeta in He; rewrite He; [done|]
  end.
  match goal with
  | |- context [if ?d then FS.ret tt else ?k] =>
      destruct ((if d then FS.ret tt else k) _) as [[[]|e] m3]; [|done]
  end.
  intros [= <- <- <-]. right. split; [done|]. split; [by eexists|]. apply skips_report.
Qed.

Lemma process_all_accounts (root : list (list N)) (l : list (nat * list (list N)))
    (m : gmap (list (list N)) FS.entry) (count : nat) (outs : list line)
    (m' : gmap (list (list N)) FS.entry) :
  process_all is_decimal limit root l m = (FS.Ok (count, outs), m') ->
  (count + skips outs = length l)%nat.
Proof.
  revert m count outs m'. induction l as [|[idx folder] l IH]; intros m count outs m'.
  - simpl. by intros [= <- <- <-].
  - cbn [process_all]. unfold mbind, M_bind, FS.bind.
    destruct (process_one is_decimal limit root folder idx m) as [[[b out]|e] m1] eqn:E1;
      [|done].
    destruct (process_all is_decimal limit root l m1) as [[[c outs']|e] m2] eqn:E2; [|done].
    intros [= <- <- <-]. apply IH in E2. rewrite skips_app. cbn [length].
    apply process_one_cases in E1 as [(-> & _ & -> & _)|(-> & _ & Hs)].
    + cbn. lia.
    + rewrite Hs. lia.
Qed.

Lemma candidates_unchanged (root : list (list N)) (m : gmap (list (list N)) FS.entry)
    (res : FS.outcome (list (list (list N)))) (m' : gmap (list (list N)) FS.entry) :
  candidates root m = (res, m') -> m' = m.
Proof.
  unfold candidates, mbind, M_bind, FS.bind, FS.iterdir.
  destruct (FS.stat root m) as [[|]|]; by intros [= <- <-].
Qed.

Lemma process_one_skip (parent folder : list (list N)) (idx : nat)
    (m : gmap (list (list N)) FS.entry) :
  find_md_for_folder parent (FS.name folder) m = None ->
  process_one is_decimal limit parent folder idx m
  = (FS.Ok (false, [SkippedFolder (FS.name folder)]), m).
Proof. intros H. unfold process_one. by rewrite H. Qed.

Lemma process_all_skips (root : list (list N)) (l : list (nat * list (list N)))
    (m : gmap (list (list N)) FS.entry) :
  glob_md root m = [] ->
  process_all is_decimal limit root l m
  = (FS.Ok (0%nat, map (fun x => SkippedFolder (FS.name x.2)) l), m).
Proof.
  intros Hno. induction l as [|[idx folder] l IH]; [done|].
  cbn [process_all]. unfold mbind, M_bind, FS.bind.
  rewrite process_one_skip; [by rewrite IH|].
  unfold find_md_for_folder. by rewrite Hno.
Qed.

Lemma enumerate_snd {A : Type} (i : nat) (l : list A) : (enumerate i l).*2 = l.
Proof. revert i. induction l as [|x l IH]; intros i; simpl; [done|]. by rewrite IH. Qed.

End Orchestration.

(** X14.  [process_one] returns [False] exactly when no document is found for
    the folder; it has then changed nothing and printed the one line that
    names the folder.  When it returns [True] it has printed no such
    line. *)
Theorem process_one_skips_without_document (is_decimal : N -> bool) (limit : nat)
    (parent folder : list (list N)) (idx : nat) (m : gmap (list (list N)) FS.entry)
    (b : bool) (out : list line) (m' : gmap (list (list N)) FS.entry) :
  process_one is_decimal limit parent folder idx m = (FS.Ok (b, out), m') ->
  (b = false <-> find_md_for_folder parent (FS.name folder) m = None) /\
  (b = false -> out = [SkippedFolder (FS.name folder)] /\ m' = m) /\
  (b = true -> skips out = 0%nat).
Proof.
  intros H. apply process_one_cases in H as [(-> & Hn & -> & ->)|(-> & [md Hmd] & Hs)].
  - by rewrite Hn.
  - rewrite Hmd. split; [split; done|]. split; [done|done].
Qed.

(** A folder of [two_docs], where no document matches. *)
Lemma process_one_skips_without_document_witness :
  find_md_for_folder [] (FS.name [lit "Intro " ++ h32]) two_docs = None.
Proof.
  assert (E1 : (process_one is_ascii_digit 2 [] [lit "Intro " ++ h32] 1 two_docs).1
               = FS.Ok (false, [SkippedFolder (lit "Intro " ++ h32)]))
    by (vm_compute; reflexivity).
  destruct (process_one is_ascii_digit 2 [] [lit "Intro " ++ h32] 1 two_docs)
    as [res m'] eqn:E.
  simpl in E1. subst res.
  destruct (process_one_skips_without_document _ _ _ _ _ _ _ _ _ E) as ((Hiff & _) & _ & _).
  by apply Hiff.
Defined.

(** X15.  When [main] returns, its last line gives the count of the folders
    done, and every selected folder is either counted or reported as
    skipped: the count and the number of skip lines add up to the number of
    selected folders. *)
Theorem main_accounts_for_every_folder (is_decimal : N -> bool) (limit : nat)
    (root : list (list N)) (m : gmap (list (list N)) FS.entry)
    (out : list line) (m' : gmap (list (list N)) FS.entry) :
  main is_decimal limit root m = (FS.Ok out, m') ->
  exists folders body count,
    candidates root m = (FS.Ok folders, m) /\
    out = body ++ [Summary count] /\
    (count + skips body = length folders)%nat.
Proof.
  unfold main. unfold mbind at 1. unfold M_bind at 1. unfold FS.bind at 1.
  destruct (candidates root m) as [[folders|e] m0] eqn:Ec; [|done].
  pose proof (candidates_unchanged _ _ _ _ Ec) as ->.
  unfold mbind, M_bind, FS.bind.
  destruct (process_all is_decimal limit root (enumerate 1 folders) m)
    as [[[count outs]|e] m1] eqn:Ea; [|done].
  intros [= <- <-]. exists folders, outs, count. split; [done|]. split; [done|].
  apply process_all_accounts in Ea. rewrite Ea.
  rewrite <- (enumerate_snd 1 folders) at 2. by rewrite length_fmap.
Qed.

(** The working directory [scan_fs], where both folders are skipped. *)
Lemma main_accounts_for_every_folder_witness :
  exists folders body count,
    candidates [] scan_fs = (FS.Ok folders, scan_fs) /\
    [SkippedFolder (lit "a " ++ h32); SkippedFolder (lit "b " ++ h32); Summary 0]
    = body ++ [Summary count] /\
    (count + skips body = length folders)%nat.
Proof.
  assert (E1 : (main is_ascii_digit 2 [] scan_fs).1
               = FS.Ok [SkippedFolder (lit "a " ++ h32); SkippedFolder (lit "b " ++ h32);
                        Summary 0])
    by (vm_compute; reflexivity).
  destruct (main is_ascii_digit 2 [] scan_fs) as [res m'] eqn:E.
  simpl in E1. subst res.
  exact (main_accounts_for_every_folder _ _ _ _ _ _ E).
Defined.

(** X16.  In a working directory without documents [main] changes nothing:
    it prints one skip line for each selected folder, in the order of their
    names, and the count zero.  Without a selected folder it prints the
    count zero only. *)
Theorem main_without_documents (is_decimal : N -> bool) (limit : nat)
    (root : list (list N)) (m : gmap (list (list N)) FS.entry) :
  FS.is_dir root m = true ->
  (glob_md root m = [] ->
   exists folders,
     candidates root m = (FS.Ok folders, m) /\
     main is_decimal limit root m
     = (FS.Ok (map (fun p => SkippedFolder (FS.name p)) folders ++ [Summary 0]), m)) /\
  ((forall n, m !! (root ++ [n]) = Some FS.Dir -> ~ ends_in_hex32 n) ->
   main is_decimal limit root m = (FS.Ok [Summary 0], m)).
Proof.
  intros Hroot. destruct (candidates_spec root m Hroot) as (folders & Hc & Hsel & _).
  split.
  - intros Hno. exists folders. split; [done|].
    unfold main. unfold mbind at 1. unfold M_bind at 1. unfold FS.bind at 1.
    rewrite Hc. unfold mbind, M_bind, FS.bind. rewrite process_all_skips by done.
    unfold FS.ret. do 3 f_equal.
    rewrite <- (enumerate_snd 1 folders) at 2.
    by rewrite <- list_fmap_compose.
  - intros Hnone.
    assert (folders = []) as ->.
    { destruct folders as [|p folders]; [done|]. exfalso.
      destruct (proj1 (Hsel p)) as (n & -> & Hd & Hh); [by left|]. by apply (Hnone n). }
    unfold main. unfold mbind at 1. unfold M_bind at 1. unfold FS.bind at 1.
    by rewrite Hc.
Qed.

(** The working directory [scan_fs], which holds no document. *)
Lemma main_without_documents_witness :
  main is_ascii_digit 2 [] scan_fs
  = (FS.Ok [SkippedFolder (lit "a " ++ h32); SkippedFolder (lit "b " ++ h32); Summary 0],
     scan_fs).
Proof.
  destruct (main_without_documents is_ascii_digit 2 [] scan_fs) as [H _]; [reflexivity|].
  destruct H as (folders & Hc & Hm); [vm_compute; reflexivity|].
  rewrite Hm. f_equal. f_equal.
  assert (folders = [[lit "a " ++ h32]; [lit "b " ++ h32]]) as ->.
  { assert (E : (candidates [] scan_fs).1 = FS.Ok [[lit "a " ++ h32]; [lit "b " ++ h32]])
      by (vm_compute; reflexivity).
    rewrite Hc in E. by injection E. }
  reflexivity.
Defined.

(** ** Orchestrator: one folder from end to end *)

Section Names.

Lemma rfind_from_md i a :
  PurePath.rfind_from i 46 (a ++ lit ".md") = Some (i + length a)%nat.
Proof.
  revert i. induction a as [|x a IH]; intros i.
  - simpl. f_equal. lia.
  - cbn [app PurePath.rfind_from length]. rewrite IH. f_equal. lia.
Qed.

Lemma suffix_start_md a :
  PurePath.suffix_start (a ++ lit ".md") = if decide (a = []) then None else Some (length a).
Proof.
  unfold PurePath.suffix_start. rewrite rfind_from_md. simpl.
  rewrite length_app. change (length (lit ".md")) with 3%nat.
  destruct a as [|x a]; [done|]. rewrite decide_False by done. cbn [length].
  replace (0 <? S (length a))%nat with true by (symmetry; apply Nat.ltb_lt; lia).
  replace (S (length a) <? S (length a) + 3 - 1)%nat with true
    by (symmetry; apply Nat.ltb_lt; lia).
  done.
Qed.

(** The suffix and the stem of a name that ends in [.md]. *)
Lemma suffix_md a : a <> [] -> PurePath.suffix (a ++ lit ".md") = lit ".md".
Proof.
  intros Ha. unfold PurePath.suffix. rewrite suffix_start_md, decide_False by done.
  by rewrite drop_app_length.
Qed.

Lemma stem_md a : a <> [] -> PurePath.stem (a ++ lit ".md") = a.
Proof.
  intros Ha. unfold PurePath.stem. rewrite suffix_start_md, decide_False by done.
  by rewrite take_app_length.
Qed.

Lemma endswith_spec p s : endswith p s = true <-> exists a, s = a ++ p.
Proof.
  unfold endswith. rewrite startswith_spec. split.
  - intros [r Hr]. exists (rev r).
    rewrite <- (rev_involutive s), Hr, rev_app_distr. by rewrite rev_involutive.
  - intros [a ->]. exists (rev a). by rewrite rev_app_distr.
Qed.

(** The clean name of a document is not the name of its backup. *)
Lemma clean_name_not_bak n :
  endswith (lit ".md") n = true ->
  norm (PurePath.stem n) ++ PurePath.suffix n <> n ++ lit ".bak".
Proof.
  intros [a ->]%endswith_spec. destruct (decide (a = [])) as [->|Ha].
  - vm_compute. done.
  - rewrite suffix_md, stem_md by done. intros E.
    apply (f_equal (@rev N)) in E. rewrite !rev_app_distr in E. simpl in E. done.
Qed.

Lemma sibling_prefix (parent : list (list N)) (a b : list N) (r : list (list N)) :
  parent ++ [a] `prefix_of` parent ++ b :: r -> a = b.
Proof.
  intros [k Hk]. rewrite <- app_assoc in Hk. apply app_inv_head in Hk. by simplify_eq/=.
Qed.

Lemma child_not_prefix (parent : list (list N)) (a : list N) :
  ~ parent ++ [a] `prefix_of` parent.
Proof.
  intros [k Hk]. apply (f_equal length) in Hk. rewrite !length_app in Hk. simpl in Hk. lia.
Qed.

Lemma siblings_apart (parent : list (list N)) (a b : list N) :
  a <> b -> apart (parent ++ [a]) (parent ++ [b]).
Proof.
  intros Hne. split; intros H; apply sibling_prefix in H; congruence.
Qed.

Lemma sibling_below (parent : list (list N)) (a x : list N) (r : list (list N)) :
  a <> x -> (parent ++ [a]) ++ r <> parent ++ [x].
Proof.
  intros Hne E. rewrite <- app_assoc in E. apply app_inv_head in E. by simplify_eq/=.
Qed.

Lemma sibling_neq (parent : list (list N)) (a x : list N) :
  a <> x -> parent ++ [a] <> parent ++ [x].
Proof. intros Hne E. apply app_inv_head in E. by simplify_eq/=. Qed.

Lemma parent_snoc (p : list (list N)) (n : list N) : FS.parent (p ++ [n]) = p.
Proof. unfold FS.parent. apply but_last_snoc. Qed.

Lemma is_dir_lookup (p : list (list N)) (m m' : gmap (list (list N)) FS.entry) :
  (p <> [] -> m' !! p = m !! p) -> FS.is_dir p m' = FS.is_dir p m.
Proof.
  intros H. unfold FS.is_dir. destruct p as [|x p]; [done|]. simpl. by rewrite H.
Qed.




End Names.

Section CleanName.

(** [process_one] up to the renaming of the document: the folder is renamed
    and the links are rewritten. *)
Lemma process_one_rewritten (is_decimal : N -> bool) (limit : nat)
    (parent : list (list N)) (old_dir : str) (idx : nat)
    (m : gmap (list (list N)) FS.entry) (md : list (list N)) (text text' : str) :
  let folder := parent ++ [old_dir] in
  let title := remove_brackets (strip_hash old_dir) in
  let new_name := lit "lecture " ++ extract_number is_decimal title idx in
  let new_dir := parent ++ [new_name] in
  let desired := parent ++ [norm (stem_of md) ++ PurePath.suffix (FS.name md)] in
  FS.is_dir parent m = true ->
  m !! folder = Some FS.Dir ->
  (forall r, m !! (new_dir ++ r) = None) ->
  find_md_for_folder parent old_dir m = Some md ->
  m !! md = Some (FS.File text) ->
  FS.is_dir (bak_of md) m = false -> bak_of md <> new_dir ->
  rewrite_text (old_variants old_dir (strip_hash old_dir) title) new_name text = Some text' ->
  exists n m2,
    md = parent ++ [n] /\ endswith (lit ".md") n = true /\
    old_dir <> new_name /\
    process_one is_decimal (S limit) parent folder idx m
    = (_ ← (if decide (md = desired) then FS.ret tt
            else ((fun m1 =>
                     if FS.exists_ desired m1 then
                       (t ← FS.read_text desired;
                        FS.write_text (PosixPath.with_suffix desired (lit ".md.bak")) t) m1
                     else FS.ret tt m1) : FS.M unit);;
                 FS.move md desired);
       FS.ret (true, report_missing (FS.name md) (missing_links (FS.parent md) text' m2))) m2 /\
    m2 !! md = Some (FS.File text') /\
    m2 !! bak_of md = Some (FS.File text) /\
    (forall r, m2 !! (folder ++ r) = None) /\
    (forall r, m2 !! (new_dir ++ r) = m !! (folder ++ r)) /\
    (forall x, x <> n -> x <> n ++ lit ".bak" -> x <> old_dir -> x <> new_name ->
       m2 !! (parent ++ [x]) = m !! (parent ++ [x])) /\
    FS.is_dir parent m2 = true.
Proof.
  intros folder title new_name new_dir desired Hparent Hfolder Hfresh Hfind Hmd Hbak Hbak' Hrw.
  (* the document and its backup are entries of the parent *)
  pose proof (find_md_for_folder_cases parent old_dir m) as Hc. cbv zeta in Hc.
  rewrite Hfind in Hc. apply elem_of_glob_md in Hc as (n & Emd & _ & Hn).
  assert (Ebak : bak_of md = parent ++ [n ++ lit ".bak"]).
  { unfold bak_of. by rewrite Emd, parent_snoc, name_snoc. }
  assert (Hnone : m !! new_dir = None)
    by (specialize (Hfresh []); by rewrite app_nil_r in Hfresh).
  assert (Hn1 : n <> old_dir) by (intros ->; unfold folder in Hfolder; congruence).
  assert (Hn2 : n <> new_name) by (intros ->; unfold new_dir in Hnone; congruence).
  assert (Hn3 : old_dir <> new_name)
    by (intros E; unfold folder, new_dir in *; rewrite E in Hfolder; congruence).
  assert (Hn4 : n ++ lit ".bak" <> old_dir).
  { intros E. unfold FS.is_dir in Hbak. rewrite Ebak, E, stat_snoc in Hbak.
    unfold folder in Hfolder. by rewrite Hfolder in Hbak. }
  assert (Hn5 : n ++ lit ".bak" <> new_name) by (intros E; apply Hbak'; by rewrite Ebak, E).
  assert (Hn6 : n ++ lit ".bak" <> n).
  { intros E. apply (f_equal length) in E. rewrite length_app in E. simpl in E. lia. }
  assert (Hap : apart folder new_dir) by by apply siblings_apart.
  (* the folder is renamed *)
  set (m1 := FS.rekey folder new_dir m).
  assert (Hrun1 : rename_folder (S limit) folder new_dir m = (FS.Ok tt, m1)).
  { apply rename_folder_fresh_run; try done. unfold new_dir. by rewrite parent_snoc. }
  assert (Hout1 : forall x, x <> old_dir -> x <> new_name ->
                            m1 !! (parent ++ [x]) = m !! (parent ++ [x])).
  { intros x Hx1 Hx2. apply rekey_outside; intros H; apply sibling_prefix in H; congruence. }
  assert (Hp1 : parent <> [] -> m1 !! parent = m !! parent).
  { intros _. apply rekey_outside; apply child_not_prefix. }
  assert (Hparent1 : FS.is_dir parent m1 = true) by by rewrite (is_dir_lookup parent m m1).
  (* the links are rewritten *)
  set (m2 := <[md := FS.File text']> (<[bak_of md := FS.File text]> m1)).
  assert (Hrun2 : replace_links md (old_variants old_dir (strip_hash old_dir) title)
                    new_dir m1
                  = (FS.Ok (report_missing (FS.name md)
                              (missing_links (FS.parent md) text' m2)), m2)).
  { apply replace_links_run.
    - rewrite Emd, stat_snoc, Hout1 by done. by rewrite <- Emd.
    - by rewrite Emd, parent_snoc.
    - rewrite <- Hbak. unfold FS.is_dir. rewrite Ebak, !stat_snoc. by rewrite Hout1.
    - rewrite Emd, parent_snoc. unfold new_dir. by rewrite relpath_child. }
  assert (Hout2 : forall q, q <> md -> q <> bak_of md -> m2 !! q = m1 !! q).
  { intros q H1 H2. unfold m2. by rewrite !lookup_insert_ne. }
  exists n, m2. split; [done|]. split; [done|]. split; [done|]. split.
  { unfold process_one. cbv zeta.
    replace (FS.name folder) with old_dir by (unfold folder; by rewrite name_snoc).
    fold title. rewrite Hfind.
    change (parent ++ [lit "lecture " ++ extract_number is_decimal title idx]) with new_dir.
    change (parent ++ [remove_brackets (strip_hash (stem_of md))
                       ++ PurePath.suffix (FS.name md)]) with desired.
    unfold mbind at 1. unfold M_bind at 1. unfold FS.bind at 1. rewrite Hrun1.
    unfold mbind at 1. unfold M_bind at 1. unfold FS.bind at 1. by rewrite Hrun2. }
  split; [apply lookup_insert_eq|]. split.
  { unfold m2. rewrite lookup_insert_ne, lookup_insert_eq; [done|].
    rewrite Ebak, Emd. by apply sibling_neq. }
  split.
  { intros r. rewrite Hout2.
    - by apply rekey_source.
    - rewrite Emd. apply sibling_below. congruence.
    - rewrite Ebak. apply sibling_below. congruence. }
  split.
  { intros r. rewrite Hout2.
    - by apply rekey_destination.
    - rewrite Emd. apply sibling_below. congruence.
    - rewrite Ebak. apply sibling_below. congruence. }
  split.
  { intros x Hx1 Hx2 Hx3 Hx4. rewrite Hout2.
    - by apply Hout1.
    - rewrite Emd. by apply sibling_neq.
    - rewrite Ebak. by apply sibling_neq. }
  rewrite (is_dir_lookup parent m1 m2); [done|]. intros Hp. apply Hout2.
  - rewrite Emd. intros E. apply (f_equal length) in E.
    rewrite length_app in E. simpl in E. lia.
  - rewrite Ebak. intros E. apply (f_equal length) in E.
    rewrite length_app in E. simpl in E. lia.
Qed.

End CleanName.

(** [process_one] in full when the clean name of the document is free or
    the document's own; [mid] is the state in which the image links are
    checked. *)
Lemma process_one_run (is_decimal : N -> bool) (limit : nat)
    (parent : list (list N)) (old_dir : str) (idx : nat)
    (m : gmap (list (list N)) FS.entry) (md : list (list N)) (text text' : str) :
  let folder := parent ++ [old_dir] in
  let title := remove_brackets (strip_hash old_dir) in
  let new_name := lit "lecture " ++ extract_number is_decimal title idx in
  let new_dir := parent ++ [new_name] in
  let desired := parent ++ [norm (stem_of md) ++ PurePath.suffix (FS.name md)] in
  FS.is_dir parent m = true ->
  m !! folder = Some FS.Dir ->
  (forall r, m !! (new_dir ++ r) = None) ->
  find_md_for_folder parent old_dir m = Some md ->
  m !! md = Some (FS.File text) ->
  FS.is_dir (bak_of md) m = false -> bak_of md <> new_dir ->
  rewrite_text (old_variants old_dir (strip_hash old_dir) title) new_name text = Some text' ->
  md = desired \/ (m !! desired = None /\ desired <> new_dir) ->
  exists mid m',
    process_one is_decimal (S limit) parent folder idx m
    = (FS.Ok (true, report_missing (FS.name md) (missing_links (FS.parent md) text' mid)),
       m') /\
    (forall r, mid !! (new_dir ++ r) = m !! (folder ++ r)) /\
    (forall r, m' !! (folder ++ r) = None) /\
    (forall r, m' !! (new_dir ++ r) = m !! (folder ++ r)) /\
    m' !! desired = Some (FS.File text') /\
    m' !! bak_of md = Some (FS.File text) /\
    (md <> desired -> m' !! md = None).
Proof.
  intros folder title new_name new_dir desired Hparent Hfolder Hfresh Hfind Hmd Hbak Hbak'
    Hrw Hdesired.
  destruct (process_one_rewritten is_decimal limit parent old_dir idx m md text text'
              Hparent Hfolder Hfresh Hfind Hmd Hbak Hbak' Hrw)
    as (n & m2 & Emd & Hn & Hn3 & Hstart & Hmd2 & Hbak2 & Hgone2 & Hmoved2 & Hout2 & Hparent2).
  fold folder title new_name new_dir desired in Hstart, Hgone2, Hmoved2, Hout2.
  assert (Ebak : bak_of md = parent ++ [n ++ lit ".bak"]).
  { unfold bak_of. by rewrite Emd, parent_snoc, name_snoc. }
  assert (Edes : desired = parent ++ [norm (PurePath.stem n) ++ PurePath.suffix n]).
  { unfold desired, stem_of. by rewrite Emd, name_snoc. }
  assert (Hn1 : n <> old_dir) by (intros ->; unfold folder in Hfolder; congruence).
  assert (Hn2 : n <> new_name).
  { intros ->. specialize (Hfresh []). rewrite app_nil_r in Hfresh.
    unfold new_dir in Hfresh. congruence. }
  rewrite Hstart. clear Hstart.
  exists m2. destruct (decide (md = desired)) as [Heq|Hneq].
  - exists m2. split; [done|]. split; [done|]. split; [done|]. split; [done|].
    split; [by rewrite <- Heq|]. split; [done|done].
  - destruct Hdesired as [?|[Hdnone Hdnew]]; [done|].
    assert (Hd1 : norm (PurePath.stem n) ++ PurePath.suffix n <> n)
      by (intros E; apply Hneq; by rewrite Edes, Emd, E).
    assert (Hd2 : norm (PurePath.stem n) ++ PurePath.suffix n <> n ++ lit ".bak")
      by by apply clean_name_not_bak.
    assert (Hd3 : norm (PurePath.stem n) ++ PurePath.suffix n <> old_dir).
    { intros E. rewrite Edes, E in Hdnone. unfold folder in Hfolder. congruence. }
    assert (Hd4 : norm (PurePath.stem n) ++ PurePath.suffix n <> new_name).
    { intros E. apply Hdnew. by rewrite Edes, E. }
    assert (Hdes2 : m2 !! desired = None).
    { rewrite Edes, Hout2 by done. by rewrite <- Edes. }
    exists (<[desired := FS.File text']> (delete md m2)). split; [|split; [done|]].
    + unfold mbind, M_bind, FS.bind.
      assert (Hex : FS.exists_ desired m2 = false).
      { unfold FS.exists_. rewrite Edes, stat_snoc, <- Edes. by rewrite Hdes2. }
      rewrite Hex. unfold FS.ret at 1.
      rewrite move_fresh; try done.
      * rewrite Emd, stat_snoc, <- Emd, Hmd2. done.
      * rewrite Edes. by destruct parent.
      * by rewrite Edes, parent_snoc.
    + assert (Hkeep : forall q, q <> desired -> q <> md ->
                (<[desired := FS.File text']> (delete md m2)) !! q = m2 !! q).
      { intros q H1 H2. by rewrite lookup_insert_ne, lookup_delete_ne. }
      split; [|split; [|split; [|split]]].
      * intros r. rewrite Hkeep; [done| |].
        -- rewrite Edes. apply sibling_below. congruence.
        -- rewrite Emd. apply sibling_below. congruence.
      * intros r. rewrite Hkeep; [done| |].
        -- rewrite Edes. apply sibling_below. congruence.
        -- rewrite Emd. apply sibling_below. congruence.
      * apply lookup_insert_eq.
      * rewrite Hkeep; [done| |].
        -- rewrite Edes, Ebak. apply sibling_neq. congruence.
        -- rewrite Ebak, Emd. apply sibling_neq. intros E.
           apply (f_equal length) in E. rewrite length_app in E. simpl in E. lia.
      * intros _. rewrite lookup_insert_ne by done. apply lookup_delete_eq.
Qed.






(** ** Link Rewriter and Orchestrator: an empty old name, a directory as document *)

Section EmptyName.

Lemma contains_nil (hay : str) : contains [] hay = true.
Proof. by destruct hay. Qed.

Lemma targets_old_empty (olds : list str) (p : str) : [] ∈ olds -> targets_old olds p = true.
Proof.
  intros Hin. unfold targets_old. apply existsb_exists. exists [].
  split; [by apply list_elem_of_In|]. by rewrite contains_nil.
Qed.

Lemma strip_hash_only_hash (h : str) : HEX32.fullmatch h = true -> strip_hash h = [].
Proof.
  intros Hh. unfold strip_hash. rewrite (split_token h) by by apply fullmatch_token.
  simpl. by rewrite Hh.
Qed.

End EmptyName.

(** X19.  An empty old name occurs in every path.  For a folder whose name is
    nothing but a hash the stripped name is empty, it is among the old names
    that [process_one] hands to [replace_links], and [rewrite_path] then
    rewrites every link path that has a part, whatever it points to: the
    first part gives way to the relative folder path. *)
Theorem rewrite_path_empty_old_name (old_dir rel p first : str) (rest : list str) :
  HEX32.fullmatch old_dir = true ->
  PosixPath.parts (Url.unquote p) = first :: rest ->
  let olds := old_variants old_dir (strip_hash old_dir)
                (remove_brackets (strip_hash old_dir)) in
  strip_hash old_dir = [] /\ ([] ∈ olds) /\
  rewrite_path olds rel p = Url.quote (lit "/:._-()") (join (lit "/") (rel :: rest)).
Proof.
  intros Hh Hparts olds.
  pose proof (strip_hash_only_hash old_dir Hh) as E.
  assert (Hin : [] ∈ olds).
  { unfold olds, old_variants. rewrite E. right. by left. }
  split; [done|]. split; [done|].
  unfold rewrite_path. fold (targets_old olds p).
  by rewrite (targets_old_empty olds p Hin), Hparts.
Qed.

(** A link to another site, in the document of the folder [<hash>]. *)
Lemma rewrite_path_empty_old_name_witness :
  rewrite_path (old_variants h32 (strip_hash h32) (remove_brackets (strip_hash h32)))
    (lit "lecture 01") (lit "https://example.org/a.png")
  = Some (lit "lecture%2001/example.org/a.png").
Proof.
  destruct (rewrite_path_empty_old_name h32 (lit "lecture 01")
              (lit "https://example.org/a.png") (lit "https:")
              [lit "example.org"; lit "a.png"]) as (_ & _ & H).
  - reflexivity.
  - vm_compute. reflexivity.
  - rewrite H. vm_compute. reflexivity.
Defined.

(** X20.  [glob("*.md")] also yields directories.  When the entry found for
    the folder is a directory, [process_one] raises [IsADirectoryError], and
    it does so after the folder is renamed: nothing is left at or below the
    folder, its entries are under [lecture NN], and nothing else has
    changed. *)
Theorem process_one_document_is_directory (is_decimal : N -> bool) (limit : nat)
    (parent : list (list N)) (old_dir : str) (idx : nat)
    (m : gmap (list (list N)) FS.entry) (md : list (list N)) :
  let folder := parent ++ [old_dir] in
  let title := remove_brackets (strip_hash old_dir) in
  let new_dir := parent ++ [lit "lecture " ++ extract_number is_decimal title idx] in
  FS.is_dir parent m = true ->
  m !! folder = Some FS.Dir ->
  (forall r, m !! (new_dir ++ r) = None) ->
  find_md_for_folder parent old_dir m = Some md ->
  m !! md = Some FS.Dir -> md <> folder ->
  exists m',
    process_one is_decimal (S limit) parent folder idx m
    = (FS.Raise FS.IsADirectoryError, m') /\
    (forall r, m' !! (folder ++ r) = None) /\
    (forall r, m' !! (new_dir ++ r) = m !! (folder ++ r)) /\
    (forall q, ~ folder `prefix_of` q -> ~ new_dir `prefix_of` q -> m' !! q = m !! q).
Proof.
  intros folder title new_dir Hparent Hfolder Hfresh Hfind Hmd Hne.
  pose proof (find_md_for_folder_cases parent old_dir m) as Hc. cbv zeta in Hc.
  rewrite Hfind in Hc. apply elem_of_glob_md in Hc as (n & Emd & _ & Hn).
  assert (Hnone : m !! new_dir = None)
    by (specialize (Hfresh []); by rewrite app_nil_r in Hfresh).
  assert (Hn1 : n <> old_dir) by (intros ->; by apply Hne).
  assert (Hn2 : n <> lit "lecture " ++ extract_number is_decimal title idx).
  { intros E. rewrite Emd, E in Hmd. unfold new_dir in Hnone. congruence. }
  assert (Hn3 : old_dir <> lit "lecture " ++ extract_number is_decimal title idx).
  { intros E. unfold folder, new_dir in *. rewrite E in Hfolder. congruence. }
  assert (Hap : apart folder new_dir) by by apply siblings_apart.
  set (m1 := FS.rekey folder new_dir m).
  assert (Hrun1 : rename_folder (S limit) folder new_dir m = (FS.Ok tt, m1)).
  { apply rename_folder_fresh_run; try done. unfold new_dir. by rewrite parent_snoc. }
  assert (Hmd1 : m1 !! md = Some FS.Dir).
  { rewrite <- Hmd. rewrite Emd.
    apply rekey_outside; intros H; apply sibling_prefix in H; congruence. }
  exists m1. split.
  - unfold process_one. cbv zeta.
    replace (FS.name folder) with old_dir by (unfold folder; by rewrite name_snoc).
    fold title. rewrite Hfind.
    change (parent ++ [lit "lecture " ++ extract_number is_decimal title idx]) with new_dir.
    unfold mbind at 1. unfold M_bind at 1. unfold FS.bind at 1. rewrite Hrun1.
    unfold mbind at 1. unfold M_bind at 1. unfold FS.bind at 1.
    assert (Hrl : forall olds, replace_links md olds new_dir m1
                               = (FS.Raise FS.IsADirectoryError, m1)).
    { intros olds. unfold replace_links, mbind, M_bind, FS.bind, FS.read_text.
      rewrite Emd, stat_snoc, <- Emd. by rewrite Hmd1. }
    by rewrite Hrl.
  - split; [|split].
    + intros r. by apply rekey_source.
    + intros r. by apply rekey_destination.
    + intros q. apply rekey_outside.
Qed.

(** The export [folder_md_fs]. *)
Lemma process_one_document_is_directory_witness :
  exists m',
    process_one is_ascii_digit 1 [] [lit "Intro " ++ h32] 1 folder_md_fs
    = (FS.Raise FS.IsADirectoryError, m') /\
    m' !! [lit "Intro " ++ h32; lit "img 1.png"] = None /\
    m' !! [lit "lecture 01"; lit "img 1.png"] = Some (FS.File (lit "png")).
Proof.
  pose proof (process_one_document_is_directory is_ascii_digit 0 [] (lit "Intro " ++ h32) 1
                folder_md_fs [lit "Intro " ++ h32 ++ lit ".md"]) as H.
  cbv zeta in H.
  destruct H as (m' & Hrun & Hgone & Hmoved & _).
  - reflexivity.
  - vm_compute. reflexivity.
  - intros r.
    destruct (folder_md_fs !! (([] ++ [lit "lecture " ++ extract_number is_ascii_digit
                (remove_brackets (strip_hash (lit "Intro " ++ h32))) 1]) ++ r))
      as [e|] eqn:E; [exfalso|done].
    apply elem_of_map_to_list in E. vm_compute in E.
    repeat (apply elem_of_cons in E as [E|E]; [discriminate E|]).
    by apply elem_of_nil in E.
  - vm_compute. reflexivity.
  - vm_compute. reflexivity.
  - vm_compute. intros E. discriminate E.
  - exists m'. split; [exact Hrun|].
    split; [exact (Hgone [lit "img 1.png"])|].
    etrans; [exact (Hmoved [lit "img 1.png"])|vm_compute; reflexivity].
Defined.

(** ** Link Rewriter: the links that are no images *)

Section RelinkGeneric.











Variable link : str -> str -> Prop.




End RelinkGeneric.

Section SecondPass.


End SecondPass.



(** ** Link Rewriter and Orchestrator: the rewritten links resolve *)

Section Resolve.

Lemma resolve_onto_plain (acc : list (list N)) (l : list str) :
  Forall (fun x => x <> lit "..") l -> PosixPath.resolve_onto acc l = acc ++ l.
Proof.
  intros H. revert acc. induction H as [|x l Hx Hl IH]; intros acc; simpl.
  - by rewrite app_nil_r.
  - destruct (str_eqb x (lit "..")) eqn:E; [by apply str_eqb_eq in E|].
    rewrite IH. by rewrite <- app_assoc.
Qed.

Lemma components_join l :
  l <> [] -> Forall segment l -> PosixPath.components (join (lit "/") l) = l.
Proof.
  intros Hne Hl. pose proof (parts_join l Hne Hl) as H. unfold PosixPath.parts in H.
  destruct l as [|x l]; [done|]. pose proof Hl as Hl'. apply Forall_cons in Hl' as [Hx _].
  assert (Hr : PosixPath.root_of (join (lit "/") (x :: l)) = []).
  { destruct l as [|y l]; simpl join.
    - rewrite <- (app_nil_r x). by apply root_of_segment.
    - by apply root_of_segment. }
  by rewrite Hr in H.
Qed.

(** A path joined from plain segments resolves to the entry they name below
    the base. *)
Lemma resolve_join_plain (base : list (list N)) (l : list str) :
  l <> [] -> Forall plain l ->
  PosixPath.resolve_join base (join (lit "/") l) = base ++ l.
Proof.
  intros Hne Hl.
  assert (Hseg : Forall segment l) by (eapply Forall_impl; [exact Hl|]; by intros x [? _]).
  unfold PosixPath.resolve_join. rewrite components_join by done.
  pose proof (parts_join l Hne Hseg) as H. unfold PosixPath.parts in H.
  rewrite components_join in H by done.
  destruct (PosixPath.root_of (join (lit "/") l)) as [|r rs] eqn:Hr.
  - apply resolve_onto_plain. eapply Forall_impl; [exact Hl|]. by intros x [_ ?].
  - exfalso. apply (f_equal length) in H. rewrite length_app in H. simpl in H. lia.
Qed.

Lemma Forall2_elem_r {A B : Type} (R : A -> B -> Prop) (l : list A) (k : list B) (y : B) :
  Forall2 R l k -> y ∈ k -> exists x, x ∈ l /\ R x y.
Proof.
  induction 1 as [|x y' l k Hxy Hlk IH]; [by intros ?%elem_of_nil|].
  intros [->|Hin]%elem_of_cons.
  - exists x. split; [by left|done].
  - destruct (IH Hin) as (x' & ? & ?). exists x'. split; [by right|done].
Qed.

End Resolve.

(** X22.  The rewritten link leads where the folder went.  For a well-formed
    link path that targets the old folder, with plain segments after the
    first, and a relative folder path that is a plain segment, the path that
    [rewrite_path] returns, URL-decoded and resolved from the directory of
    the document as the existence check does, is the entry at the relative
    folder path followed by these segments. *)
Theorem rewritten_link_resolves (olds : list str) (rel p first : str) (rest : list str)
    (md_dir : list (list N)) :
  targets_old olds p = true ->
  PosixPath.parts (Url.unquote p) = first :: rest ->
  Forall scalar p -> Forall scalar rel -> plain rel -> Forall plain rest ->
  exists out,
    rewrite_path olds rel p = Some out /\
    PosixPath.resolve_join md_dir (Url.unquote out) = md_dir ++ rel :: rest.
Proof.
  intros Ht Hparts Hp Hrel Hplain Hrest.
  assert (Hnew : Forall scalar (join (lit "/") (rel :: rest))).
  { apply join_Forall; [by repeat constructor|]. constructor; [done|].
    apply Forall_forall. intros x Hx.
    apply (substring_Forall scalar x (Url.unquote p)); [|by apply unquote_scalar].
    apply parts_substring. rewrite Hparts. by right. }
  destruct (unquote_quote _ Hnew) as (out & Hq & Hu & _).
  exists out. split.
  - unfold rewrite_path. fold (targets_old olds p). by rewrite Ht, Hparts.
  - rewrite Hu. apply resolve_join_plain; [done|]. by constructor.
Qed.

(** The link [Intro/a/my%20img.png] in a document of the directory [docs]. *)
Lemma rewritten_link_resolves_witness :
  exists out,
    rewrite_path [lit "Intro"] (lit "lecture 01") (lit "Intro/a/my%20img.png") = Some out /\
    PosixPath.resolve_join [lit "docs"] (Url.unquote out)
    = [lit "docs"; lit "lecture 01"; lit "a"; lit "my img.png"].
Proof.
  assert (Hsc : forall s : str, forallb (fun c => c <? 128) s = true -> Forall scalar s).
  { intros s H. rewrite forallb_forall in H. apply Forall_forall. intros c Hc.
    apply scalar_ascii, N.ltb_lt, H. by apply list_elem_of_In. }
  assert (Hpl : forall x : str, PosixPath.is_component x = true ->
                  forallb (fun c => negb (c =? 47)) x = true ->
                  str_eqb x (lit "..") = false -> plain x).
  { intros x H1 H2 H3. split; [split; [done|]|].
    - rewrite forallb_forall in H2. intros Hin. apply list_elem_of_In, H2 in Hin. done.
    - intros ->. done. }
  apply (rewritten_link_resolves [lit "Intro"] (lit "lecture 01")
           (lit "Intro/a/my%20img.png") (lit "Intro") [lit "a"; lit "my img.png"]
           [lit "docs"]).
  - vm_compute. reflexivity.
  - vm_compute. reflexivity.
  - by apply Hsc.
  - by apply Hsc.
  - by apply Hpl.
  - constructor; [by apply Hpl|]. constructor; [by apply Hpl|]. constructor.
Defined.

Section Images.

(** The image links of the rewritten text, when the image links target the
    old folder and no other link does once they are rewritten. *)
Lemma rewrite_text_images (olds : list str) (rel text : str) :
  Forall scalar text -> Forall scalar rel -> rel <> [] ->
  (forall g0 g1, Re.Hit g0 g1 ∈ Re.scan Re.image None 0 text -> link_ok olds rel g0 g1) ->
  (forall text1, Re.sub Re.image (repl olds rel) text = Some text1 ->
     forall p, p ∈ Re.captures Re.generic text1 -> targets_old olds p = false) ->
  exists text',
    rewrite_text olds rel text = Some text' /\
    Forall2 (relocated rel) (Re.captures Re.image text) (Re.captures Re.image text').
Proof.
  intros Htext Hrel Hne Hlinks Hothers.
  set (ps := Re.scan Re.image None 0 text).
  assert (Hflat : flatten ps = text)
    by apply (scan_flatten Re.image image_sound (length text)), le_n.
  destruct (first_pass olds rel ps) as (ps' & Hrl & Hrender); [done|done|..].
  { by rewrite Hflat. }
  { intros g0 g1 Hin. split; [by apply (scan_image_hits None 0%nat text)|by apply Hlinks]. }
  assert (Hsub : Re.sub Re.image (repl olds rel) text = Some (flatten ps')) by done.
  assert (Hscan' : Re.scan Re.image None 0 (flatten ps') = ps').
  { apply (rescan (relocated rel) ps ps' Hrl None None). by rewrite Hflat. }
  exists (flatten ps'). split.
  - unfold rewrite_text. rewrite Hsub. cbn.
    apply sub_unchanged; [apply generic_sound|].
    intros g0 g1 Hin. apply repl_untargeted. by apply (Hothers _ Hsub).
  - unfold Re.captures. rewrite Hscan'. fold ps. by apply relinked_paths.
Qed.

End Images.

(** X23.  No warning on a sound export.  In the situation of the end-to-end
    run, let the document be well-formed text whose image links all lead
    into the old folder, each to an entry that exists there, along plain
    segments.  Then [process_one] returns [True] and prints nothing: every
    image link of the rewritten document resolves to an entry under
    [lecture NN]; and [lecture NN] holds what the folder held. *)
Theorem process_one_links_resolve (is_decimal : N -> bool) (limit : nat)
    (parent : list (list N)) (old_dir : str) (idx : nat)
    (m : gmap (list (list N)) FS.entry) (md : list (list N)) (text : str) :
  let folder := parent ++ [old_dir] in
  let title := remove_brackets (strip_hash old_dir) in
  let new_name := lit "lecture " ++ extract_number is_decimal title idx in
  let new_dir := parent ++ [new_name] in
  let desired := parent ++ [norm (stem_of md) ++ PurePath.suffix (FS.name md)] in
  let olds := old_variants old_dir (strip_hash old_dir) title in
  FS.is_dir parent m = true ->
  m !! folder = Some FS.Dir ->
  (forall r, m !! (new_dir ++ r) = None) ->
  find_md_for_folder parent old_dir m = Some md ->
  m !! md = Some (FS.File text) ->
  FS.is_dir (bak_of md) m = false -> bak_of md <> new_dir ->
  md = desired \/ (m !! desired = None /\ desired <> new_dir) ->
  Forall scalar text -> Forall scalar new_name -> plain new_name ->
  (forall g0 g1, Re.Hit g0 g1 ∈ Re.scan Re.image None 0 text ->
     link_ok olds new_name g0 g1) ->
  (forall text1, Re.sub Re.image (repl olds new_name) text = Some text1 ->
     forall p, p ∈ Re.captures Re.generic text1 -> targets_old olds p = false) ->
  (forall p first rest, p ∈ Re.captures Re.image text ->
     PosixPath.parts (Url.unquote p) = first :: rest ->
     Forall plain rest /\ is_Some (m !! (folder ++ rest))) ->
  exists m',
    process_one is_decimal (S limit) parent folder idx m = (FS.Ok (true, []), m') /\
    (forall r, m' !! (folder ++ r) = None) /\
    (forall r, m' !! (new_dir ++ r) = m !! (folder ++ r)).
Proof.
  intros folder title new_name new_dir desired olds Hparent Hfolder Hfresh Hfind Hmd Hbak
    Hbak' Hdesired Htext Hnew Hplain Hlinks Hothers Hexist.
  assert (Hne : new_name <> []) by done.
  destruct (rewrite_text_images olds new_name text Htext Hnew Hne Hlinks Hothers)
    as (text' & Hrw & Hcaps).
  destruct (process_one_run is_decimal limit parent old_dir idx m md text text'
              Hparent Hfolder Hfresh Hfind Hmd Hbak Hbak' Hrw Hdesired)
    as (mid & m' & Hrun & Hmid & Hgone & Hmoved & _).
  fold folder title new_name new_dir in Hrun, Hmid, Hgone, Hmoved.
  pose proof (find_md_for_folder_cases parent old_dir m) as Hc. cbv zeta in Hc.
  rewrite Hfind in Hc. apply elem_of_glob_md in Hc as (n & Emd & _ & _).
  assert (Hnone : missing_links (FS.parent md) text' mid = []).
  { unfold missing_links. rewrite Emd, parent_snoc.
    match goal with |- List.filter ?f ?l = [] =>
      assert (Hall : Forall (fun link => f link = false) l) end.
    { apply Forall_forall. intros link Hlink.
      apply list_elem_of_fmap in Hlink as (p' & -> & Hp').
      destruct (Forall2_elem_r _ _ _ _ Hcaps Hp') as (p & Hp & first & rest & Hparts & Hu).
      destruct (Hexist p first rest Hp Hparts) as [Hrest [e He]].
      rewrite Hu, resolve_join_plain; [|done|by constructor].
      unfold FS.exists_.
      change (parent ++ new_name :: rest) with (parent ++ [new_name] ++ rest).
      rewrite app_assoc. fold new_dir.
      rewrite stat_nonempty by (unfold new_dir; by destruct parent).
      by rewrite Hmid, He. }
    induction Hall as [|x l Hx Hl IH]; simpl; [done|]. by rewrite Hx. }
  rewrite Hnone in Hrun. exists m'. done.
Qed.

(** The export [export_fs]. *)
Lemma process_one_links_resolve_witness :
  exists m',
    process_one is_ascii_digit 1 [] [lit "Intro " ++ h32] 1 export_fs
    = (FS.Ok (true, []), m') /\
    m' !! [lit "Intro " ++ h32; lit "img 1.png"] = None /\
    m' !! [lit "lecture 01"; lit "img 1.png"] = Some (FS.File (lit "png")).
Proof.
  assert (Hsc : forall s : str, forallb (fun c => c <? 128) s = true -> Forall scalar s).
  { intros s H. rewrite forallb_forall in H. apply Forall_forall. intros c Hc.
    apply scalar_ascii, N.ltb_lt, H. by apply list_elem_of_In. }
  assert (Hpl : forall x : str, PosixPath.is_component x = true ->
                  forallb (fun c => negb (c =? 47)) x = true ->
                  str_eqb x (lit "..") = false -> plain x).
  { intros x H1 H2 H3. split; [split; [done|]|].
    - rewrite forallb_forall in H2. intros Hin. apply list_elem_of_In, H2 in Hin. done.
    - intros ->. done. }
  pose proof (process_one_links_resolve is_ascii_digit 0 [] (lit "Intro " ++ h32) 1 export_fs
                [lit "Intro " ++ h32 ++ lit ".md"] export_text) as H.
  cbv zeta in H.
  destruct H as (m' & Hrun & Hgone & Hmoved).
  - reflexivity.
  - vm_compute. reflexivity.
  - intros r.
    destruct (export_fs !! (([] ++ [lit "lecture " ++ extract_number is_ascii_digit
                (remove_brackets (strip_hash (lit "Intro " ++ h32))) 1]) ++ r))
      as [e|] eqn:E; [exfalso|done].
    apply elem_of_map_to_list in E. vm_compute in E.
    repeat (apply elem_of_cons in E as [E|E]; [discriminate E|]).
    by apply elem_of_nil in E.
  - vm_compute. reflexivity.
  - vm_compute. reflexivity.
  - vm_compute. reflexivity.
  - vm_compute. intros E. discriminate E.
  - right. split; [vm_compute; reflexivity|]. vm_compute. intros E. discriminate E.
  - apply Hsc. vm_compute. reflexivity.
  - apply Hsc. vm_compute. reflexivity.
  - apply Hpl; vm_compute; reflexivity.
  - intros g0 g1 Hin. apply elem_of_hits_of in Hin.
    assert (E : hits_of (Re.scan Re.image None 0 export_text)
                = [(export_text, lit "Intro%20" ++ h32 ++ lit "/img%201.png")])
      by (vm_compute; reflexivity).
    rewrite E in Hin. apply list_elem_of_singleton in Hin. injection Hin as -> ->.
    split; [vm_compute; reflexivity|].
    exists (lit "Intro " ++ h32), [lit "img 1.png"].
    split; [apply list_elem_of_In; vm_compute; auto 10|].
    split; vm_compute; reflexivity.
  - intros text1 E p Hp. vm_compute in E. injection E as <-.
    vm_compute in Hp. by apply elem_of_nil in Hp.
  - intros p first rest Hp Hparts.
    assert (E : Re.captures Re.image export_text
                = [lit "Intro%20" ++ h32 ++ lit "/img%201.png"])
      by (vm_compute; reflexivity).
    rewrite E in Hp. apply list_elem_of_singleton in Hp as ->.
    assert (E' : PosixPath.parts (Url.unquote (lit "Intro%20" ++ h32 ++ lit "/img%201.png"))
                 = [lit "Intro " ++ h32; lit "img 1.png"])
      by (vm_compute; reflexivity).
    rewrite E' in Hparts. injection Hparts as <- <-.
    split.
    + constructor; [|constructor]. apply Hpl; vm_compute; reflexivity.
    + exists (FS.File (lit "png")). vm_compute. reflexivity.
  - exists m'. split; [exact Hrun|].
    split; [exact (Hgone [lit "img 1.png"])|].
    etrans; [exact (Hmoved [lit "img 1.png"])|vm_compute; reflexivity].
Defined.
